(** * google/zip.cc: packing a directory tree into a ZIP archive and
      unpacking an archive into a directory.

    The development embeds [src/google/zip.cc] (POSIX build, release
    semantics: [DCHECK]s are not evaluated) and proves properties of the
    directory traversal of [Zip], of the entry-writing loop, and of the
    extraction loop of [UnzipWithFilterCallback].

    Collaborators that the translation unit only calls ([base::FilePath],
    minizip's writer, [zip::ZipReader], [FileAccessor] implementations) are
    modelled explicitly and kept apart from the code of [zip.cc]. *)

From Stdlib Require Import List String Ascii Bool Arith ZArith Lia Sorted.
Import ListNotations.

Local Open Scope string_scope.
Local Open Scope list_scope.
Local Open Scope nat_scope.

(* ===================================================================== *)
(** ** base::FilePath *)
(* ===================================================================== *)

(** Modelled from the spec: [base::FilePath] is declared in
    [base/files/file_path.h], outside [src/].  A path is kept as the vector
    that [FilePath::GetComponents] returns for it: the root directory is the
    component ["/"], every other component is a file or directory name, and
    the empty path has no component.  Separators are therefore already
    normalised; the string form is recovered by [value]. *)
Definition FilePath : Type := list string.

Definition kCurrentDirectory : string := ".".
Definition kParentDirectory : string := "..".
Definition kSeparator : string := "/".

Definition GetComponents (p : FilePath) : list string := p.

Definition FilePath_eqb (p q : FilePath) : bool :=
  if list_eq_dec string_dec p q then true else false.

(** [FilePath::empty()]. *)
Definition empty (p : FilePath) : bool :=
  match p with
  | [] => true
  | _ :: _ => false
  end.

(** [FilePath::value()], also [AsUTF8Unsafe()] on POSIX: the components
    joined by the separator, a leading root component printed once. *)
Definition value (p : FilePath) : string :=
  match p with
  | [] => ""
  | c :: rest =>
      if String.eqb c kSeparator
      then (kSeparator ++ String.concat kSeparator rest)%string
      else String.concat kSeparator p
  end.

Definition AsUTF8Unsafe (p : FilePath) : string := value p.

(** [FilePath::IsAbsolute()] on POSIX. *)
Definition IsAbsolute (p : FilePath) : bool :=
  match p with
  | c :: _ => String.eqb c kSeparator
  | [] => false
  end.

(** [FilePath::ReferencesParent()]: some component is [".."]. *)
Definition ReferencesParent (p : FilePath) : bool :=
  existsb (String.eqb kParentDirectory) p.

(** [FilePath::BaseName()]: the last component ([ "/" ] for the root, the
    empty path for the empty path). *)
Definition BaseName (p : FilePath) : FilePath :=
  match p with
  | [] => []
  | _ :: _ => [last p ""]
  end.

(** [FilePath::Append(component)].  Appending to the current directory
    ["."] returns the component alone; otherwise the components follow
    those of the receiver.  (An absolute argument violates a [DCHECK] of
    the library and is outside the model.) *)
Definition Append (p q : FilePath) : FilePath :=
  if FilePath_eqb p [kCurrentDirectory] && negb (empty q)
  then q
  else p ++ q.

(** [bool FilePath::AppendRelativePath(child, FilePath* path)]: fails when
    the receiver has no component, when [child] has no more components than
    the receiver, or when the receiver's components are not the first
    components of [child]; on failure [*path] is left as it was.  On success
    the remaining components of [child] are appended to [*path] one by one. *)
Definition AppendRelativePath (parent child : FilePath) (path : FilePath)
  : bool * FilePath :=
  let parent_components := GetComponents parent in
  let child_components := GetComponents child in
  if empty parent_components
     || (List.length child_components <=? List.length parent_components)
  then (false, path)
  else if FilePath_eqb parent_components
            (firstn (List.length parent_components) child_components)
  then (true,
        fold_left (fun acc c => Append acc [c])
          (skipn (List.length parent_components) child_components) path)
  else (false, path).

(** [std::string::operator[](0)]: the first character, the terminating
    NUL for the empty string. *)
Definition char_at_0 (s : string) : ascii :=
  match s with
  | String c _ => c
  | EmptyString => Ascii.zero
  end.

(* ===================================================================== *)
(** ** Entry filters (zip.cc, lines 90-100) *)
(* ===================================================================== *)

Definition IsHiddenFile (file_path : FilePath) : bool :=
  Ascii.eqb (char_at_0 (value (BaseName file_path))) "."%char.

Definition ExcludeNoFilesFilter (file_path : FilePath) : bool := true.

Definition ExcludeHiddenFilesFilter (file_path : FilePath) : bool :=
  negb (IsHiddenFile file_path).

(** [zip::FilterCallback] is a [base::Callback<bool(const FilePath&)>];
    a null callback is [None]. *)
Definition FilterCallback : Type := option (FilePath -> bool).

(* ===================================================================== *)
(** ** FileAccessor *)
(* ===================================================================== *)

Definition Time : Type := Z.

(** [FileAccessor::DirectoryContentEntry]. *)
Record DirectoryContentEntry : Type := mkEntry {
  path : FilePath;
  is_directory : bool
}.

(** [base::File] as [AddFileToZip] uses it: validity of the handle and the
    outcomes of the successive [ReadAtCurrentPos] calls, each the number of
    bytes returned (negative on error) with the bytes read.  Once the list
    is exhausted a read returns 0 (end of file). *)
Record File : Type := mkFile {
  IsValid : bool;
  reads : list (Z * string)
}.

(** The virtual interface [zip::FileAccessor] (declared in zip.h). *)
Record FileAccessor : Type := mkAccessor {
  OpenFileForReading : FilePath -> File;
  DirectoryExists : FilePath -> bool;
  ListDirectoryContent : FilePath -> list DirectoryContentEntry;
  GetLastModifiedTime : FilePath -> Time
}.

(* ===================================================================== *)
(** ** DirectFileAccessor (zip.cc, lines 102-135) *)
(* ===================================================================== *)

(** Modelled from the spec: the functions of [base] that
    [DirectFileAccessor] calls are outside [src/].  A file system gives
    the handle [base::File(path, FLAG_OPEN | FLAG_READ)], the answer of
    [base::DirectoryExists(path)], the paths that the successive calls of
    [FileEnumerator::Next()] return for a directory (once they are used up
    [Next()] returns the empty path), and the modification time that
    [base::GetFileInfo] stores, if it succeeds. *)
Record FileSystem : Type := mkFileSystem {
  base_File : FilePath -> File;
  base_DirectoryExists : FilePath -> bool;
  FileEnumerator_Next : FilePath -> list FilePath;
  base_GetFileInfo : FilePath -> option Time
}.

(** [base::Time()], the value of [file_info.last_modified] when
    [GetFileInfo] did not fill it in. *)
Definition null_Time : Time := 0%Z.

(** The loop of lines 120-123 over the results of [Next()] still to
    come: it ends at the first path whose [value()] is empty. *)
Fixpoint push_enumerated (fs : FileSystem) (next : list FilePath)
  : list DirectoryContentEntry :=
  match next with
  | [] => []
  | p :: rest =>
      if String.eqb (value p) ""
      then []
      else mkEntry p (base_DirectoryExists fs p) :: push_enumerated fs rest
  end.

Definition DirectFileAccessor (fs : FileSystem) : FileAccessor :=
  mkAccessor
    (fun file => base_File fs file)
    (fun file => base_DirectoryExists fs file)
    (fun dir => push_enumerated fs (FileEnumerator_Next fs dir))
    (fun p => match base_GetFileInfo fs p with
              | Some last_modified => last_modified
              | None => null_Time
              end).

(* ===================================================================== *)
(** ** minizip writer *)
(* ===================================================================== *)

(** Modelled from the spec: the archive writer capability
    ([begin_entry], [write_chunk], [end_entry], [close]) is minizip's
    [zip.h] and [zip_internal.cc], outside [src/].  A [zipFile] handle is
    the history of the calls made on it, each with its outcome. *)
Inductive ZipOp : Type :=
| OpOpenNewFileInZip (str_path : string) (last_modified : Time)
| OpWriteInFileInZip (buf : string) (num_bytes : Z)
| OpCloseFileInZip
| OpClose.

Definition zipFile : Type := list (ZipOp * bool).

(** The names of the entries opened successfully, in order. *)
Fixpoint entry_names (zf : zipFile) : list string :=
  match zf with
  | [] => []
  | (OpOpenNewFileInZip n _, true) :: rest => n :: entry_names rest
  | _ :: rest => entry_names rest
  end.

(** Every attempt to open an entry, successful or not. *)
Fixpoint open_attempts (zf : zipFile) : list string :=
  match zf with
  | [] => []
  | (OpOpenNewFileInZip n _, _) :: rest => n :: open_attempts rest
  | _ :: rest => open_attempts rest
  end.

(* ===================================================================== *)
(** ** Packing (zip.cc, lines 32-88 and 153-234) *)
(* ===================================================================== *)

(** [zip::ZipParams] (declared in zip.h): the fields [Zip] reads. *)
Record ZipParams : Type := mkZipParams {
  src_dir : FilePath;
  dest_file : FilePath;
  dest_fd : Z;
  file_accessor : FileAccessor;
  files_to_zip : list FilePath;
  filter_callback : FilterCallback;
  include_hidden_files : bool
}.

Definition kInvalidPlatformFile : Z := (-1)%Z.

(** The state of the first loop of [Zip] (lines 188-215): the list
    [entries] that is extended while it is iterated, the vector
    [all_files], and two records kept for the proofs only: the arguments
    of the calls [filter_callback.Run(...)] and of the calls
    [ListDirectoryContent(...)], in the order they are made. *)
Record Traversal : Type := mkTraversal {
  entries : list DirectoryContentEntry;
  all_files : list FilePath;
  callback_runs : list FilePath;
  listed : list FilePath
}.

(** What a call of [Zip] leaves behind: the value returned, the archive
    handle (if one was opened), the vector [*files_to_add], and the
    traversal state (empty when no traversal took place). *)
Record ZipRun : Type := mkZipRun {
  zip_result : bool;
  archive : option zipFile;
  files_to_add : list FilePath;
  traversal : Traversal
}.

Section Packer.

(** Modelled from the spec: whether minizip accepts a call, given the
    history of the handle; and whether an archive can be created on a
    descriptor, or at a path. *)
Variable minizip_ok : zipFile -> ZipOp -> bool.
Variable fd_opens : Z -> bool.
Variable path_opens : string -> bool.

(** [internal::OpenFdForZipping(fd, APPEND_STATUS_CREATE)] and
    [internal::OpenForZipping(path, APPEND_STATUS_CREATE)]: a fresh handle,
    or the null handle [None]. *)
Definition OpenFdForZipping (zip_fd : Z) : option zipFile :=
  if fd_opens zip_fd then Some [] else None.

Definition OpenForZipping (file_name_utf8 : string) : option zipFile :=
  if path_opens file_name_utf8 then Some [] else None.

Definition zip_call (zip_file : zipFile) (op : ZipOp) : bool * zipFile :=
  let ok := minizip_ok zip_file op in
  (ok, zip_file ++ [(op, ok)]).

Definition ZipOpenNewFileInZip (zip_file : zipFile) (str_path : string)
           (last_modified : Time) : bool * zipFile :=
  zip_call zip_file (OpOpenNewFileInZip str_path last_modified).

Definition zipWriteInFileInZip (zip_file : zipFile) (buf : string)
           (num_bytes : Z) : bool * zipFile :=
  zip_call zip_file (OpWriteInFileInZip buf num_bytes).

Definition zipCloseFileInZip (zip_file : zipFile) : bool * zipFile :=
  zip_call zip_file OpCloseFileInZip.

Definition zipClose (zip_file : zipFile) : bool * zipFile :=
  zip_call zip_file OpClose.

(** The [do ... while (num_bytes > 0)] loop of [AddFileToZip], over the
    outcomes of the reads still to come. *)
Fixpoint write_chunks (zip_file : zipFile) (pending : list (Z * string))
  : bool * zipFile :=
  match pending with
  | [] => (true, zip_file)
  | (num_bytes, buf) :: rest =>
      if (0 <? num_bytes)%Z
      then match zipWriteInFileInZip zip_file buf num_bytes with
           | (true, zip_file') => write_chunks zip_file' rest
           | (false, zip_file') => (false, zip_file')
           end
      else (true, zip_file)
  end.

Definition AddFileToZip (zip_file : zipFile) (src_path : FilePath)
           (accessor : FileAccessor) : bool * zipFile :=
  let file := OpenFileForReading accessor src_path in
  if negb (IsValid file)
  then (false, zip_file)
  else write_chunks zip_file (reads file).

Definition AddEntryToZip (zip_file : zipFile) (abs_path root_path : FilePath)
           (accessor : FileAccessor) : bool * zipFile :=
  let '(result, relative_path) := AppendRelativePath root_path abs_path [] in
  let str_path := AsUTF8Unsafe relative_path in
  let is_dir := DirectoryExists accessor abs_path in
  let str_path := if is_dir then (str_path ++ "/")%string else str_path in
  match ZipOpenNewFileInZip zip_file str_path
          (GetLastModifiedTime accessor abs_path) with
  | (false, zip_file1) => (false, zip_file1)
  | (true, zip_file1) =>
      let '(success, zip_file2) :=
        if negb is_dir
        then AddFileToZip zip_file1 abs_path accessor
        else (true, zip_file1) in
      match zipCloseFileInZip zip_file2 with
      | (false, zip_file3) => (false, zip_file3)
      | (true, zip_file3) => (success, zip_file3)
      end
  end.

(** The loop of lines 193-215.  [iter] is the position of the iterator in
    [entries]; [iter != entries.begin()] is [iter <> 0].  The callback is
    run only when the hidden-file test did not already decide (the [||]
    of line 197 is short-circuit). *)
Fixpoint traverse (fuel : nat) (params : ZipParams) (iter : nat)
         (t : Traversal) : option Traversal :=
  match fuel with
  | O => None
  | S fuel' =>
      match nth_error (entries t) iter with
      | None => Some t
      | Some e =>
          let entry_path := path e in
          let at_begin := iter =? 0 in
          let '(skip, runs) :=
            if at_begin then (false, callback_runs t)
            else if negb (include_hidden_files params)
                    && IsHiddenFile entry_path
            then (true, callback_runs t)
            else match filter_callback params with
                 | Some cb =>
                     (negb (cb entry_path), callback_runs t ++ [entry_path])
                 | None => (false, callback_runs t)
                 end in
          if skip
          then traverse fuel' params (S iter)
                 (mkTraversal (entries t) (all_files t) runs (listed t))
          else
            let all_files' :=
              if negb at_begin
              then all_files t
                     ++ [snd (AppendRelativePath (src_dir params)
                                entry_path [])]
              else all_files t in
            if is_directory e
            then traverse fuel' params (S iter)
                   (mkTraversal
                      (entries t
                         ++ ListDirectoryContent (file_accessor params)
                              entry_path)
                      all_files' runs (listed t ++ [entry_path]))
            else traverse fuel' params (S iter)
                   (mkTraversal (entries t) all_files' runs (listed t))
      end
  end.

Definition no_traversal : Traversal := mkTraversal [] [] [] [].

(** Lines 181-216: the explicit list when it is not empty, the result of
    the traversal seeded with the source directory otherwise. *)
Definition collect_files (fuel : nat) (params : ZipParams)
  : option (list FilePath * Traversal) :=
  match files_to_zip params with
  | [] =>
      match traverse fuel params 0
              (mkTraversal [mkEntry (src_dir params) true] [] [] []) with
      | Some t => Some (all_files t, t)
      | None => None
      end
  | _ :: _ => Some (files_to_zip params, no_traversal)
  end.

(** The loop of lines 218-226; it stops at the first failure. *)
Fixpoint add_entries (zip_file : zipFile) (params : ZipParams)
         (files : list FilePath) : bool * zipFile :=
  match files with
  | [] => (true, zip_file)
  | f :: rest =>
      let abs_path := Append (src_dir params) f in
      match AddEntryToZip zip_file abs_path (src_dir params)
              (file_accessor params) with
      | (false, zip_file') => (false, zip_file')
      | (true, zip_file') => add_entries zip_file' params rest
      end
  end.

(** Lines 156-177. *)
Definition open_archive (params : ZipParams) : option zipFile :=
  if negb (dest_fd params =? kInvalidPlatformFile)%Z
  then OpenFdForZipping (dest_fd params)
  else OpenForZipping (AsUTF8Unsafe (dest_file params)).

(** [bool Zip(const ZipParams& params)].  [None] only when the traversal
    did not finish within [fuel] iterations. *)
Definition Zip (fuel : nat) (params : ZipParams) : option ZipRun :=
  match open_archive params with
  | None => Some (mkZipRun false None [] no_traversal)
  | Some zip_file =>
      match collect_files fuel params with
      | None => None
      | Some (files, t) =>
          let '(success, zip_file1) := add_entries zip_file params files in
          match zipClose zip_file1 with
          | (false, zip_file2) => Some (mkZipRun false (Some zip_file2) files t)
          | (true, zip_file2) => Some (mkZipRun success (Some zip_file2) files t)
          end
      end
  end.

(** [ZipParams::ZipParams(src_dir, dest_fd)] followed by
    [set_files_to_zip], as [ZipFiles] (lines 300-308) does.  The initial
    value of [include_hidden_files_] is set in zip.h and the accessor is
    the [DirectFileAccessor] over the real file system; both are
    arguments here. *)
Definition ZipFiles (fuel : nat) (direct_file_accessor : FileAccessor)
           (include_hidden_files_default : bool) (src : FilePath)
           (src_relative_paths : list FilePath) (fd : Z) : option ZipRun :=
  Zip fuel (mkZipParams src [] fd direct_file_accessor src_relative_paths
              None include_hidden_files_default).

(** [ZipParams::ZipParams(src_dir, dest_file)] followed by
    [set_filter_callback], as [ZipWithFilterCallback] (lines 279-286)
    does; no descriptor is set. *)
Definition ZipWithFilterCallback (fuel : nat)
           (direct_file_accessor : FileAccessor)
           (include_hidden_files_default : bool) (src dest : FilePath)
           (filter_cb : FilePath -> bool) : option ZipRun :=
  Zip fuel (mkZipParams src dest kInvalidPlatformFile direct_file_accessor []
              (Some filter_cb) include_hidden_files_default).

(** The overload [Zip(src_dir, dest_file, include_hidden_files)]
    (lines 288-297). *)
Definition ZipDirectory (fuel : nat) (direct_file_accessor : FileAccessor)
           (include_hidden_files_default : bool) (src dest : FilePath)
           (include_hidden : bool) : option ZipRun :=
  if include_hidden
  then ZipWithFilterCallback fuel direct_file_accessor
         include_hidden_files_default src dest ExcludeNoFilesFilter
  else ZipWithFilterCallback fuel direct_file_accessor
         include_hidden_files_default src dest ExcludeHiddenFilesFilter.

End Packer.

(* ===================================================================== *)
(** ** zip::ZipReader *)
(* ===================================================================== *)

(** Modelled from the spec: [zip::ZipReader] is defined in zip_reader.cc,
    outside [src/].  An archive is the sequence of its entries; for each
    entry the archive fixes the stored path and whether opening it,
    extracting it and advancing past it succeed. *)
Record ArchiveEntry : Type := mkArchiveEntry {
  stored_path : FilePath;
  opens : bool;
  extracts : bool;
  advances : bool
}.

(** [ZipReader::EntryInfo]: an entry is unsafe when its path refers to a
    parent directory or is absolute. *)
Record EntryInfo : Type := mkEntryInfo {
  file_path : FilePath;
  is_unsafe : bool
}.

Definition unsafe_path (p : FilePath) : bool :=
  ReferencesParent p || IsAbsolute p.

Definition entry_info_of (e : ArchiveEntry) : EntryInfo :=
  mkEntryInfo (stored_path e) (unsafe_path (stored_path e)).

(** The reader: the archive, the index of the current entry, the info of
    the entry opened last, and the extractions performed so far, each as
    (destination directory, entry path). *)
Record ZipReader : Type := mkZipReader {
  zip_entries : list ArchiveEntry;
  position : nat;
  current_entry_info : option EntryInfo;
  extracted : list (FilePath * FilePath)
}.

Definition HasMore (r : ZipReader) : bool :=
  position r <? List.length (zip_entries r).

Definition OpenCurrentEntryInZip (r : ZipReader) : bool * ZipReader :=
  match nth_error (zip_entries r) (position r) with
  | Some e =>
      if opens e
      then (true, mkZipReader (zip_entries r) (position r)
                    (Some (entry_info_of e)) (extracted r))
      else (false, r)
  | None => (false, r)
  end.

Definition ExtractCurrentEntryIntoDirectory (r : ZipReader)
           (output_directory_path : FilePath) : bool * ZipReader :=
  match nth_error (zip_entries r) (position r), current_entry_info r with
  | Some e, Some info =>
      if extracts e
      then (true, mkZipReader (zip_entries r) (position r)
                    (current_entry_info r)
                    (extracted r ++ [(output_directory_path, file_path info)]))
      else (false, r)
  | _, _ => (false, r)
  end.

Definition AdvanceToNextEntry (r : ZipReader) : bool * ZipReader :=
  match nth_error (zip_entries r) (position r) with
  | Some e =>
      if advances e
      then (true, mkZipReader (zip_entries r) (S (position r)) None
                    (extracted r))
      else (false, r)
  | None => (false, r)
  end.

(** Modelled from the spec: extraction creates the entry and the
    intermediate directories it needs.  The paths below the destination
    that exist after extracting the entry stored as [p] are the non-empty
    leading parts of [p], [p] itself last. *)
Fixpoint leading_parts (p : FilePath) : list FilePath :=
  match p with
  | [] => []
  | c :: rest => [c] :: map (cons c) (leading_parts rest)
  end.

(** The paths, relative to [dest_dir], present in [dest_dir] after the
    extractions recorded in [calls]. *)
Definition materialized (dest_dir : FilePath)
           (calls : list (FilePath * FilePath)) : list FilePath :=
  flat_map (fun c => if FilePath_eqb (fst c) dest_dir
                     then leading_parts (snd c) else []) calls.

(* ===================================================================== *)
(** ** Unpacking (zip.cc, lines 236-277) *)
(* ===================================================================== *)

(** The state of [UnzipWithFilterCallback]: the reader, and two records
    kept for the proofs: the arguments of the calls [filter_cb.Run(...)]
    and the paths logged as skipped. *)
Record Unzipping : Type := mkUnzipping {
  reader : ZipReader;
  filter_cb_runs : list FilePath;
  skipped_log : list FilePath
}.

(** The [while (reader.HasMore())] loop.  [None] when [fuel] iterations do
    not suffice, or when [current_entry_info()] is dereferenced while no
    entry is open. *)
Fixpoint unzip_loop (fuel : nat) (dest_dir : FilePath)
         (filter_cb : FilePath -> bool) (log_skipped_files : bool)
         (u : Unzipping) : option (bool * Unzipping) :=
  match fuel with
  | O => None
  | S fuel' =>
      if negb (HasMore (reader u)) then Some (true, u)
      else
        match OpenCurrentEntryInZip (reader u) with
        | (false, r1) =>
            Some (false, mkUnzipping r1 (filter_cb_runs u) (skipped_log u))
        | (true, r1) =>
            match current_entry_info r1 with
            | None => None
            | Some info =>
                if is_unsafe info
                then Some (false,
                           mkUnzipping r1 (filter_cb_runs u) (skipped_log u))
                else
                  let runs := filter_cb_runs u ++ [file_path info] in
                  let '(extracted_ok, r2, skipped) :=
                    if filter_cb (file_path info)
                    then (ExtractCurrentEntryIntoDirectory r1 dest_dir,
                          skipped_log u)
                    else if log_skipped_files
                    then (true, r1, skipped_log u ++ [file_path info])
                    else (true, r1, skipped_log u) in
                  if negb extracted_ok
                  then Some (false, mkUnzipping r2 runs skipped)
                  else
                    match AdvanceToNextEntry r2 with
                    | (false, r3) => Some (false, mkUnzipping r3 runs skipped)
                    | (true, r3) =>
                        unzip_loop fuel' dest_dir filter_cb log_skipped_files
                          (mkUnzipping r3 runs skipped)
                    end
            end
        end
  end.

Section Unpacker.

(** Modelled from the spec: [ZipReader::Open(src_file)] finds the archive
    stored at [src_file], if there is one that can be read. *)
Variable archive_at : FilePath -> option (list ArchiveEntry).

Definition Open (src_file : FilePath) : option ZipReader :=
  match archive_at src_file with
  | Some es => Some (mkZipReader es 0 None [])
  | None => None
  end.

Definition UnzipWithFilterCallback (fuel : nat) (src_file dest_dir : FilePath)
           (filter_cb : FilePath -> bool) (log_skipped_files : bool)
  : option (bool * option Unzipping) :=
  match Open src_file with
  | None => Some (false, None)
  | Some r =>
      match unzip_loop fuel dest_dir filter_cb log_skipped_files
              (mkUnzipping r [] []) with
      | Some (b, u) => Some (b, Some u)
      | None => None
      end
  end.

Definition Unzip (fuel : nat) (src_file dest_dir : FilePath)
  : option (bool * option Unzipping) :=
  UnzipWithFilterCallback fuel src_file dest_dir ExcludeNoFilesFilter true.

End Unpacker.

(* ===================================================================== *)
(** ** Notions used to state the properties *)
(* ===================================================================== *)

(** The final component of a path, as the specification words the
    hidden-file rule. *)
Definition final_component (p : FilePath) : option string :=
  match p with
  | [] => None
  | _ :: _ => Some (last p "")
  end.

Definition starts_with_dot (s : string) : Prop :=
  exists rest, s = String "."%char rest.

(** The path that line 205 pushes for [entry_path]. *)
Definition relative_to (root entry_path : FilePath) : FilePath :=
  snd (AppendRelativePath root entry_path []).

(** Verdict of the hidden-file rule alone, and of the caller's callback
    alone (a null callback accepts). *)
Definition hidden_rule_rejects (params : ZipParams) (p : FilePath) : bool :=
  negb (include_hidden_files params) && IsHiddenFile p.

Definition callback_accepts (params : ZipParams) (p : FilePath) : bool :=
  match filter_callback params with
  | Some cb => cb p
  | None => true
  end.

(** The condition of lines 196-197 for a non-root entry. *)
Definition rejected (params : ZipParams) (p : FilePath) : bool :=
  hidden_rule_rejects params p || negb (callback_accepts params p).

Definition accepted (params : ZipParams) (e : DirectoryContentEntry) : bool :=
  negb (rejected params (path e)).

(** What processing a non-root entry appends to the queue. *)
Definition expansion (params : ZipParams) (e : DirectoryContentEntry)
  : list DirectoryContentEntry :=
  if accepted params e && is_directory e
  then ListDirectoryContent (file_accessor params) (path e)
  else [].

(** The arguments the callback is run on while the entries [es] are
    processed. *)
Definition runs_on (params : ZipParams) (es : list DirectoryContentEntry)
  : list FilePath :=
  match filter_callback params with
  | Some _ =>
      map path (filter (fun e => negb (hidden_rule_rejects params (path e))) es)
  | None => []
  end.

(** The entry the queue is seeded with (lines 190-191), and the state in
    which the loop starts. *)
Definition seed (params : ZipParams) : DirectoryContentEntry :=
  mkEntry (src_dir params) true.

Definition seeded (params : ZipParams) : Traversal :=
  mkTraversal [seed params] [] [] [].

(** Total weight of the paths of a list of entries, for a measure
    [weight] on paths (used to bound the number of iterations). *)
Definition weight_of (weight : FilePath -> nat)
           (es : list DirectoryContentEntry) : nat :=
  list_sum (map (fun e => weight (path e)) es).

(** The state of the loop once the root and then the non-root entries
    [done] have been processed, in that order. *)
Definition traversal_after (params : ZipParams)
           (done : list DirectoryContentEntry) (t : Traversal) : Prop :=
  entries t
  = seed params
      :: (ListDirectoryContent (file_accessor params) (src_dir params)
            ++ flat_map (expansion params) done)
  /\ all_files t
     = map (fun e => relative_to (src_dir params) (path e))
         (filter (accepted params) done)
  /\ callback_runs t = runs_on params done
  /\ listed t
     = src_dir params
         :: map path (filter (fun e => accepted params e && is_directory e)
                        done).

Definition characterised (params : ZipParams) (iter : nat) (t : Traversal)
  : Prop :=
  match iter with
  | O => t = seeded params
  | S k => k <= List.length (tl (entries t))
           /\ traversal_after params (firstn k (tl (entries t))) t
  end.

(** One iteration of the loop of lines 193-215 on the entry [e]. *)
Definition visit (params : ZipParams) (at_begin : bool)
           (e : DirectoryContentEntry) (t : Traversal) : Traversal :=
  if at_begin
  then mkTraversal
         (entries t ++ (if is_directory e
                        then ListDirectoryContent (file_accessor params) (path e)
                        else []))
         (all_files t)
         (callback_runs t)
         (listed t ++ (if is_directory e then [path e] else []))
  else mkTraversal
         (entries t ++ expansion params e)
         (all_files t ++ (if accepted params e
                          then [relative_to (src_dir params) (path e)]
                          else []))
         (callback_runs t ++ runs_on params [e])
         (listed t ++ (if accepted params e && is_directory e
                       then [path e] else [])).

(** A file or directory name: not empty, neither ["."] nor [".."], and
    free of separators. *)
Fixpoint has_separator (s : string) : bool :=
  match s with
  | EmptyString => false
  | String c rest => Ascii.eqb c "/"%char || has_separator rest
  end.

Definition is_file_name (n : string) : bool :=
  negb (String.eqb n "")
  && negb (String.eqb n kCurrentDirectory)
  && negb (String.eqb n kParentDirectory)
  && negb (has_separator n).

(** The contract of [FileAccessor::ListDirectoryContent]: the entries
    returned for a directory are its immediate children. *)
Definition lists_immediate_children (accessor : FileAccessor) : Prop :=
  forall dir e,
    In e (ListDirectoryContent accessor dir) ->
    exists n, is_file_name n = true /\ path e = dir ++ [n].

(** A queued entry lies below the source directory, along file names, and
    every directory strictly between the source directory and the entry
    passed the filter. *)
Definition well_placed (params : ZipParams) (e : DirectoryContentEntry)
  : Prop :=
  exists s,
    s <> []
    /\ Forall (fun n => is_file_name n = true) s
    /\ path e = src_dir params ++ s
    /\ forall s1 s2, s = s1 ++ s2 -> s1 <> [] -> s2 <> [] ->
                     rejected params (src_dir params ++ s1) = false.

(** Number of components of the path of a queued entry. *)
Definition depth (e : DirectoryContentEntry) : nat := List.length (path e).

Definition depth_le (a b : DirectoryContentEntry) : Prop := depth a <= depth b.

(** The queue is ordered by depth, and no queued entry lies more than one
    level below the entry at the iterator. *)
Definition level_bounded (iter : nat) (t : Traversal) : Prop :=
  StronglySorted depth_le (entries t)
  /\ forall e x, nth_error (entries t) iter = Some e ->
                 In x (entries t) -> depth x <= S (depth e).

(** [p] lies strictly below [d]. *)
Definition strictly_below (d p : FilePath) : Prop :=
  exists rest, rest <> [] /\ p = d ++ rest.

(** Relative paths ordered by their number of components (their level
    below the source directory). *)
Definition level_le (p q : FilePath) : Prop :=
  List.length p <= List.length q.

(** The archive entry name [AddEntryToZip] computes (lines 61-71) for the
    path [abs_path] under [root_path], and for the listed relative path
    [f] that the loop of lines 218-226 resolves under the source
    directory. *)
Definition entry_name (accessor : FileAccessor) (root_path abs_path : FilePath)
  : string :=
  let str_path :=
    AsUTF8Unsafe (snd (AppendRelativePath root_path abs_path [])) in
  if DirectoryExists accessor abs_path
  then (str_path ++ "/")%string
  else str_path.

Definition str_path_of (params : ZipParams) (f : FilePath) : string :=
  entry_name (file_accessor params) (src_dir params)
    (Append (src_dir params) f).

(** Whether the source of an entry can be read: it is a directory, or a
    file that opens. *)
Definition source_readable (accessor : FileAccessor) (abs_path : FilePath)
  : bool :=
  DirectoryExists accessor abs_path
  || IsValid (OpenFileForReading accessor abs_path).

(** The name the specification gives to the entry: the relative path as
    listed, with a trailing separator for a directory. *)
Definition listed_entry_name (params : ZipParams) (f : FilePath) : string :=
  if DirectoryExists (file_accessor params) (src_dir params ++ f)
  then (value f ++ "/")%string
  else value f.

(** An explicit relative path that [Append] and [AppendRelativePath] take
    back to itself: not empty and not starting in the current directory. *)
Definition plain_relative (f : FilePath) : Prop :=
  f <> [] /\ hd "" f <> kCurrentDirectory.

(** An archive entry that is safe and on which no reader operation
    fails. *)
Definition extractable (e : ArchiveEntry) : bool :=
  negb (unsafe_path (stored_path e)) && opens e && extracts e && advances e.

(** [a] is a directory on the way to [q]. *)
Definition proper_ancestor (a q : FilePath) : Prop :=
  a <> [] /\ exists rest, rest <> [] /\ q = a ++ rest.

(** The extractions of the entries [ps] into [dest_dir], in order. *)
Definition extractions_of (dest_dir : FilePath) (ps : list FilePath)
  : list (FilePath * FilePath) :=
  map (fun p => (dest_dir, p)) ps.

(** The specification's unsafe-entry rejection: the unpacker fails having
    extracted nothing. *)
Definition fails_without_extracting
           (outcome : option (bool * option Unzipping)) : Prop :=
  exists u, outcome = Some (false, Some u) /\ extracted (reader u) = [].

(** The specification's reading of the entry filter as a predicate over
    relative paths: every argument the callback was run on is the
    source-relative path of a queued non-root entry. *)
Definition callback_sees_relative_paths (params : ZipParams) (t : Traversal)
  : Prop :=
  forall p, In p (callback_runs t) ->
    exists e, In e (tl (entries t))
              /\ p = relative_to (src_dir params) (path e).

(** The specification's filter skip: no entry the filter rejects exists
    in the destination afterwards. *)
Definition rejected_entries_absent (dest_dir : FilePath)
           (filter_cb : FilePath -> bool) (es : list ArchiveEntry)
           (u : Unzipping) : Prop :=
  forall e, In e es -> filter_cb (stored_path e) = false ->
    ~ In (stored_path e) (materialized dest_dir (extracted (reader u))).

(** *** Notions for the calls on the archive *)

(** The chunks [AddFileToZip] copies from a file: the reads that return
    bytes, up to the first read that returns none (end of file) or fails
    (a negative count). *)
Fixpoint chunks_read (pending : list (Z * string)) : list (Z * string) :=
  match pending with
  | [] => []
  | (num_bytes, buf) :: rest =>
      if (0 <? num_bytes)%Z then (num_bytes, buf) :: chunks_read rest else []
  end.

Definition chunks_of (accessor : FileAccessor) (src_path : FilePath)
  : list (Z * string) :=
  chunks_read (reads (OpenFileForReading accessor src_path)).

(** The call [zipWriteInFileInZip(zip_file, buf, num_bytes)] for a chunk,
    and the record of such a call that succeeded. *)
Definition write_of (chunk : Z * string) : ZipOp :=
  OpWriteInFileInZip (snd chunk) (fst chunk).

Definition written (chunk : Z * string) : ZipOp * bool :=
  (write_of chunk, true).

Definition is_write (call : ZipOp * bool) : bool :=
  match fst call with
  | OpWriteInFileInZip _ _ => true
  | _ => false
  end.

(** The call discipline of a minizip writer, read off a call history: an
    entry is opened only while none is open, data is written and an entry
    is closed only while one is open, and the archive is closed last,
    while no entry is open. *)
Inductive WriterState : Type :=
| Idle
| InEntry
| Finished.

Definition protocol_step (s : option WriterState) (call : ZipOp * bool)
  : option WriterState :=
  match s, call with
  | Some Idle, (OpOpenNewFileInZip _ _, true) => Some InEntry
  | Some Idle, (OpOpenNewFileInZip _ _, false) => Some Idle
  | Some InEntry, (OpWriteInFileInZip _ _, _) => Some InEntry
  | Some InEntry, (OpCloseFileInZip, _) => Some Idle
  | Some Idle, (OpClose, _) => Some Finished
  | _, _ => None
  end.

Definition protocol_from (s : option WriterState) (zf : zipFile)
  : option WriterState :=
  fold_left protocol_step zf s.

(** *** Notions for the traversal *)

(** The entries the traversal can reach: those listed in the source
    directory, and those listed in a reached entry that passed the filters
    and is flagged as a directory. *)
Inductive reachable (params : ZipParams) : DirectoryContentEntry -> Prop :=
| reachable_top (e : DirectoryContentEntry) :
    In e (ListDirectoryContent (file_accessor params) (src_dir params)) ->
    reachable params e
| reachable_below (d e : DirectoryContentEntry) :
    reachable params d ->
    accepted params d = true ->
    is_directory d = true ->
    In e (ListDirectoryContent (file_accessor params) (path d)) ->
    reachable params e.

(** The name of the archive entry of a queued entry: its source-relative
    path, followed by a separator when the entry is flagged as a
    directory. *)
Definition archive_name (params : ZipParams) (e : DirectoryContentEntry)
  : string :=
  if is_directory e
  then (value (relative_to (src_dir params) (path e)) ++ "/")%string
  else value (relative_to (src_dir params) (path e)).

(** The flags of the listed entries agree with [DirectoryExists]. *)
Definition flags_agree (accessor : FileAccessor) : Prop :=
  forall dir e,
    In e (ListDirectoryContent accessor dir) ->
    DirectoryExists accessor (path e) = is_directory e.

(** *** Notions for the extraction loop *)

(** An entry the extraction loop gets past, for a given filter: it opens,
    it is safe, it is extracted if the filter accepts it, and the reader
    advances past it. *)
Definition passes (filter_cb : FilePath -> bool) (e : ArchiveEntry) : bool :=
  opens e
  && negb (unsafe_path (stored_path e))
  && (negb (filter_cb (stored_path e)) || extracts e)
  && advances e.

(** The entries before the first one the loop does not get past. *)
Fixpoint passing_prefix (filter_cb : FilePath -> bool)
         (es : list ArchiveEntry) : list ArchiveEntry :=
  match es with
  | [] => []
  | e :: rest =>
      if passes filter_cb e then e :: passing_prefix filter_cb rest else []
  end.

(** What the loop has extracted of the entry it stops on, the first one
    it does not get past: that entry when it opened, is safe, was
    accepted and was extracted (advancing past it is then what failed),
    nothing otherwise, and nothing when every entry passes. *)
Definition extracted_at_stop (dest_dir : FilePath)
           (filter_cb : FilePath -> bool) (es : list ArchiveEntry)
  : list (FilePath * FilePath) :=
  match nth_error es (List.length (passing_prefix filter_cb es)) with
  | Some e =>
      if opens e && negb (unsafe_path (stored_path e))
         && filter_cb (stored_path e) && extracts e
      then [(dest_dir, stored_path e)]
      else []
  | None => []
  end.

(** The paths the loop logs as skipped when logging is on: the arguments
    of the filter that it rejected. *)
Definition rejected_runs (filter_cb : FilePath -> bool) (u : Unzipping)
  : list FilePath :=
  filter (fun p => negb (filter_cb p)) (filter_cb_runs u).

(** A state of the loop with the log left out. *)
Definition without_log (u : Unzipping) : Unzipping :=
  mkUnzipping (reader u) (filter_cb_runs u) [].

(* ===================================================================== *)
(** ** An in-memory file system and sample archives *)
(* ===================================================================== *)

(** A [FileAccessor] over a table of directories (each with its listing)
    and a table of files, in the manner of the virtual file system of the
    unit tests. *)
Definition Listing : Type := list (FilePath * list DirectoryContentEntry).

Fixpoint children_in (dirs : Listing) (dir : FilePath)
  : list DirectoryContentEntry :=
  match dirs with
  | [] => []
  | (d, es) :: rest =>
      if FilePath_eqb d dir then es else children_in rest dir
  end.

Fixpoint file_in (files : list (FilePath * File)) (p : FilePath) : File :=
  match files with
  | [] => mkFile false []
  | (q, f) :: rest => if FilePath_eqb q p then f else file_in rest p
  end.

Definition memory_accessor (dirs : Listing) (files : list (FilePath * File))
  : FileAccessor :=
  mkAccessor
    (file_in files)
    (fun p => existsb (fun d => FilePath_eqb (fst d) p) dirs)
    (children_in dirs)
    (fun _ => 0%Z).

(** Decidable form of [lists_immediate_children] for a table. *)
Definition child_of (dir : FilePath) (e : DirectoryContentEntry) : bool :=
  match skipn (List.length dir) (path e) with
  | [n] => is_file_name n
           && FilePath_eqb (firstn (List.length dir) (path e)) dir
  | _ => false
  end.

Definition listing_ok (dirs : Listing) : bool :=
  forallb (fun d => forallb (child_of (fst d)) (snd d)) dirs.

(** The number of paths at or below [p] in a table of directories,
    counted down to [n] levels. *)
Fixpoint size_below (dirs : Listing) (n : nat) (p : FilePath) : nat :=
  match n with
  | O => 1
  | S n' =>
      S (list_sum (map (fun e => size_below dirs n' (path e))
                     (children_in dirs p)))
  end.

Definition sample_src : FilePath := ["/"; "src"].

Definition sample_dirs : Listing :=
  [ (["/"; "src"],
     [ mkEntry ["/"; "src"; "a.txt"] false;
       mkEntry ["/"; "src"; "foo"] true;
       mkEntry ["/"; "src"; ".git"] true;
       mkEntry ["/"; "src"; "z.txt"] false ]);
    (["/"; "src"; "foo"],
     [ mkEntry ["/"; "src"; "foo"; "ok.txt"] false;
       mkEntry ["/"; "src"; "foo"; "bar"] true ]);
    (["/"; "src"; "foo"; "bar"],
     [ mkEntry ["/"; "src"; "foo"; "bar"; "deep.txt"] false ]);
    (["/"; "src"; ".git"],
     [ mkEntry ["/"; "src"; ".git"; "config"] false ]) ].

Definition text_file (s : string) : File :=
  mkFile true [(Z.of_nat (String.length s), s)].

Definition sample_files : list (FilePath * File) :=
  [ (["/"; "src"; "a.txt"], text_file "alpha");
    (["/"; "src"; "z.txt"], text_file "omega");
    (["/"; "src"; "foo"; "ok.txt"], text_file "ok");
    (["/"; "src"; "foo"; "bar"; "deep.txt"], text_file "deep");
    (["/"; "src"; ".git"; "config"], text_file "[core]") ].

Definition sample_accessor : FileAccessor :=
  memory_accessor sample_dirs sample_files.

(** Writers: one on which every call succeeds, and one that cannot open
    the entry of a given name. *)
Definition writer_ok (zip_file : zipFile) (op : ZipOp) : bool := true.

Definition writer_refusing (name : string) (zip_file : zipFile) (op : ZipOp)
  : bool :=
  match op with
  | OpOpenNewFileInZip n _ => negb (String.eqb n name)
  | _ => true
  end.

Definition open_any_fd (fd : Z) : bool := true.
Definition open_any_path (dest : string) : bool := true.

(** Full-tree packing of the sample tree, with a given callback and
    hidden-file policy. *)
Definition sample_params (cb : FilterCallback) (hidden : bool) : ZipParams :=
  mkZipParams sample_src ["/"; "out.zip"] kInvalidPlatformFile
    sample_accessor [] cb hidden.

(** Packing an explicit list from the sample tree. *)
Definition sample_explicit : list FilePath :=
  [ ["a.txt"]; [".git"; "config"]; [".git"]; ["foo"] ].

Definition sample_explicit_params : ZipParams :=
  mkZipParams sample_src [] 3%Z sample_accessor sample_explicit
    (Some (fun _ => false)) false.

(** A callback that rejects the directory [foo] and nothing else. *)
Definition not_foo (p : FilePath) : bool :=
  negb (FilePath_eqb p ["/"; "src"; "foo"]).

(** A callback written against source-relative paths: it accepts the
    relative path [a.txt] only. *)
Definition only_relative_a_txt (p : FilePath) : bool :=
  FilePath_eqb p ["a.txt"].

Definition good_entry (p : FilePath) : ArchiveEntry :=
  mkArchiveEntry p true true true.

(** Archives: a safe entry followed by one that escapes the destination;
    a directory entry followed by a file in it; an empty archive. *)
Definition evil_zip : list ArchiveEntry :=
  [ good_entry ["a.txt"]; good_entry [".."; ".."; "etc"; "passwd"] ].

Definition nested_zip : list ArchiveEntry :=
  [ good_entry ["a"]; good_entry ["a"; "b.txt"]; good_entry ["c.txt"] ].

Definition disk (zip_path : FilePath) : option (list ArchiveEntry) :=
  if FilePath_eqb zip_path ["/"; "evil.zip"] then Some evil_zip
  else if FilePath_eqb zip_path ["/"; "nested.zip"] then Some nested_zip
  else if FilePath_eqb zip_path ["/"; "empty.zip"] then Some []
  else None.

Definition sample_dest : FilePath := ["/"; "out"].

(** A filter that extracts files with the extension [.txt] only (it
    rejects the directory entry [a]). *)
Definition only_txt (p : FilePath) : bool :=
  match final_component p with
  | Some n => match index 0 ".txt" n with Some _ => true | None => false end
  | None => false
  end.

(** A file whose second read fails. *)
Definition broken_file : File :=
  mkFile true [(5%Z, "alpha"); ((-1)%Z, ""); (5%Z, "omega")].

Definition broken_accessor : FileAccessor :=
  memory_accessor sample_dirs [ (["/"; "src"; "a.txt"], broken_file) ].

(** A file system holding the directory [/d] with a file and a
    directory; the enumerator of [/d] returns an empty path third. *)
Definition sample_fs : FileSystem :=
  mkFileSystem
    (fun _ => mkFile false [])
    (fun p => FilePath_eqb p ["/"; "d"] || FilePath_eqb p ["/"; "d"; "sub"])
    (fun dir => if FilePath_eqb dir ["/"; "d"]
                then [ ["/"; "d"; "f"]; ["/"; "d"; "sub"]; []; ["/"; "d"; "g"] ]
                else [])
    (fun _ => None).

(** Decidable form of [flags_agree] for a table. *)
Definition flags_ok (dirs : Listing) : bool :=
  forallb
    (fun d =>
       forallb
         (fun e => Bool.eqb
                     (existsb (fun d' => FilePath_eqb (fst d') (path e)) dirs)
                     (is_directory e))
         (snd d))
    dirs.

(** A descriptor table on which no archive can be created. *)
Definition open_no_fd (fd : Z) : bool := false.

(** A callback that rejects every path. *)
Definition reject_all (p : FilePath) : bool := false.

(** An archive whose second entry cannot be extracted. *)
Definition damaged_zip : list ArchiveEntry :=
  [ good_entry ["a.txt"];
    mkArchiveEntry ["b.txt"] true false true;
    good_entry ["c.txt"] ].

(** An archive on whose second entry the reader cannot advance. *)
Definition stuck_zip : list ArchiveEntry :=
  [ good_entry ["a.txt"];
    mkArchiveEntry ["b.txt"] true true false;
    good_entry ["c.txt"] ].

Definition damaged_disk (zip_path : FilePath) : option (list ArchiveEntry) :=
  if FilePath_eqb zip_path ["/"; "damaged.zip"] then Some damaged_zip
  else if FilePath_eqb zip_path ["/"; "stuck.zip"] then Some stuck_zip
  else disk zip_path.

(** The current directory as source directory.  Below ["."] the paths
    [FileEnumerator] returns do not start with ["."] ([FilePath::Append]
    on the current directory returns the component alone): the first
    accessor lists them so.  The second accessor lists the same file as
    [./a.txt], its listed directory followed by the name. *)
Definition dot_src : FilePath := [kCurrentDirectory].

Definition dot_dirs : Listing :=
  [ (["."], [ mkEntry ["a.txt"] false; mkEntry ["sub"] true ]);
    (["sub"], [ mkEntry ["sub"; "b.txt"] false ]) ].

Definition dot_files : list (FilePath * File) :=
  [ (["a.txt"], text_file "alpha"); (["sub"; "b.txt"], text_file "beta") ].

Definition dot_accessor : FileAccessor := memory_accessor dot_dirs dot_files.

Definition dot_params : ZipParams :=
  mkZipParams dot_src ["/"; "out.zip"] kInvalidPlatformFile dot_accessor []
    None true.

Definition dot_slash_dirs : Listing :=
  [ (["."], [ mkEntry ["."; "a.txt"] false ]) ].

Definition dot_slash_params : ZipParams :=
  mkZipParams dot_src ["/"; "out.zip"] kInvalidPlatformFile
    (memory_accessor dot_slash_dirs dot_files) [] None true.

(** A hidden source directory, packed without hidden files and with a
    callback that rejects the source directory itself. *)
Definition hidden_src : FilePath := ["/"; ".cfg"].

Definition hidden_dirs : Listing :=
  [ (hidden_src, [ mkEntry ["/"; ".cfg"; "a.txt"] false ]) ].

Definition not_the_source (p : FilePath) : bool :=
  negb (FilePath_eqb p hidden_src).

Definition hidden_params : ZipParams :=
  mkZipParams hidden_src ["/"; "out.zip"] kInvalidPlatformFile
    (memory_accessor hidden_dirs [ (["/"; ".cfg"; "a.txt"], text_file "alpha") ])
    [] (Some not_the_source) false.

(** Explicit lists from the sample tree, the second with a file that does
    not exist, and writers that refuse one call: the write of a given
    chunk, the close of the entry of a given name. *)
Definition explicit_params (files : list FilePath) : ZipParams :=
  mkZipParams sample_src [] 3%Z sample_accessor files None false.

Definition three_files : list FilePath :=
  [ ["a.txt"]; ["z.txt"]; ["foo"] ].

Definition missing_second : list FilePath :=
  [ ["a.txt"]; ["missing.txt"]; ["foo"] ].

Definition writer_refusing_chunk (chunk : string) (zip_file : zipFile)
           (op : ZipOp) : bool :=
  match op with
  | OpWriteInFileInZip buf _ => negb (String.eqb buf chunk)
  | _ => true
  end.

Definition writer_refusing_close_of (name : string) (zip_file : zipFile)
           (op : ZipOp) : bool :=
  match op with
  | OpCloseFileInZip =>
      negb (String.eqb (last (open_attempts zip_file) "") name)
  | _ => true
  end.

(* ===================================================================== *)
(** ** Facts about paths *)
(* ===================================================================== *)

Lemma FilePath_eqb_eq (p q : FilePath) : FilePath_eqb p q = true <-> p = q.
Proof.
  unfold FilePath_eqb.
  destruct (list_eq_dec string_dec p q); split; congruence.
Qed.

Lemma FilePath_eqb_refl (p : FilePath) : FilePath_eqb p p = true.
Proof. now apply FilePath_eqb_eq. Qed.

Lemma FilePath_eqb_neq (p q : FilePath) : FilePath_eqb p q = false <-> p <> q.
Proof.
  unfold FilePath_eqb.
  destruct (list_eq_dec string_dec p q); split; congruence.
Qed.

Lemma Append_plain (p q : FilePath) :
  p <> [kCurrentDirectory] -> Append p q = p ++ q.
Proof.
  intros Hp. unfold Append.
  destruct (FilePath_eqb p [kCurrentDirectory]) eqn:E; [|reflexivity].
  apply FilePath_eqb_eq in E. contradiction.
Qed.

Lemma fold_Append_from (s acc : FilePath) :
  acc <> [] -> acc <> [kCurrentDirectory] ->
  fold_left (fun a c => Append a [c]) s acc = acc ++ s.
Proof.
  revert acc. induction s as [|c s IH]; intros acc Hne Hcur; simpl.
  - now rewrite app_nil_r.
  - rewrite Append_plain by assumption.
    rewrite IH.
    + now rewrite <- app_assoc.
    + destruct acc; simpl; congruence.
    + destruct acc as [|a [|b acc']]; simpl; congruence.
Qed.

Lemma fold_Append_plain (s : FilePath) :
  hd "" s <> kCurrentDirectory ->
  fold_left (fun a c => Append a [c]) s [] = s.
Proof.
  destruct s as [|c s]; simpl; intros Hc; [reflexivity|].
  change (Append [] [c]) with [c].
  apply (fold_Append_from s [c]); congruence.
Qed.

(** Taking the path of a descendant relative to its ancestor gives back
    the components in between. *)
Lemma AppendRelativePath_below (root s : FilePath) :
  root <> [] -> s <> [] -> hd "" s <> kCurrentDirectory ->
  AppendRelativePath root (root ++ s) [] = (true, s).
Proof.
  intros Hroot Hs Hhd. unfold AppendRelativePath, GetComponents.
  destruct root as [|r0 root']; [congruence|].
  cbn [empty orb].
  assert (Hlen : (List.length ((r0 :: root') ++ s)
                  <=? List.length (r0 :: root')) = false).
  { apply Nat.leb_gt. rewrite length_app.
    destruct s; [congruence|]. simpl. lia. }
  rewrite Hlen.
  rewrite firstn_app, Nat.sub_diag, firstn_all. cbn [firstn].
  rewrite app_nil_r, FilePath_eqb_refl.
  rewrite skipn_app, skipn_all, Nat.sub_diag. cbn [skipn app].
  now rewrite fold_Append_plain.
Qed.

Lemma relative_to_below (root s : FilePath) :
  root <> [] -> s <> [] -> hd "" s <> kCurrentDirectory ->
  relative_to root (root ++ s) = s.
Proof.
  intros. unfold relative_to. now rewrite AppendRelativePath_below.
Qed.

(** Re-deriving the relative path of a listed file, as [AddEntryToZip]
    does, gives the listed path back. *)
Lemma relative_path_round_trip (root f : FilePath) :
  root <> [] -> root <> [kCurrentDirectory] -> plain_relative f ->
  AppendRelativePath root (Append root f) [] = (true, f).
Proof.
  intros Hroot Hcur [Hf Hhd].
  rewrite Append_plain by assumption.
  now apply AppendRelativePath_below.
Qed.

Lemma is_file_name_inv (n : string) :
  is_file_name n = true ->
  n <> "" /\ n <> kCurrentDirectory /\ n <> kParentDirectory.
Proof.
  unfold is_file_name. intros H.
  repeat (apply andb_prop in H; destruct H as [H ?]).
  repeat split; intros ->; discriminate.
Qed.

Lemma last_app_nonempty (p s : FilePath) :
  s <> [] -> last (p ++ s) "" = last s "".
Proof.
  intros Hs. destruct (exists_last Hs) as [s' [x ->]].
  now rewrite app_assoc, !last_last.
Qed.

Lemma BaseName_below (p s : FilePath) :
  s <> [] -> BaseName (p ++ s) = BaseName s.
Proof.
  intros Hs. unfold BaseName.
  destruct (p ++ s) eqn:E.
  - destruct p; destruct s; simpl in E; congruence.
  - rewrite <- E. destruct s; [congruence|].
    now rewrite last_app_nonempty.
Qed.

Lemma value_singleton (c : string) : value [c] = c.
Proof.
  unfold value. destruct (String.eqb c kSeparator) eqn:E.
  - apply String.eqb_eq in E. now subst c.
  - reflexivity.
Qed.

Lemma value_root : value [kSeparator] = kSeparator.
Proof. reflexivity. Qed.

(** A relative path that starts with a file name is printed neither as
    the empty string nor as ["."]. *)
Lemma value_of_named (n : string) (rest : FilePath) :
  n <> "" -> n <> kCurrentDirectory ->
  value (n :: rest) <> "" /\ value (n :: rest) <> ".".
Proof.
  intros Hn Hdot. unfold value.
  destruct (String.eqb n kSeparator) eqn:E.
  - split; discriminate.
  - destruct rest as [|r rest'].
    + simpl. split; assumption.
    + cbn [String.concat].
      destruct n as [|c n']; [congruence|].
      split; [discriminate|].
      simpl. intros H. injection H as Hc Hrest.
      destruct n'; simpl in Hrest; [|discriminate].
      subst c. now apply Hdot.
Qed.

(* ===================================================================== *)
(** ** The traversal loop *)
(* ===================================================================== *)

(** One unfolding of the loop is one [visit]. *)
Lemma traverse_step (fuel : nat) (params : ZipParams) (iter : nat)
      (t : Traversal) :
  traverse (S fuel) params iter t =
  match nth_error (entries t) iter with
  | None => Some t
  | Some e => traverse fuel params (S iter) (visit params (iter =? 0) e t)
  end.
Proof.
  cbn [traverse].
  destruct (nth_error (entries t) iter) as [e|]; [|reflexivity].
  unfold visit, expansion, accepted, rejected, runs_on, hidden_rule_rejects,
    callback_accepts, relative_to.
  cbn [filter map path].
  destruct (iter =? 0); cbn [negb];
    destruct (include_hidden_files params); cbn [negb andb orb];
    destruct (IsHiddenFile (path e)); cbn [negb andb orb];
    destruct (filter_callback params) as [cb|]; cbn [negb andb orb filter map];
    try destruct (cb (path e)); cbn [negb andb orb filter map];
    destruct (is_directory e); cbn [negb andb orb filter map];
    rewrite ?app_nil_r; reflexivity.
Qed.

(** A property kept by every [visit] holds when the loop ends, at the
    position where the iterator met the end of the list. *)
Lemma traverse_invariant (params : ZipParams)
      (I : nat -> Traversal -> Prop) :
  (forall iter t e,
      I iter t -> nth_error (entries t) iter = Some e ->
      I (S iter) (visit params (iter =? 0) e t)) ->
  forall fuel iter t t',
    I iter t -> traverse fuel params iter t = Some t' ->
    exists n, I n t' /\ nth_error (entries t') n = None.
Proof.
  intros Hstep. induction fuel as [|fuel IH]; intros iter t t' Hi Hrun.
  - discriminate.
  - rewrite traverse_step in Hrun.
    destruct (nth_error (entries t) iter) as [e|] eqn:E.
    + eapply IH; [|exact Hrun]. now apply Hstep.
    + injection Hrun as <-. now exists iter.
Qed.

(** More fuel does not change a result. *)
Lemma traverse_fuel_mono (params : ZipParams) (fuel fuel' iter : nat)
      (t t' : Traversal) :
  traverse fuel params iter t = Some t' -> fuel <= fuel' ->
  traverse fuel' params iter t = Some t'.
Proof.
  revert fuel' iter t. induction fuel as [|fuel IH]; intros fuel' iter t Hrun Hle.
  - discriminate.
  - destruct fuel' as [|fuel']; [lia|].
    rewrite traverse_step in *.
    destruct (nth_error (entries t) iter); [|assumption].
    apply IH; [assumption|lia].
Qed.

Lemma weight_of_app (weight : FilePath -> nat)
      (a b : list DirectoryContentEntry) :
  weight_of weight (a ++ b) = weight_of weight a + weight_of weight b.
Proof. unfold weight_of. now rewrite map_app, list_sum_app. Qed.

Lemma skipn_S_nth_error {A : Type} (l : list A) (n : nat) (a : A) :
  nth_error l n = Some a -> skipn n l = a :: skipn (S n) l.
Proof.
  revert l. induction n as [|n IH]; intros [|x l] H; simpl in *;
    try discriminate.
  - now injection H as ->.
  - now apply IH.
Qed.

Lemma firstn_S_nth_error {A : Type} (l : list A) (n : nat) (a : A) :
  nth_error l n = Some a -> firstn (S n) l = firstn n l ++ [a].
Proof.
  revert l. induction n as [|n IH]; intros [|x l] H; simpl in *;
    try discriminate.
  - now injection H as ->.
  - f_equal. now apply IH.
Qed.

Lemma nth_error_lt {A : Type} (l : list A) (n : nat) (a : A) :
  nth_error l n = Some a -> n < List.length l.
Proof. intros H. apply nth_error_Some. congruence. Qed.

Lemma entries_visit (params : ZipParams) (b : bool)
      (e : DirectoryContentEntry) (t : Traversal) :
  exists added,
    entries (visit params b e t) = entries t ++ added
    /\ (added = []
        \/ added = ListDirectoryContent (file_accessor params) (path e)).
Proof.
  unfold visit, expansion. destruct b; cbn [entries].
  - destruct (is_directory e); eexists; split; try reflexivity; auto.
  - destruct (accepted params e && is_directory e);
      eexists; split; try reflexivity; auto.
Qed.

Lemma traverse_terminates (params : ZipParams) (weight : FilePath -> nat) :
  (forall dir,
      weight_of weight (ListDirectoryContent (file_accessor params) dir)
      < weight dir) ->
  forall fuel iter t,
    weight_of weight (skipn iter (entries t)) < fuel ->
    exists t', traverse fuel params iter t = Some t'.
Proof.
  intros Hw. induction fuel as [|fuel IH]; intros iter t Hlt; [lia|].
  rewrite traverse_step.
  destruct (nth_error (entries t) iter) as [e|] eqn:E; [|now exists t].
  apply IH.
  destruct (entries_visit params (iter =? 0) e t) as [added [-> Hin]].
  rewrite (skipn_S_nth_error _ _ _ E) in Hlt.
  change (e :: skipn (S iter) (entries t))
    with ([e] ++ skipn (S iter) (entries t)) in Hlt.
  rewrite weight_of_app in Hlt.
  rewrite skipn_app, weight_of_app.
  assert (Hz : S iter - List.length (entries t) = 0).
  { apply nth_error_lt in E. lia. }
  rewrite Hz. cbn [skipn].
  assert (Hadd : weight_of weight added < weight (path e)).
  { destruct Hin as [-> | ->]; [|apply Hw].
    specialize (Hw (path e)). unfold weight_of at 1. simpl. lia. }
  unfold weight_of at 1 in Hlt. simpl in Hlt. lia.
Qed.

Lemma runs_on_app (params : ZipParams) (a b : list DirectoryContentEntry) :
  runs_on params (a ++ b) = runs_on params a ++ runs_on params b.
Proof.
  unfold runs_on. destruct (filter_callback params); [|reflexivity].
  now rewrite filter_app, map_app.
Qed.

Lemma runs_on_incl (params : ZipParams) (es : list DirectoryContentEntry)
      (p : FilePath) :
  In p (runs_on params es) -> In p (map path es).
Proof.
  unfold runs_on. destruct (filter_callback params); [|easy].
  rewrite !in_map_iff. intros [e [<- He]].
  apply filter_In in He. exists e. tauto.
Qed.

Lemma characterised_visit (params : ZipParams) (iter : nat) (t : Traversal)
      (e : DirectoryContentEntry) :
  characterised params iter t ->
  nth_error (entries t) iter = Some e ->
  characterised params (S iter) (visit params (iter =? 0) e t).
Proof.
  destruct iter as [|k]; cbn [characterised Nat.eqb].
  - intros -> E. cbn in E. injection E as <-.
    unfold visit, traversal_after, seeded, seed.
    cbn. split; [lia|]. rewrite app_nil_r.
    repeat split. unfold runs_on. now destruct (filter_callback params).
  - intros [Hk [He [Hf [Hr Hl]]]] E.
    set (done := firstn k (tl (entries t))) in *.
    assert (Htl : tl (entries t)
                  = ListDirectoryContent (file_accessor params) (src_dir params)
                      ++ flat_map (expansion params) done)
      by (rewrite He at 1; reflexivity).
    assert (Ek : nth_error (tl (entries t)) k = Some e)
      by (rewrite He in E; rewrite Htl at 1; exact E).
    assert (Hlt : k < List.length (tl (entries t)))
      by (eapply nth_error_lt; eassumption).
    assert (Htl' : tl (entries (visit params false e t))
                   = tl (entries t) ++ expansion params e).
    { unfold visit. cbn [entries]. rewrite He. reflexivity. }
    assert (Hdone : firstn (S k) (tl (entries (visit params false e t)))
                    = done ++ [e]).
    { rewrite Htl', firstn_app.
      replace (S k - List.length (tl (entries t))) with 0 by lia.
      cbn [firstn]. rewrite app_nil_r.
      now apply firstn_S_nth_error. }
    split.
    + rewrite Htl', length_app. lia.
    + rewrite Hdone. unfold traversal_after, visit. cbn [entries all_files
        callback_runs listed].
      rewrite flat_map_app, !filter_app, !map_app, runs_on_app.
      cbn [flat_map filter map]. rewrite app_nil_r.
      repeat split.
      * rewrite He. cbn [app]. f_equal. now rewrite app_assoc.
      * rewrite Hf. f_equal. now destruct (accepted params e).
      * now rewrite Hr.
      * rewrite Hl. cbn [app]. f_equal. f_equal.
        now destruct (accepted params e && is_directory e).
Qed.

(** The state in which the loop ends, in terms of the final queue. *)
Lemma traverse_characterised (params : ZipParams) (fuel : nat)
      (t : Traversal) :
  traverse fuel params 0 (seeded params) = Some t ->
  traversal_after params (tl (entries t)) t.
Proof.
  intros Hrun.
  destruct (traverse_invariant params (characterised params)
              (characterised_visit params) fuel 0 (seeded params) t)
    as [n [Hn Hend]]; [reflexivity|assumption|].
  destruct n as [|k]; cbn [characterised] in Hn.
  - subst t. discriminate.
  - destruct Hn as [Hk Ha].
    assert (He := proj1 Ha).
    rewrite He in Hend. cbn [nth_error] in Hend.
    apply nth_error_None in Hend.
    assert (Hk' : List.length (tl (entries t)) <= k).
    { rewrite He. exact Hend. }
    now rewrite firstn_all2 in Ha by assumption.
Qed.

Lemma well_placed_child (params : ZipParams) (s : FilePath) (n : string)
      (c : DirectoryContentEntry) :
  Forall (fun n => is_file_name n = true) s ->
  is_file_name n = true ->
  path c = (src_dir params ++ s) ++ [n] ->
  (s <> [] -> rejected params (src_dir params ++ s) = false) ->
  (forall s1 s2, s = s1 ++ s2 -> s1 <> [] -> s2 <> [] ->
                 rejected params (src_dir params ++ s1) = false) ->
  well_placed params c.
Proof.
  intros Hs Hn Hc Hacc Hanc. exists (s ++ [n]). repeat split.
  - destruct s; discriminate.
  - apply Forall_app. split; [assumption|]. now constructor.
  - now rewrite Hc, app_assoc.
  - intros s1 s2 Hsplit H1 H2.
    destruct (exists_last H2) as [s2' [x ->]].
    rewrite app_assoc in Hsplit. apply app_inj_tail in Hsplit.
    destruct Hsplit as [-> _].
    destruct s2' as [|y s2'].
    + rewrite app_nil_r in *. apply Hacc. assumption.
    + eapply Hanc; [reflexivity|assumption|discriminate].
Qed.

Lemma well_placed_visit (params : ZipParams) :
  lists_immediate_children (file_accessor params) ->
  forall iter t e,
    (exists rest, entries t = seed params :: rest
                  /\ Forall (well_placed params) rest) ->
    nth_error (entries t) iter = Some e ->
    exists rest, entries (visit params (iter =? 0) e t) = seed params :: rest
                 /\ Forall (well_placed params) rest.
Proof.
  intros Hwf iter t e [rest [He Hall]] E.
  rewrite He in E.
  unfold visit, expansion. destruct iter as [|k]; cbn [Nat.eqb entries].
  - cbn in E. injection E as <-. rewrite He. cbn [seed is_directory path].
    eexists. split; [reflexivity|].
    apply Forall_app. split; [assumption|].
    apply Forall_forall. intros c Hc.
    destruct (Hwf _ _ Hc) as [n [Hn Hp]].
    apply (well_placed_child params [] n c); try easy.
    + now rewrite app_nil_r.
    + intros s1 s2 Hsplit H1 _. destruct s1; [easy|discriminate].
  - cbn in E. apply nth_error_In in E.
    rewrite Forall_forall in Hall. pose proof (Hall _ E) as Hq.
    rewrite He. eexists. split; [reflexivity|].
    apply Forall_app. split; [now apply Forall_forall|].
    destruct (accepted params e) eqn:Hacc; cbn [andb];
      [|constructor].
    destruct (is_directory e); [|constructor].
    apply Forall_forall. intros c Hc.
    destruct (Hwf _ _ Hc) as [n [Hn Hp]].
    destruct Hq as [s [Hs [Hnames [Hpath Hanc]]]].
    apply (well_placed_child params s n c); try assumption.
    + now rewrite <- Hpath.
    + intros _. rewrite <- Hpath. unfold accepted in Hacc.
      now apply negb_true_iff in Hacc.
Qed.

(** Under the accessor's contract every queued entry but the root is well
    placed. *)
Lemma traverse_well_placed (params : ZipParams) (fuel : nat) (t : Traversal) :
  lists_immediate_children (file_accessor params) ->
  traverse fuel params 0 (seeded params) = Some t ->
  Forall (well_placed params) (tl (entries t)).
Proof.
  intros Hwf Hrun.
  destruct (traverse_invariant params
              (fun _ t => exists rest, entries t = seed params :: rest
                                       /\ Forall (well_placed params) rest)
              (well_placed_visit params Hwf) fuel 0 (seeded params) t)
    as [n [[rest [He Hall]] _]]; [|assumption|].
  - exists []. split; [reflexivity|constructor].
  - now rewrite He.
Qed.

Lemma well_placed_relative (params : ZipParams) (e : DirectoryContentEntry) :
  src_dir params <> [] -> well_placed params e ->
  exists s, s <> []
            /\ Forall (fun n => is_file_name n = true) s
            /\ path e = src_dir params ++ s
            /\ relative_to (src_dir params) (path e) = s.
Proof.
  intros Hsrc [s [Hs [Hnames [Hpath _]]]].
  exists s. repeat split; try assumption.
  rewrite Hpath. apply relative_to_below; try assumption.
  destruct s as [|n s]; [congruence|].
  apply Forall_inv in Hnames. now apply is_file_name_inv in Hnames.
Qed.

(* ===================================================================== *)
(** ** Breadth-first order of the queue *)
(* ===================================================================== *)

Section SortedLists.

Context {A : Type} (R : A -> A -> Prop).

Lemma StronglySorted_append (a b : list A) :
  StronglySorted R a -> StronglySorted R b ->
  (forall x y, In x a -> In y b -> R x y) ->
  StronglySorted R (a ++ b).
Proof.
  intros Ha Hb Hab. induction Ha as [|x a Ha IH Hx]; [exact Hb|].
  cbn [app]. constructor.
  - apply IH. intros u v Hu Hv. apply Hab; [now right|assumption].
  - apply Forall_app. split; [assumption|].
    apply Forall_forall. intros y Hy. apply Hab; [now left|assumption].
Qed.

Lemma StronglySorted_nth (l : list A) (i j : nat) (a b : A) :
  StronglySorted R l -> i < j ->
  nth_error l i = Some a -> nth_error l j = Some b -> R a b.
Proof.
  intros Hs. revert i j. induction Hs as [|x l Hs IH Hx]; intros i j Hij Ha Hb.
  - destruct i; discriminate.
  - destruct j as [|j]; [lia|]. cbn in Hb.
    destruct i as [|i].
    + cbn in Ha. injection Ha as <-.
      rewrite Forall_forall in Hx. apply Hx.
      eapply nth_error_In; eassumption.
    + cbn in Ha. apply (IH i j); [lia|assumption|assumption].
Qed.

Lemma StronglySorted_filter (f : A -> bool) (l : list A) :
  StronglySorted R l -> StronglySorted R (filter f l).
Proof.
  induction 1 as [|x l Hs IH Hx]; cbn [filter]; [constructor|].
  destruct (f x); [|assumption].
  constructor; [assumption|].
  rewrite Forall_forall in *. intros y Hy.
  apply filter_In in Hy. now apply Hx.
Qed.

Lemma StronglySorted_all (l : list A) :
  (forall x y, In x l -> In y l -> R x y) -> StronglySorted R l.
Proof.
  induction l as [|x l IH]; intros H; constructor.
  - apply IH. intros u v Hu Hv. apply H; now right.
  - apply Forall_forall. intros y Hy. apply H; [now left|now right].
Qed.

End SortedLists.

Lemma StronglySorted_map_on {A B : Type} (R : A -> A -> Prop)
      (R' : B -> B -> Prop) (f : A -> B) (l : list A) :
  (forall x y, In x l -> In y l -> R x y -> R' (f x) (f y)) ->
  StronglySorted R l -> StronglySorted R' (map f l).
Proof.
  intros Hf Hs. induction Hs as [|x l Hs IH Hx]; cbn [map]; constructor.
  - apply IH. intros u v Hu Hv. apply Hf; now right.
  - rewrite Forall_forall in *. intros y Hy.
    apply in_map_iff in Hy. destruct Hy as [z [<- Hz]].
    apply Hf; [now left|now right|now apply Hx].
Qed.

Lemma level_bounded_visit (params : ZipParams) :
  lists_immediate_children (file_accessor params) ->
  forall iter t e,
    level_bounded iter t ->
    nth_error (entries t) iter = Some e ->
    level_bounded (S iter) (visit params (iter =? 0) e t).
Proof.
  intros Hwf iter t e [Hsorted Hbound] E.
  destruct (entries_visit params (iter =? 0) e t) as [added [Hent Hadd]].
  assert (Hdepth : forall c, In c added -> depth c = S (depth e)).
  { intros c Hc. destruct Hadd as [-> | ->]; [easy|].
    destruct (Hwf _ _ Hc) as [n [_ Hp]].
    unfold depth. rewrite Hp, length_app. cbn. lia. }
  assert (Hsorted' : StronglySorted depth_le (entries t ++ added)).
  { apply StronglySorted_append; [assumption| |].
    - apply StronglySorted_all. intros x y Hx Hy. unfold depth_le.
      rewrite (Hdepth _ Hx), (Hdepth _ Hy). lia.
    - intros x y Hx Hy. unfold depth_le. rewrite (Hdepth _ Hy).
      now apply (Hbound e x). }
  unfold level_bounded. rewrite Hent. split; [assumption|].
  intros e' x E' Hx.
  assert (Hee' : depth e <= depth e').
  { apply (StronglySorted_nth depth_le (entries t ++ added) iter (S iter));
      try assumption; [lia|].
    rewrite nth_error_app1; [assumption|].
    eapply nth_error_lt; eassumption. }
  apply in_app_or in Hx. destruct Hx as [Hx | Hx].
  - specialize (Hbound e x E Hx). lia.
  - rewrite (Hdepth _ Hx). lia.
Qed.

(** Under the accessor's contract the final queue is ordered by depth. *)
Lemma traverse_level_order (params : ZipParams) (fuel : nat) (t : Traversal) :
  lists_immediate_children (file_accessor params) ->
  traverse fuel params 0 (seeded params) = Some t ->
  StronglySorted depth_le (entries t).
Proof.
  intros Hwf Hrun.
  destruct (traverse_invariant params level_bounded
              (level_bounded_visit params Hwf) fuel 0 (seeded params) t)
    as [n [[Hs _] _]]; [|assumption|assumption].
  split.
  - cbn. constructor; constructor.
  - intros e x E Hx. cbn in E. injection E as <-.
    destruct Hx as [<- | []]. lia.
Qed.

(* ===================================================================== *)
(** ** The entry-writing loop *)
(* ===================================================================== *)

Lemma open_attempts_app (a b : zipFile) :
  open_attempts (a ++ b) = open_attempts a ++ open_attempts b.
Proof.
  induction a as [|[op ok] a IH]; [reflexivity|].
  cbn [app open_attempts]. destruct op; rewrite IH; reflexivity.
Qed.

Lemma entry_names_app (a b : zipFile) :
  entry_names (a ++ b) = entry_names a ++ entry_names b.
Proof.
  induction a as [|[op ok] a IH]; [reflexivity|].
  cbn [app entry_names]. destruct op; try destruct ok; rewrite IH; reflexivity.
Qed.

Section WriterFacts.

Variable minizip_ok : zipFile -> ZipOp -> bool.

(** Streaming a file into the open entry: only write calls are made,
    and the result tells whether all of them succeeded. *)
Lemma write_chunks_outcome (pending : list (Z * string)) (h : zipFile) :
  exists w,
    write_chunks minizip_ok h pending = (forallb snd w, h ++ w)
    /\ open_attempts w = [] /\ entry_names w = []
    /\ ((forall h op, minizip_ok h op = true) -> forallb snd w = true).
Proof.
  revert h. induction pending as [|[n buf] pending IH]; intros h.
  - exists []. now rewrite app_nil_r.
  - cbn [write_chunks]. destruct (0 <? n)%Z.
    + unfold zipWriteInFileInZip, zip_call.
      destruct (minizip_ok h (OpWriteInFileInZip buf n)) eqn:Hok.
      * destruct (IH (h ++ [(OpWriteInFileInZip buf n, true)]))
          as [w [Hw [Ho [He Hall]]]].
        exists ((OpWriteInFileInZip buf n, true) :: w).
        rewrite Hw, <- app_assoc. cbn. auto.
      * exists [(OpWriteInFileInZip buf n, false)]. cbn.
        repeat split. intros Hall. now rewrite Hall in Hok.
    + exists []. now rewrite app_nil_r.
Qed.

(** Adding one entry: exactly one attempt to open an entry is made,
    under the name computed from the paths; the entry counts as written
    when that attempt succeeded; and the result is [true] exactly when
    every call on the archive succeeded and the source could be read. *)
Lemma AddEntryToZip_outcome (h : zipFile) (abs_path root_path : FilePath)
      (accessor : FileAccessor) :
  exists w,
    AddEntryToZip minizip_ok h abs_path root_path accessor
    = (forallb snd w && source_readable accessor abs_path, h ++ w)
    /\ open_attempts w = [entry_name accessor root_path abs_path]
    /\ (forallb snd w = true ->
        entry_names w = [entry_name accessor root_path abs_path])
    /\ ((forall h op, minizip_ok h op = true) -> forallb snd w = true).
Proof.
  unfold AddEntryToZip, entry_name, source_readable, AddFileToZip,
    ZipOpenNewFileInZip, zipCloseFileInZip, zip_call.
  destruct (AppendRelativePath root_path abs_path []) as [result rel].
  cbn [snd].
  set (name := if DirectoryExists accessor abs_path
               then (AsUTF8Unsafe rel ++ "/")%string
               else AsUTF8Unsafe rel).
  set (op := OpOpenNewFileInZip name (GetLastModifiedTime accessor abs_path)).
  destruct (minizip_ok h op) eqn:Hopen.
  - destruct (DirectoryExists accessor abs_path) eqn:Hdir; cbn [negb orb].
    + exists [(op, true);
              (OpCloseFileInZip,
               minizip_ok (h ++ [(op, true)]) OpCloseFileInZip)].
      destruct (minizip_ok (h ++ [(op, true)]) OpCloseFileInZip) eqn:Hc;
        rewrite <- app_assoc; cbn; repeat split; auto.
      intros Hall. now rewrite Hall in Hc.
    + destruct (IsValid (OpenFileForReading accessor abs_path)) eqn:Hv;
        cbn [negb].
      * destruct (write_chunks_outcome
                    (reads (OpenFileForReading accessor abs_path))
                    (h ++ [(op, true)])) as [w [Hw [Ho [He Hall]]]].
        rewrite Hw.
        exists ((op, true) :: w
                ++ [(OpCloseFileInZip,
                     minizip_ok ((h ++ [(op, true)]) ++ w) OpCloseFileInZip)]).
        destruct (minizip_ok ((h ++ [(op, true)]) ++ w) OpCloseFileInZip)
          eqn:Hc.
        -- repeat split.
           ++ rewrite <- !app_assoc. cbn [app forallb snd andb].
              rewrite forallb_app. cbn. now rewrite !andb_true_r.
           ++ cbn [open_attempts]. unfold op at 1.
              rewrite open_attempts_app, Ho. reflexivity.
           ++ intros _. cbn [entry_names]. unfold op at 1.
              rewrite entry_names_app, He. reflexivity.
           ++ intros Hok. cbn [forallb snd andb].
              rewrite forallb_app, (Hall Hok). reflexivity.
        -- repeat split.
           ++ rewrite <- !app_assoc. cbn [app forallb snd andb].
              rewrite forallb_app. cbn. now rewrite !andb_false_r.
           ++ cbn [open_attempts]. unfold op at 1.
              rewrite open_attempts_app, Ho. reflexivity.
           ++ intros _. cbn [entry_names]. unfold op at 1.
              rewrite entry_names_app, He. reflexivity.
           ++ intros Hok. now rewrite Hok in Hc.
      * exists [(op, true);
                (OpCloseFileInZip,
                 minizip_ok (h ++ [(op, true)]) OpCloseFileInZip)].
        destruct (minizip_ok (h ++ [(op, true)]) OpCloseFileInZip) eqn:Hc;
          rewrite <- app_assoc; cbn; repeat split; auto.
        intros Hall. now rewrite Hall in Hc.
  - exists [(op, false)]. cbn. repeat split; try discriminate.
    intros Hall. now rewrite Hall in Hopen.
Qed.

(** The loop of lines 218-226 attempts the listed files in order and
    stops at the first failure; when it reports success every listed
    file was written, every call succeeded and every source was
    readable. *)
Lemma add_entries_outcome (params : ZipParams) (files : list FilePath)
      (h h' : zipFile) (b : bool) :
  add_entries minizip_ok h params files = (b, h') ->
  exists k w,
    h' = h ++ w
    /\ k <= List.length files
    /\ open_attempts w = map (str_path_of params) (firstn k files)
    /\ (b = true ->
        entry_names w = map (str_path_of params) files
        /\ open_attempts w = map (str_path_of params) files
        /\ forallb snd w = true
        /\ forallb (fun f => source_readable (file_accessor params)
                               (Append (src_dir params) f)) files = true).
Proof.
  revert h. induction files as [|f rest IH]; intros h Hrun.
  - cbn in Hrun. injection Hrun as <- <-.
    exists 0, []. rewrite app_nil_r. cbn. repeat split; auto.
  - cbn [add_entries] in Hrun.
    destruct (AddEntryToZip_outcome h (Append (src_dir params) f)
                (src_dir params) (file_accessor params))
      as [w1 [Hw1 [Ho1 [He1 _]]]].
    rewrite Hw1 in Hrun.
    destruct (forallb snd w1
              && source_readable (file_accessor params)
                   (Append (src_dir params) f)) eqn:Hok.
    + apply andb_prop in Hok. destruct Hok as [Hall Hread].
      destruct (IH _ Hrun) as [k [w [-> [Hk [Ho Hb]]]]].
      exists (S k), (w1 ++ w). split; [now rewrite app_assoc|].
      split; [cbn; lia|]. split.
      * rewrite open_attempts_app, Ho1, Ho. reflexivity.
      * intros Htrue. destruct (Hb Htrue) as [Hn [Ha [Hs Hr]]].
        repeat split.
        -- rewrite entry_names_app, (He1 Hall), Hn. reflexivity.
        -- rewrite open_attempts_app, Ho1, Ha. reflexivity.
        -- now rewrite forallb_app, Hall, Hs.
        -- cbn [forallb]. now rewrite Hread, Hr.
    + injection Hrun as <- <-.
      exists 1, w1. split; [reflexivity|]. split; [cbn; lia|].
      split; [exact Ho1|discriminate].
Qed.

Lemma add_entries_stops (params : ZipParams) (pre post : list FilePath)
      (f : FilePath) (h h1 h2 : zipFile) :
  add_entries minizip_ok h params pre = (true, h1) ->
  AddEntryToZip minizip_ok h1 (Append (src_dir params) f) (src_dir params)
    (file_accessor params) = (false, h2) ->
  add_entries minizip_ok h params (pre ++ f :: post) = (false, h2).
Proof.
  revert h. induction pre as [|g pre IH]; intros h Hpre Hf.
  - cbn in Hpre. injection Hpre as ->. cbn. now rewrite Hf.
  - cbn [app add_entries] in *.
    destruct (AddEntryToZip minizip_ok h (Append (src_dir params) g)
                (src_dir params) (file_accessor params)) as [[|] hg].
    + now apply IH.
    + discriminate.
Qed.

(** With a writer that never fails and sources that can all be read,
    every entry is added. *)
Lemma add_entries_succeeds (params : ZipParams) (files : list FilePath)
      (h : zipFile) :
  (forall h op, minizip_ok h op = true) ->
  forallb (fun f => source_readable (file_accessor params)
                      (Append (src_dir params) f)) files = true ->
  fst (add_entries minizip_ok h params files) = true.
Proof.
  intros Hok. revert h. induction files as [|f rest IH]; intros h Hread;
    [reflexivity|].
  cbn [forallb] in Hread. apply andb_prop in Hread.
  destruct Hread as [Hf Hrest].
  cbn [add_entries].
  destruct (AddEntryToZip_outcome h (Append (src_dir params) f)
              (src_dir params) (file_accessor params))
    as [w1 [Hw1 [_ [_ Hall]]]].
  rewrite Hw1, (Hall Hok), Hf. cbn [andb]. now apply IH.
Qed.

End WriterFacts.

(** Under the conditions of the round trip, the name computed for a
    listed path is the listed path itself, with a trailing separator for a
    directory. *)
Lemma str_path_of_listed (params : ZipParams) (f : FilePath) :
  src_dir params <> [] -> src_dir params <> [kCurrentDirectory] ->
  plain_relative f ->
  str_path_of params f = listed_entry_name params f.
Proof.
  intros Hsrc Hcur Hf.
  unfold str_path_of, entry_name, listed_entry_name.
  rewrite relative_path_round_trip by assumption.
  now rewrite Append_plain by assumption.
Qed.

Lemma In_firstn {A : Type} (n : nat) (l : list A) (x : A) :
  In x (firstn n l) -> In x l.
Proof.
  intros H. rewrite <- (firstn_skipn n l). apply in_or_app. now left.
Qed.

Lemma listed_names (params : ZipParams) (files : list FilePath) :
  src_dir params <> [] -> src_dir params <> [kCurrentDirectory] ->
  Forall plain_relative files ->
  map (str_path_of params) files = map (listed_entry_name params) files.
Proof.
  intros Hsrc Hcur Hall. apply map_ext_in. intros f Hf.
  rewrite Forall_forall in Hall. now apply str_path_of_listed; auto.
Qed.

(* ===================================================================== *)
(** ** From [Zip] to its traversal *)
(* ===================================================================== *)

Section PackerFacts.

Variable minizip_ok : zipFile -> ZipOp -> bool.
Variable fd_opens : Z -> bool.
Variable path_opens : string -> bool.

(** In full-tree mode, a run that opened the archive went through the
    traversal, and adds the files the traversal collected. *)
Lemma Zip_full_tree (fuel : nat) (params : ZipParams) (run : ZipRun) :
  Zip minizip_ok fd_opens path_opens fuel params = Some run ->
  files_to_zip params = [] ->
  archive run <> None ->
  traverse fuel params 0 (seeded params) = Some (traversal run)
  /\ files_to_add run = all_files (traversal run).
Proof.
  unfold Zip, collect_files. intros Hrun Hfiles Hopen.
  destruct (open_archive fd_opens path_opens params) as [zf|].
  - rewrite Hfiles in Hrun. fold (seeded params) in Hrun.
    change (mkTraversal [mkEntry (src_dir params) true] [] [] [])
      with (seeded params) in Hrun.
    destruct (traverse fuel params 0 (seeded params)) as [t|];
      [|discriminate].
    destruct (add_entries minizip_ok zf params (all_files t)) as [ok zf1].
    destruct (zipClose minizip_ok zf1) as [[|] zf2];
      injection Hrun as <-; cbn; auto.
  - injection Hrun as <-. cbn in Hopen. congruence.
Qed.

Lemma open_archive_fresh (params : ZipParams) (h : zipFile) :
  open_archive fd_opens path_opens params = Some h -> h = [].
Proof.
  unfold open_archive, OpenFdForZipping, OpenForZipping.
  destruct (negb (dest_fd params =? kInvalidPlatformFile)%Z);
    [destruct (fd_opens _)|destruct (path_opens _)]; congruence.
Qed.

(** A run that opened the archive made its calls in this order: the
    calls of the entry-writing loop on the files to add, then the call
    that closes the archive; it returns [true] when both succeeded. *)
Lemma Zip_outcome (fuel : nat) (params : ZipParams) (run : ZipRun)
      (zf : zipFile) :
  Zip minizip_ok fd_opens path_opens fuel params = Some run ->
  archive run = Some zf ->
  exists b w,
    collect_files fuel params = Some (files_to_add run, traversal run)
    /\ add_entries minizip_ok [] params (files_to_add run) = (b, w)
    /\ zf = w ++ [(OpClose, minizip_ok w OpClose)]
    /\ zip_result run = b && minizip_ok w OpClose.
Proof.
  unfold Zip. intros Hrun Hzf.
  destruct (open_archive fd_opens path_opens params) as [h|] eqn:Hopen.
  - apply open_archive_fresh in Hopen. subst h.
    destruct (collect_files fuel params) as [[files t]|]; [|discriminate].
    destruct (add_entries minizip_ok [] params files) as [b w] eqn:Hadd.
    unfold zipClose, zip_call in Hrun.
    exists b, w.
    destruct (minizip_ok w OpClose); injection Hrun as <-;
      cbn in Hzf; injection Hzf as <-; cbn;
      rewrite ?andb_true_r, ?andb_false_r; auto.
  - injection Hrun as <-. discriminate.
Qed.

(** The names under which a run tried to open entries are those of the
    first files to add, in order, and of all of them when it returned
    [true]. *)
Lemma Zip_attempts (fuel : nat) (params : ZipParams) (run : ZipRun)
      (zf : zipFile) :
  Zip minizip_ok fd_opens path_opens fuel params = Some run ->
  archive run = Some zf ->
  (exists k, open_attempts zf
             = map (str_path_of params) (firstn k (files_to_add run)))
  /\ (zip_result run = true ->
      entry_names zf = map (str_path_of params) (files_to_add run)).
Proof.
  intros Hrun Hzf.
  destruct (Zip_outcome fuel params run zf Hrun Hzf)
    as [b [w [_ [Hadd [-> Hres]]]]].
  destruct (add_entries_outcome minizip_ok params _ _ _ _ Hadd)
    as [k [w' [Hw [_ [Hatt Hb]]]]].
  cbn [app] in Hw. subst w'.
  rewrite open_attempts_app, entry_names_app. cbn. rewrite !app_nil_r.
  split; [now exists k|].
  intros Htrue. rewrite Htrue in Hres. symmetry in Hres.
  apply andb_prop in Hres. now destruct (Hb (proj1 Hres)).
Qed.

(** [Zip] returns on every file tree of finite size: when [weight] bounds,
    for each directory, the total weight of what the accessor lists in
    it, any fuel above the weight of the source directory suffices. *)
Lemma Zip_returns (fuel : nat) (params : ZipParams)
      (weight : FilePath -> nat) :
  (forall dir,
      weight_of weight (ListDirectoryContent (file_accessor params) dir)
      < weight dir) ->
  weight (src_dir params) < fuel ->
  exists run, Zip minizip_ok fd_opens path_opens fuel params = Some run.
Proof.
  intros Hw Hfuel. unfold Zip, collect_files.
  destruct (open_archive fd_opens path_opens params) as [h|]; [|eauto].
  destruct (files_to_zip params).
  - destruct (traverse_terminates params weight Hw fuel 0
                (mkTraversal [mkEntry (src_dir params) true] [] [] []))
      as [t Ht].
    { cbn. lia. }
    rewrite Ht.
    destruct (add_entries minizip_ok h params (all_files t)) as [b w].
    destruct (zipClose minizip_ok w) as [[|] w']; eauto.
  - destruct (add_entries minizip_ok h params (f :: l)) as [b w].
    destruct (zipClose minizip_ok w) as [[|] w']; eauto.
Qed.

End PackerFacts.

(* ===================================================================== *)
(** ** Properties of full-tree packing *)
(* ===================================================================== *)

Lemma IsHiddenFile_spec (p : FilePath) :
  IsHiddenFile p = true <->
  exists n, final_component p = Some n /\ starts_with_dot n.
Proof.
  unfold IsHiddenFile, BaseName, final_component, starts_with_dot.
  destruct p as [|c p].
  - cbn. split; [discriminate|]. intros [n [H _]]. discriminate.
  - rewrite value_singleton. set (n := last (c :: p) ""). split.
    + intros H. exists n. split; [reflexivity|].
      destruct n as [|a n']; cbn in H; [discriminate|].
      apply Ascii.eqb_eq in H. subst a. now exists n'.
    + intros [n0 [Hn0 [rest Hrest]]]. injection Hn0 as <-.
      rewrite Hrest. reflexivity.
Qed.

Lemma IsHiddenFile_below (root s : FilePath) :
  s <> [] -> IsHiddenFile (root ++ s) = IsHiddenFile s.
Proof.
  intros Hs. unfold IsHiddenFile. now rewrite BaseName_below.
Qed.

Section FullTree.

Variable minizip_ok : zipFile -> ZipOp -> bool.
Variable fd_opens : Z -> bool.
Variable path_opens : string -> bool.

(** What is known of a full-tree run that opened its archive. *)
Lemma full_tree_run (fuel : nat) (params : ZipParams) (run : ZipRun) :
  Zip minizip_ok fd_opens path_opens fuel params = Some run ->
  files_to_zip params = [] ->
  archive run <> None ->
  files_to_add run = all_files (traversal run)
  /\ traversal_after params (tl (entries (traversal run))) (traversal run)
  /\ (lists_immediate_children (file_accessor params) ->
      Forall (well_placed params) (tl (entries (traversal run)))
      /\ StronglySorted depth_le (entries (traversal run))).
Proof.
  intros Hrun Hfiles Hopen.
  destruct (Zip_full_tree _ _ _ _ _ _ Hrun Hfiles Hopen) as [Ht Hadd].
  split; [assumption|]. split.
  - eapply traverse_characterised; eassumption.
  - intros Hwf. split.
    + eapply traverse_well_placed; eassumption.
    + eapply traverse_level_order; eassumption.
Qed.

(** C2 (subtree pruning).  In full-tree packing, a queued entry [d]
    that the active filter rejects (hidden-file rule unless hidden files
    are included, or the caller's callback) is never listed by the
    accessor, is not in the output, and no output path lies below it,
    whatever the filter would answer on the descendants themselves. *)
Theorem C2_rejected_directory_prunes_subtree
        (fuel : nat) (params : ZipParams) (run : ZipRun)
        (d : DirectoryContentEntry) :
  lists_immediate_children (file_accessor params) ->
  src_dir params <> [] ->
  Zip minizip_ok fd_opens path_opens fuel params = Some run ->
  files_to_zip params = [] ->
  archive run <> None ->
  In d (tl (entries (traversal run))) ->
  rejected params (path d) = true ->
  ~ In (path d) (listed (traversal run))
  /\ forall r, In r (files_to_add run) ->
       r <> relative_to (src_dir params) (path d)
       /\ ~ strictly_below (relative_to (src_dir params) (path d)) r.
Proof.
  intros Hwf Hsrc Hrun Hfiles Hopen Hd Hrej.
  destruct (full_tree_run _ _ _ Hrun Hfiles Hopen)
    as [Hadd [[_ [Hall [_ Hlisted]]] Hrest]].
  destruct (Hrest Hwf) as [Hplaced _].
  rewrite Forall_forall in Hplaced.
  destruct (well_placed_relative params d Hsrc (Hplaced _ Hd))
    as [sd [Hsd [_ [Hpd Hrd]]]].
  split.
  - rewrite Hlisted. intros [Heq | Hin].
    + rewrite Hpd in Heq. apply (f_equal (@List.length string)) in Heq.
      rewrite length_app in Heq. destruct sd; [congruence|cbn in Heq; lia].
    + apply in_map_iff in Hin. destruct Hin as [e [Hpe He]].
      apply filter_In in He. destruct He as [_ Hacc].
      apply andb_prop in Hacc. destruct Hacc as [Hacc _].
      unfold accepted in Hacc. rewrite Hpe, Hrej in Hacc. discriminate.
  - intros r Hr. rewrite Hadd, Hall in Hr.
    apply in_map_iff in Hr. destruct Hr as [e [Hre He]].
    apply filter_In in He. destruct He as [He Hacc].
    pose proof (Hplaced _ He) as Hqe.
    destruct (well_placed_relative params e Hsrc Hqe)
      as [se [Hse [_ [Hpe Hrel]]]].
    destruct Hqe as [se' [_ [_ [Hpe' Hanc]]]].
    assert (se' = se) by (rewrite Hpe in Hpe'; now apply app_inv_head in Hpe').
    subst se'. rewrite Hrd. rewrite Hrel in Hre. subst r.
    unfold accepted in Hacc. apply negb_true_iff in Hacc.
    split.
    + intros ->. rewrite Hpe, <- Hpd, Hrej in Hacc. discriminate.
    + intros [rest [Hrest' ->]].
      pose proof (Hanc sd rest eq_refl Hsd Hrest') as Hok.
      rewrite <- Hpd in Hok. congruence.
Qed.

(** X20 (root exclusion, where it holds).  In full-tree packing the queue
    starts with the seed entry for the source directory, and the seed is
    neither filtered nor added: whatever the hidden-file rule and the
    callback say of the source directory, it is the first directory
    listed and everything listed in it is queued; the callback is run on
    entries behind the seed only, and the output is made of entries
    behind the seed only.  Under the accessor's contract and for a source
    directory that is not empty, the callback is never run on the source
    directory, and every output path is the non-empty, source-relative
    path of a queued entry strictly below the source directory; when the
    source directory is not the current directory either, no entry the
    archive writer is asked to open is named [""] or ["."]. *)
Theorem Zip_keeps_the_root_out_of_the_archive
        (fuel : nat) (params : ZipParams) (run : ZipRun) (zf : zipFile) :
  Zip minizip_ok fd_opens path_opens fuel params = Some run ->
  files_to_zip params = [] ->
  archive run = Some zf ->
  hd_error (entries (traversal run)) = Some (seed params)
  /\ hd_error (listed (traversal run)) = Some (src_dir params)
  /\ (forall e,
        In e (ListDirectoryContent (file_accessor params) (src_dir params)) ->
        In e (tl (entries (traversal run))))
  /\ callback_runs (traversal run)
     = runs_on params (tl (entries (traversal run)))
  /\ files_to_add run
     = map (fun e => relative_to (src_dir params) (path e))
         (filter (accepted params) (tl (entries (traversal run))))
  /\ (lists_immediate_children (file_accessor params) ->
      src_dir params <> [] ->
      ~ In (src_dir params) (callback_runs (traversal run))
      /\ (forall r, In r (files_to_add run) ->
            r <> [] /\ value r <> "" /\ value r <> "."
            /\ exists e, In e (tl (entries (traversal run)))
                         /\ path e = src_dir params ++ r
                         /\ strictly_below (src_dir params) (path e))
      /\ (src_dir params <> [kCurrentDirectory] ->
          forall n, In n (open_attempts zf) -> n <> "" /\ n <> ".")).
Proof.
  intros Hrun Hfiles Hzf.
  assert (Hopen : archive run <> None) by congruence.
  destruct (full_tree_run _ _ _ Hrun Hfiles Hopen)
    as [Hadd [[Hent [Hall [Hruns Hlisted]]] Hrest]].
  split; [now rewrite Hent|]. split; [now rewrite Hlisted|].
  split.
  { intros e He. rewrite Hent at 1. cbn [tl]. apply in_or_app. now left. }
  split; [assumption|].
  split; [now rewrite Hadd|].
  intros Hwf Hsrc.
  destruct (Hrest Hwf) as [Hplaced _].
  rewrite Forall_forall in Hplaced.
  assert (Hout : forall r, In r (files_to_add run) ->
            exists e n s,
              In e (tl (entries (traversal run)))
              /\ path e = src_dir params ++ r
              /\ r = n :: s /\ n <> "" /\ n <> kCurrentDirectory).
  { intros r Hr. rewrite Hadd, Hall in Hr.
    apply in_map_iff in Hr. destruct Hr as [e [Hre He]].
    apply filter_In in He. destruct He as [He _].
    destruct (well_placed_relative params e Hsrc (Hplaced _ He))
      as [s [Hs [Hnames [Hpe Hrel]]]].
    rewrite Hrel in Hre. subst r.
    destruct s as [|n s]; [congruence|].
    apply Forall_inv in Hnames. apply is_file_name_inv in Hnames.
    destruct Hnames as [Hn1 [Hn2 _]].
    now exists e, n, s. }
  split; [|split].
  - rewrite Hruns. intros Hin. apply runs_on_incl in Hin.
    apply in_map_iff in Hin. destruct Hin as [e [Hpe He]].
    destruct (Hplaced _ He) as [s [Hs [_ [Hp _]]]].
    rewrite Hpe in Hp. apply (f_equal (@List.length string)) in Hp.
    rewrite length_app in Hp. destruct s; [congruence|cbn in Hp; lia].
  - intros r Hr.
    destruct (Hout r Hr) as [e [n [s [He [Hpe [-> [Hn1 Hn2]]]]]]].
    destruct (value_of_named n s Hn1 Hn2) as [Hv1 Hv2].
    repeat split; try assumption; try discriminate.
    exists e. repeat split; try assumption.
    exists (n :: s). split; [discriminate|assumption].
  - intros Hcur n Hn.
    destruct (Zip_attempts _ _ _ _ _ _ _ Hrun Hzf) as [[k Hatt] _].
    rewrite Hatt in Hn. apply in_map_iff in Hn.
    destruct Hn as [r [<- Hr]]. apply In_firstn in Hr.
    destruct (Hout r Hr) as [e [c [s [_ [_ [-> [Hn1 Hn2]]]]]]].
    rewrite str_path_of_listed; try assumption;
      [|split; [discriminate|exact Hn2]].
    destruct (value_of_named c s Hn1 Hn2) as [Hv1 Hv2].
    unfold listed_entry_name.
    destruct (DirectoryExists _ _); [|now split].
    destruct (value (c :: s)) as [|a v]; [congruence|].
    split; [discriminate|].
    cbn. intros Heq. injection Heq as _ Heq. now destruct v.
Qed.

(** C4 (hidden-file rule and composition).  A path is hidden exactly
    when its final component starts with a dot; and in full-tree packing
    with [include_hidden_files = false] the output consists, in queue
    order, of the relative paths of exactly those non-root queue entries
    that are not hidden and that the caller's callback, when there is
    one, accepts. *)
Theorem C4_hidden_rule_and_filter_conjunction :
  (forall p, IsHiddenFile p = true <->
             exists n, final_component p = Some n /\ starts_with_dot n)
  /\ forall (fuel : nat) (params : ZipParams) (run : ZipRun),
      Zip minizip_ok fd_opens path_opens fuel params = Some run ->
      files_to_zip params = [] ->
      archive run <> None ->
      include_hidden_files params = false ->
      files_to_add run
      = map (fun e => relative_to (src_dir params) (path e))
          (filter (fun e => negb (IsHiddenFile (path e))
                            && callback_accepts params (path e))
             (tl (entries (traversal run)))).
Proof.
  split; [exact IsHiddenFile_spec|].
  intros fuel params run Hrun Hfiles Hopen Hhidden.
  destruct (full_tree_run _ _ _ Hrun Hfiles Hopen)
    as [Hadd [[_ [Hall _]] _]].
  rewrite Hadd, Hall. f_equal. apply filter_ext. intros e.
  unfold accepted, rejected, hidden_rule_rejects. rewrite Hhidden.
  cbn [negb andb]. now rewrite negb_orb, negb_involutive.
Qed.

(** C6, as the code has it.  In full-tree packing the callback is run
    on the path of the queued entry as the accessor returned it (the
    path below the source directory, not made relative), for exactly the
    non-root entries the hidden-file rule lets through, in queue order;
    inclusion is decided on that path, and only the paths of included
    entries are made relative, for the output.  Under the accessor's
    contract and for a source directory that is not empty, the
    hidden-file rule gives the same verdict on both forms of the path. *)
Theorem C6_filter_runs_on_enumerated_paths
        (fuel : nat) (params : ZipParams) (run : ZipRun) :
  Zip minizip_ok fd_opens path_opens fuel params = Some run ->
  files_to_zip params = [] ->
  archive run <> None ->
  callback_runs (traversal run)
  = match filter_callback params with
    | Some _ =>
        map path
          (filter (fun e => negb (hidden_rule_rejects params (path e)))
             (tl (entries (traversal run))))
    | None => []
    end
  /\ files_to_add run
     = map (fun e => relative_to (src_dir params) (path e))
         (filter (fun e => negb (hidden_rule_rejects params (path e))
                           && callback_accepts params (path e))
            (tl (entries (traversal run))))
  /\ (lists_immediate_children (file_accessor params) ->
      src_dir params <> [] ->
      forall e, In e (tl (entries (traversal run))) ->
        strictly_below (src_dir params) (path e)
        /\ path e <> relative_to (src_dir params) (path e)
        /\ IsHiddenFile (path e)
           = IsHiddenFile (relative_to (src_dir params) (path e))).
Proof.
  intros Hrun Hfiles Hopen.
  destruct (full_tree_run _ _ _ Hrun Hfiles Hopen)
    as [Hadd [[_ [Hall [Hruns _]]] Hrest]].
  split; [exact Hruns|]. split.
  - rewrite Hadd, Hall. f_equal. apply filter_ext. intros e.
    unfold accepted, rejected. now rewrite negb_orb, negb_involutive.
  - intros Hwf Hsrc e He.
    destruct (Hrest Hwf) as [Hplaced _].
    rewrite Forall_forall in Hplaced.
    destruct (well_placed_relative params e Hsrc (Hplaced _ He))
      as [s [Hs [_ [Hpe Hrel]]]].
    rewrite Hrel. split; [|split].
    + exists s. now split.
    + rewrite Hpe. intros Heq.
      apply (f_equal (@List.length string)) in Heq.
      rewrite length_app in Heq.
      destruct (src_dir params); [congruence|cbn in Heq; lia].
    + rewrite Hpe. now apply IsHiddenFile_below.
Qed.

(** C8 (breadth-first order).  In full-tree packing the queue is the
    seed followed by the listing of the source directory and then, entry
    by entry in queue order, by the listing of every accepted directory:
    what processing an entry discovers goes to the tail.  The output is
    the queue order restricted to accepted non-root entries.  Under the
    accessor's contract the output is therefore ordered level by level: a
    path never precedes a path with fewer components. *)
Theorem C8_breadth_first_order
        (fuel : nat) (params : ZipParams) (run : ZipRun) :
  Zip minizip_ok fd_opens path_opens fuel params = Some run ->
  files_to_zip params = [] ->
  archive run <> None ->
  entries (traversal run)
  = seed params
      :: (ListDirectoryContent (file_accessor params) (src_dir params)
            ++ flat_map (expansion params) (tl (entries (traversal run))))
  /\ files_to_add run
     = map (fun e => relative_to (src_dir params) (path e))
         (filter (accepted params) (tl (entries (traversal run))))
  /\ (lists_immediate_children (file_accessor params) ->
      src_dir params <> [] ->
      StronglySorted level_le (files_to_add run)).
Proof.
  intros Hrun Hfiles Hopen.
  destruct (full_tree_run _ _ _ Hrun Hfiles Hopen)
    as [Hadd [[Hent [Hall _]] Hrest]].
  split; [assumption|]. split; [now rewrite Hadd|].
  intros Hwf Hsrc.
  destruct (Hrest Hwf) as [Hplaced Hsorted].
  rewrite Hadd, Hall.
  assert (Htl : StronglySorted depth_le (tl (entries (traversal run)))).
  { destruct (entries (traversal run)); [constructor|].
    now apply StronglySorted_inv in Hsorted. }
  apply (StronglySorted_map_on depth_le level_le).
  - rewrite Forall_forall in Hplaced.
    intros x y Hx Hy Hxy.
    apply filter_In in Hx. apply filter_In in Hy.
    destruct (well_placed_relative params x Hsrc (Hplaced _ (proj1 Hx)))
      as [sx [_ [_ [Hpx ->]]]].
    destruct (well_placed_relative params y Hsrc (Hplaced _ (proj1 Hy)))
      as [sy [_ [_ [Hpy ->]]]].
    unfold depth_le, depth, level_le in *.
    rewrite Hpx, Hpy, !length_app in Hxy. lia.
  - now apply StronglySorted_filter.
Qed.

End FullTree.

(* ===================================================================== *)
(** ** Properties of the entry-writing phase *)
(* ===================================================================== *)

Section WritingFiles.

Variable minizip_ok : zipFile -> ZipOp -> bool.
Variable fd_opens : Z -> bool.
Variable path_opens : string -> bool.

(** X21 (explicit-file bypass, where it holds).  When the explicit list
    is not empty and the archive can be opened, [Zip] returns for any
    amount of fuel, the files it adds are the listed ones, and no
    traversal takes place:
    nothing is queued, the callback is never run and no directory is
    listed, whatever the callback and the hidden-file policy are.  It
    returns [true] when the writer never fails and every source can be
    read.  It attempts one entry per listed path, in list order and up to
    the first failure, under the name [AddEntryToZip] computes for it.
    For listed paths that are plain relative paths, and a source
    directory that is neither empty nor the current directory, these
    names are the listed paths (a trailing separator marks a directory),
    and when [Zip] returns [true] the archive holds exactly the listed
    entries. *)
Theorem Zip_with_an_explicit_list_skips_the_traversal
        (fuel : nat) (params : ZipParams) :
  files_to_zip params <> [] ->
  open_archive fd_opens path_opens params <> None ->
  exists run zf,
    Zip minizip_ok fd_opens path_opens fuel params = Some run
    /\ archive run = Some zf
    /\ files_to_add run = files_to_zip params
    /\ traversal run = no_traversal
    /\ ((forall h op, minizip_ok h op = true) ->
        forallb (fun f => source_readable (file_accessor params)
                            (Append (src_dir params) f))
          (files_to_zip params) = true ->
        zip_result run = true)
    /\ (exists k,
          open_attempts zf
          = map (str_path_of params) (firstn k (files_to_zip params)))
    /\ (zip_result run = true ->
        entry_names zf = map (str_path_of params) (files_to_zip params))
    /\ (src_dir params <> [] ->
        src_dir params <> [kCurrentDirectory] ->
        Forall plain_relative (files_to_zip params) ->
        (exists k,
            open_attempts zf
            = map (listed_entry_name params)
                (firstn k (files_to_zip params)))
        /\ (zip_result run = true ->
            entry_names zf
            = map (listed_entry_name params) (files_to_zip params))).
Proof.
  intros Hfiles Hopen.
  assert (Hrun : exists run zf,
             Zip minizip_ok fd_opens path_opens fuel params = Some run
             /\ archive run = Some zf
             /\ files_to_add run = files_to_zip params
             /\ traversal run = no_traversal).
  { unfold Zip, collect_files.
    destruct (open_archive fd_opens path_opens params) as [h|];
      [|congruence].
    destruct (files_to_zip params) as [|f0 files'] eqn:Efiles; [congruence|].
    destruct (add_entries minizip_ok h params (f0 :: files')) as [b w].
    destruct (zipClose minizip_ok w) as [[|] w'];
      eexists; eexists; repeat split. }
  destruct Hrun as [run [zf [Hrun [Hzf [Hadd Hnone]]]]].
  exists run, zf. repeat (split; [assumption|]).
  destruct (Zip_outcome _ _ _ fuel params run zf Hrun Hzf)
    as [b [w [_ [Hentries [_ Hres]]]]].
  destruct (Zip_attempts _ _ _ fuel params run zf Hrun Hzf) as [[k Hk] Hall].
  rewrite Hadd in *.
  split; [|split; [|split]].
  - intros Hok Hread. rewrite Hres, Hok.
    pose proof (add_entries_succeeds minizip_ok params
                  (files_to_zip params) [] Hok Hread) as Hfst.
    rewrite Hentries in Hfst. cbn in Hfst. now subst b.
  - now exists k.
  - exact Hall.
  - intros Hsrc Hcur Hplain. split.
    + exists k. rewrite Hk. apply listed_names; try assumption.
      apply Forall_forall. intros f Hf. rewrite Forall_forall in Hplain.
      apply Hplain. eapply In_firstn; eassumption.
    + intros Htrue. rewrite (Hall Htrue). now apply listed_names.
Qed.

End WritingFiles.

(* ===================================================================== *)
(** ** The extraction loop *)
(* ===================================================================== *)

Lemma nth_error_middle {A : Type} (pre rest : list A) (a : A) :
  nth_error (pre ++ a :: rest) (List.length pre) = Some a.
Proof.
  rewrite nth_error_app2 by lia. now rewrite Nat.sub_diag.
Qed.

Lemma HasMore_middle (pre rest : list ArchiveEntry) (e : ArchiveEntry)
      (ci : option EntryInfo) (x : list (FilePath * FilePath)) :
  HasMore (mkZipReader (pre ++ e :: rest) (List.length pre) ci x) = true.
Proof.
  unfold HasMore. cbn [position zip_entries].
  apply Nat.ltb_lt. rewrite length_app. cbn. lia.
Qed.

Lemma HasMore_end (es : list ArchiveEntry) (ci : option EntryInfo)
      (x : list (FilePath * FilePath)) :
  HasMore (mkZipReader es (List.length es) ci x) = false.
Proof. unfold HasMore. cbn. apply Nat.ltb_irrefl. Qed.

(** One unfolding of the loop, with the two ways through the body (the
    entry is extracted, the entry is skipped) written apart. *)
Lemma unzip_loop_step (fuel : nat) (dest_dir : FilePath)
      (filter_cb : FilePath -> bool) (log_skipped_files : bool)
      (u : Unzipping) :
  unzip_loop (S fuel) dest_dir filter_cb log_skipped_files u =
  if negb (HasMore (reader u)) then Some (true, u)
  else
    match OpenCurrentEntryInZip (reader u) with
    | (false, r1) =>
        Some (false, mkUnzipping r1 (filter_cb_runs u) (skipped_log u))
    | (true, r1) =>
        match current_entry_info r1 with
        | None => None
        | Some info =>
            if is_unsafe info
            then Some (false, mkUnzipping r1 (filter_cb_runs u) (skipped_log u))
            else
              let runs := filter_cb_runs u ++ [file_path info] in
              if filter_cb (file_path info)
              then
                match ExtractCurrentEntryIntoDirectory r1 dest_dir with
                | (false, r2) =>
                    Some (false, mkUnzipping r2 runs (skipped_log u))
                | (true, r2) =>
                    match AdvanceToNextEntry r2 with
                    | (false, r3) =>
                        Some (false, mkUnzipping r3 runs (skipped_log u))
                    | (true, r3) =>
                        unzip_loop fuel dest_dir filter_cb log_skipped_files
                          (mkUnzipping r3 runs (skipped_log u))
                    end
                end
              else
                let skipped :=
                  if log_skipped_files
                  then skipped_log u ++ [file_path info]
                  else skipped_log u in
                match AdvanceToNextEntry r1 with
                | (false, r3) => Some (false, mkUnzipping r3 runs skipped)
                | (true, r3) =>
                    unzip_loop fuel dest_dir filter_cb log_skipped_files
                      (mkUnzipping r3 runs skipped)
                end
        end
    end.
Proof.
  cbn [unzip_loop].
  destruct (negb (HasMore (reader u))); [reflexivity|].
  destruct (OpenCurrentEntryInZip (reader u)) as [[|] r1]; [|reflexivity].
  destruct (current_entry_info r1) as [info|]; [|reflexivity].
  destruct (is_unsafe info); [reflexivity|].
  destruct (filter_cb (file_path info)).
  - destruct (ExtractCurrentEntryIntoDirectory r1 dest_dir) as [[|] r2];
      reflexivity.
  - destruct log_skipped_files; reflexivity.
Qed.

(** The loop returns within as many iterations as there are entries left,
    and one more. *)
Lemma unzip_loop_terminates (dest_dir : FilePath)
      (filter_cb : FilePath -> bool) (log_skipped_files : bool) :
  forall fuel u,
    List.length (zip_entries (reader u)) - position (reader u) < fuel ->
    exists res,
      unzip_loop fuel dest_dir filter_cb log_skipped_files u = Some res.
Proof.
  induction fuel as [|fuel IH]; intros [[es pos ci x] runs skipped] Hfuel;
    [lia|].
  cbn [reader zip_entries position] in Hfuel.
  rewrite unzip_loop_step. cbn [reader filter_cb_runs skipped_log].
  unfold HasMore, OpenCurrentEntryInZip, ExtractCurrentEntryIntoDirectory,
    AdvanceToNextEntry.
  cbn [zip_entries position current_entry_info extracted].
  destruct (pos <? List.length es) eqn:Hmore; cbn [negb]; [|eauto].
  apply Nat.ltb_lt in Hmore.
  destruct (nth_error es pos) as [e|] eqn:E; [|eauto].
  destruct (opens e); [|eauto].
  cbn [current_entry_info zip_entries position extracted is_unsafe
         entry_info_of file_path].
  destruct (unsafe_path (stored_path e)); [eauto|].
  destruct (filter_cb (stored_path e)).
  - rewrite E. destruct (extracts e); [|eauto].
    cbn [zip_entries position]. rewrite E.
    destruct (advances e); [|eauto].
    apply IH. cbn. lia.
  - rewrite E. destruct (advances e); [|eauto].
    apply IH. cbn. lia.
Qed.

(** More fuel does not change a result. *)
Lemma unzip_loop_fuel_mono (dest_dir : FilePath)
      (filter_cb : FilePath -> bool) (log_skipped_files : bool) :
  forall fuel fuel' u res,
    unzip_loop fuel dest_dir filter_cb log_skipped_files u = Some res ->
    fuel <= fuel' ->
    unzip_loop fuel' dest_dir filter_cb log_skipped_files u = Some res.
Proof.
  induction fuel as [|fuel IH]; intros fuel' u res Hrun Hle; [discriminate|].
  destruct fuel' as [|fuel']; [lia|].
  rewrite unzip_loop_step in *.
  destruct (negb (HasMore (reader u))); [assumption|].
  destruct (OpenCurrentEntryInZip (reader u)) as [[|] r1]; [|assumption].
  destruct (current_entry_info r1) as [info|]; [|discriminate].
  destruct (is_unsafe info); [assumption|].
  destruct (filter_cb (file_path info)).
  - destruct (ExtractCurrentEntryIntoDirectory r1 dest_dir) as [[|] r2];
      [|assumption].
    destruct (AdvanceToNextEntry r2) as [[|] r3]; [|assumption].
    apply IH; [assumption|lia].
  - destruct (AdvanceToNextEntry r1) as [[|] r3]; [|assumption].
    apply IH; [assumption|lia].
Qed.

(** On entries that are all safe and on which no reader operation fails,
    the loop runs to the end of the archive: the filter is run on every
    entry, the accepted entries are extracted in archive order and the
    rejected ones are logged when logging is on. *)
Lemma unzip_loop_extractable (dest_dir : FilePath)
      (filter_cb : FilePath -> bool) (log_skipped_files : bool) :
  forall rest pre ci x runs skipped fuel,
    forallb extractable rest = true ->
    List.length rest < fuel ->
    exists ci',
      unzip_loop fuel dest_dir filter_cb log_skipped_files
        (mkUnzipping
           (mkZipReader (pre ++ rest) (List.length pre) ci x) runs skipped)
      = Some (true,
              mkUnzipping
                (mkZipReader (pre ++ rest) (List.length (pre ++ rest)) ci'
                   (x ++ extractions_of dest_dir
                           (filter filter_cb (map stored_path rest))))
                (runs ++ map stored_path rest)
                (skipped
                   ++ (if log_skipped_files
                       then filter (fun p => negb (filter_cb p))
                              (map stored_path rest)
                       else []))).
Proof.
  induction rest as [|e rest IH]; intros pre ci x runs skipped fuel Hgood Hfuel;
    (destruct fuel as [|fuel]; [lia|]).
  - exists ci. rewrite unzip_loop_step. cbn [reader]. rewrite app_nil_r.
    rewrite HasMore_end. cbn [negb map filter extractions_of].
    destruct log_skipped_files; now rewrite !app_nil_r.
  - cbn [forallb] in Hgood. apply andb_prop in Hgood.
    destruct Hgood as [He Hrest].
    unfold extractable in He.
    repeat (apply andb_prop in He; destruct He as [He ?]).
    apply negb_true_iff in He.
    specialize (IH (pre ++ [e]) None).
    rewrite <- app_assoc in IH. cbn [app] in IH.
    replace (List.length (pre ++ [e])) with (S (List.length pre)) in IH
      by (rewrite length_app; cbn; lia).
    rewrite unzip_loop_step. cbn [reader filter_cb_runs skipped_log].
    rewrite HasMore_middle. cbn [negb].
    unfold OpenCurrentEntryInZip, ExtractCurrentEntryIntoDirectory,
      AdvanceToNextEntry.
    cbn [zip_entries position current_entry_info extracted].
    rewrite nth_error_middle. rewrite H1.
    cbn [current_entry_info zip_entries position extracted is_unsafe
           entry_info_of file_path].
    rewrite He. cbn [map filter].
    destruct (filter_cb (stored_path e)) eqn:Hcb; cbn [negb].
    + rewrite nth_error_middle, H0.
      cbn [zip_entries position extracted current_entry_info].
      rewrite nth_error_middle, H.
      destruct (IH (x ++ [(dest_dir, stored_path e)])
                  (runs ++ [stored_path e]) skipped fuel Hrest)
        as [ci' Hrun]; [cbn in Hfuel; lia|].
      exists ci'. rewrite Hrun. unfold extractions_of. cbn [map].
      rewrite <- !app_assoc. reflexivity.
    + rewrite nth_error_middle, H.
      destruct (IH x (runs ++ [stored_path e])
                  (if log_skipped_files
                   then skipped ++ [stored_path e] else skipped)
                  fuel Hrest)
        as [ci' Hrun]; [cbn in Hfuel; lia|].
      exists ci'. rewrite Hrun.
      destruct log_skipped_files; rewrite <- !app_assoc; reflexivity.
Qed.

(** On an archive whose first unsafe entry comes after the safe entries
    [good], the loop fails, at that entry at the latest; what it extracted
    before are the accepted entries among the first [k] of [good]. *)
Lemma unzip_loop_unsafe (dest_dir : FilePath)
      (filter_cb : FilePath -> bool) (log_skipped_files : bool)
      (bad : ArchiveEntry) (post : list ArchiveEntry) :
  unsafe_path (stored_path bad) = true ->
  forall good pre ci x runs skipped fuel,
    forallb (fun e => negb (unsafe_path (stored_path e))) good = true ->
    List.length good < fuel ->
    exists u k,
      unzip_loop fuel dest_dir filter_cb log_skipped_files
        (mkUnzipping
           (mkZipReader (pre ++ good ++ bad :: post) (List.length pre) ci x)
           runs skipped)
      = Some (false, u)
      /\ k <= List.length good
      /\ extracted (reader u)
         = x ++ extractions_of dest_dir
                  (filter filter_cb (map stored_path (firstn k good))).
Proof.
  intros Hbad.
  induction good as [|e good IH]; intros pre ci x runs skipped fuel Hgood Hfuel;
    (destruct fuel as [|fuel]; [lia|]);
    rewrite unzip_loop_step; cbn [reader filter_cb_runs skipped_log app];
    rewrite HasMore_middle; cbn [negb];
    unfold OpenCurrentEntryInZip, ExtractCurrentEntryIntoDirectory,
      AdvanceToNextEntry;
    cbn [zip_entries position current_entry_info extracted];
    rewrite nth_error_middle.
  - destruct (opens bad).
    + cbn [current_entry_info is_unsafe entry_info_of]. rewrite Hbad.
      eexists. exists 0. split; [reflexivity|]. split; [lia|].
      cbn. now rewrite app_nil_r.
    + eexists. exists 0. split; [reflexivity|]. split; [lia|].
      cbn. now rewrite app_nil_r.
  - cbn [forallb] in Hgood. apply andb_prop in Hgood.
    destruct Hgood as [He Hrest]. apply negb_true_iff in He.
    specialize (IH (pre ++ [e]) None).
    rewrite <- app_assoc in IH. cbn [app] in IH.
    replace (List.length (pre ++ [e])) with (S (List.length pre)) in IH
      by (rewrite length_app; cbn; lia).
    destruct (opens e).
    2:{ eexists. exists 0. split; [reflexivity|]. split; [lia|].
        cbn. now rewrite app_nil_r. }
    cbn [current_entry_info zip_entries position extracted is_unsafe
           entry_info_of file_path].
    rewrite He.
    destruct (filter_cb (stored_path e)) eqn:Hcb.
    + rewrite nth_error_middle.
      destruct (extracts e).
      2:{ eexists. exists 0. split; [reflexivity|]. split; [lia|].
          cbn. now rewrite app_nil_r. }
      cbn [zip_entries position extracted current_entry_info].
      rewrite nth_error_middle.
      destruct (advances e).
      2:{ eexists. exists 1. split; [reflexivity|]. split; [cbn; lia|].
          cbn [reader extracted firstn map filter]. rewrite Hcb.
          reflexivity. }
      destruct (IH (x ++ [(dest_dir, stored_path e)])
                  (runs ++ [stored_path e]) skipped fuel Hrest)
        as [u [k [Hrun [Hk Hx]]]]; [cbn in Hfuel; lia|].
      exists u, (S k). split; [exact Hrun|]. split; [cbn; lia|].
      rewrite Hx. cbn [firstn map filter]. rewrite Hcb.
      unfold extractions_of. cbn [map]. now rewrite <- app_assoc.
    + rewrite nth_error_middle.
      destruct (advances e).
      2:{ eexists. exists 0. split; [reflexivity|]. split; [lia|].
          cbn. now rewrite app_nil_r. }
      destruct (IH x (runs ++ [stored_path e])
                  (if log_skipped_files
                   then skipped ++ [stored_path e] else skipped)
                  fuel Hrest)
        as [u [k [Hrun [Hk Hx]]]]; [cbn in Hfuel; lia|].
      exists u, (S k). split; [exact Hrun|]. split; [cbn; lia|].
      rewrite Hx. cbn [firstn map filter]. now rewrite Hcb.
Qed.

(** An archive with an unsafe entry splits at its first unsafe entry. *)
Lemma first_unsafe_entry (es : list ArchiveEntry) (bad : ArchiveEntry) :
  In bad es -> unsafe_path (stored_path bad) = true ->
  exists good first_bad post,
    es = good ++ first_bad :: post
    /\ forallb (fun e => negb (unsafe_path (stored_path e))) good = true
    /\ unsafe_path (stored_path first_bad) = true.
Proof.
  intros Hin Hbad. induction es as [|e es IH]; [easy|].
  destruct (unsafe_path (stored_path e)) eqn:He.
  - exists [], e, es. now repeat split.
  - destruct Hin as [-> | Hin]; [congruence|].
    destruct (IH Hin) as [good [b [post [-> [Hgood Hb]]]]].
    exists (e :: good), b, post. repeat split; try assumption.
    cbn. now rewrite He.
Qed.

(** What extracting into a directory leaves there. *)
Lemma In_leading_parts (p q : FilePath) :
  In p (leading_parts q) <-> p <> [] /\ exists rest, q = p ++ rest.
Proof.
  revert p. induction q as [|c q IH]; intros p; cbn [leading_parts].
  - split; [easy|]. intros [Hp [rest Hq]].
    destruct p; [congruence|discriminate].
  - split.
    + intros [<- | Hin].
      * split; [discriminate|]. now exists q.
      * apply in_map_iff in Hin. destruct Hin as [p' [<- Hp']].
        apply IH in Hp'. destruct Hp' as [_ [rest ->]].
        split; [discriminate|]. now exists rest.
    + intros [Hp [rest Hq]]. destruct p as [|c' p]; [congruence|].
      cbn in Hq. injection Hq as <- ->.
      destruct p as [|c'' p]; [now left|]. right.
      apply in_map_iff. exists (c'' :: p). split; [reflexivity|].
      apply IH. split; [discriminate|]. now exists rest.
Qed.

Lemma materialized_extractions (dest_dir : FilePath) (ps : list FilePath) :
  materialized dest_dir (extractions_of dest_dir ps)
  = flat_map leading_parts ps.
Proof.
  unfold materialized, extractions_of.
  induction ps as [|p ps IH]; [reflexivity|].
  cbn [map flat_map fst snd]. now rewrite FilePath_eqb_refl, IH.
Qed.

(* ===================================================================== *)
(** ** Properties of unpacking *)
(* ===================================================================== *)

Section Unpacking.

Variable archive_at : FilePath -> option (list ArchiveEntry).

(** C1, as the code has it.  When the archive holds an entry the reader
    flags as unsafe, [UnzipWithFilterCallback] returns [false] for every
    filter, logging flag and destination.  The loop stops at the first
    unsafe entry at the latest: what was extracted before are the
    accepted entries among the first [k] entries that precede it, so no
    unsafe entry and no entry behind the first unsafe one is extracted,
    and nothing at all is extracted when the unsafe entry comes first. *)
Theorem C1_unsafe_entry_fails_unpacking
        (fuel : nat) (src_file dest_dir : FilePath)
        (filter_cb : FilePath -> bool) (log_skipped_files : bool)
        (es : list ArchiveEntry) (bad : ArchiveEntry) :
  archive_at src_file = Some es ->
  In bad es ->
  unsafe_path (stored_path bad) = true ->
  List.length es < fuel ->
  exists u good first_bad post k,
    UnzipWithFilterCallback archive_at fuel src_file dest_dir filter_cb
      log_skipped_files = Some (false, Some u)
    /\ es = good ++ first_bad :: post
    /\ forallb (fun e => negb (unsafe_path (stored_path e))) good = true
    /\ unsafe_path (stored_path first_bad) = true
    /\ k <= List.length good
    /\ extracted (reader u)
       = extractions_of dest_dir
           (filter filter_cb (map stored_path (firstn k good)))
    /\ (forall c, In c (extracted (reader u)) -> unsafe_path (snd c) = false)
    /\ (good = [] -> extracted (reader u) = []).
Proof.
  intros Harchive Hin Hbad Hfuel.
  destruct (first_unsafe_entry es bad Hin Hbad)
    as [good [b [post [Hes [Hgood Hb]]]]].
  assert (Hlen : List.length good < fuel).
  { rewrite Hes, length_app in Hfuel. lia. }
  destruct (unzip_loop_unsafe dest_dir filter_cb log_skipped_files b post Hb
              good [] None [] [] [] fuel Hgood Hlen)
    as [u [k [Hrun [Hk Hx]]]].
  cbn [app List.length] in Hrun, Hx.
  exists u, good, b, post, k.
  split.
  { unfold UnzipWithFilterCallback, Open.
    rewrite Harchive, Hes, Hrun. reflexivity. }
  repeat split; try assumption.
  - intros [d p] Hc. rewrite Hx in Hc. unfold extractions_of in Hc.
    apply in_map_iff in Hc. destruct Hc as [q [Hq Hfq]].
    injection Hq as _ <-.
    apply filter_In in Hfq. destruct Hfq as [Hfq _].
    apply in_map_iff in Hfq. destruct Hfq as [e [<- He]].
    apply In_firstn in He.
    rewrite forallb_forall in Hgood. specialize (Hgood e He).
    cbn [snd]. now apply negb_true_iff in Hgood.
  - intros ->. rewrite Hx. now destruct k.
Qed.

(** C7, as the code has it.  On an archive whose entries are all safe
    and extractable, [UnzipWithFilterCallback] returns [true] whatever
    the filter rejects; the filter is run on every entry; exactly the
    accepted entries are extracted, in archive order, and each of them
    exists in the destination afterwards; a rejected entry is never
    extracted, and it exists in the destination afterwards only as a
    directory created on the way to an accepted entry. *)
Theorem C7_filter_rejection_is_not_an_error
        (fuel : nat) (src_file dest_dir : FilePath)
        (filter_cb : FilePath -> bool) (log_skipped_files : bool)
        (es : list ArchiveEntry) :
  archive_at src_file = Some es ->
  forallb extractable es = true ->
  List.length es < fuel ->
  exists u,
    UnzipWithFilterCallback archive_at fuel src_file dest_dir filter_cb
      log_skipped_files = Some (true, Some u)
    /\ filter_cb_runs u = map stored_path es
    /\ extracted (reader u)
       = extractions_of dest_dir (filter filter_cb (map stored_path es))
    /\ (forall e, In e es -> filter_cb (stored_path e) = true ->
          In (dest_dir, stored_path e) (extracted (reader u))
          /\ (stored_path e <> [] ->
              In (stored_path e)
                (materialized dest_dir (extracted (reader u)))))
    /\ (forall e, In e es -> filter_cb (stored_path e) = false ->
          ~ In (dest_dir, stored_path e) (extracted (reader u))
          /\ (In (stored_path e)
                (materialized dest_dir (extracted (reader u)))
              <-> exists q, In q (map stored_path es)
                            /\ filter_cb q = true
                            /\ proper_ancestor (stored_path e) q)).
Proof.
  intros Harchive Hgood Hfuel.
  destruct (unzip_loop_extractable dest_dir filter_cb log_skipped_files
              es [] None [] [] [] fuel Hgood Hfuel) as [ci' Hrun].
  cbn [app List.length] in Hrun.
  eexists. split.
  { unfold UnzipWithFilterCallback, Open.
    rewrite Harchive, Hrun. reflexivity. }
  cbn [filter_cb_runs reader extracted app].
  split; [reflexivity|]. split; [reflexivity|].
  rewrite materialized_extractions. split.
  - intros e He Hcb.
    assert (Hacc : In (stored_path e)
                      (filter filter_cb (map stored_path es))).
    { apply filter_In. split; [now apply in_map|assumption]. }
    split.
    + unfold extractions_of. apply in_map_iff. now exists (stored_path e).
    + intros Hne. apply in_flat_map. exists (stored_path e).
      split; [assumption|]. apply In_leading_parts.
      split; [assumption|]. exists []. now rewrite app_nil_r.
  - intros e He Hcb. split.
    + unfold extractions_of. intros Hin. apply in_map_iff in Hin.
      destruct Hin as [q [Hq Hfq]]. injection Hq as ->.
      apply filter_In in Hfq. destruct Hfq as [_ Hfq]. congruence.
    + split.
      * intros Hin. apply in_flat_map in Hin.
        destruct Hin as [q [Hq Hlead]].
        apply filter_In in Hq. destruct Hq as [Hq Hcbq].
        apply In_leading_parts in Hlead.
        destruct Hlead as [Hne [rest ->]].
        exists (stored_path e ++ rest). split; [assumption|].
        split; [assumption|]. split; [assumption|].
        exists rest. split; [|reflexivity].
        intros ->. rewrite app_nil_r in Hcbq. congruence.
      * intros [q [Hq [Hcbq [Hne [rest [_ ->]]]]]].
        apply in_flat_map. exists (stored_path e ++ rest). split.
        -- apply filter_In. now split.
        -- apply In_leading_parts. split; [assumption|]. now exists rest.
Qed.

(** C10 (empty archive).  Unzipping an archive that opens and holds no
    entry returns [true] as soon as the loop may take its first look at
    the reader: no entry is opened, the filter is not run, nothing is
    logged and nothing is extracted, for every filter, logging flag and
    destination; [Unzip] does the same. *)
Theorem C10_empty_archive_unzips_trivially
        (fuel : nat) (src_file dest_dir : FilePath)
        (filter_cb : FilePath -> bool) (log_skipped_files : bool) :
  archive_at src_file = Some [] ->
  fuel <> 0 ->
  UnzipWithFilterCallback archive_at fuel src_file dest_dir filter_cb
    log_skipped_files
  = Some (true, Some (mkUnzipping (mkZipReader [] 0 None []) [] []))
  /\ Unzip archive_at fuel src_file dest_dir
     = Some (true, Some (mkUnzipping (mkZipReader [] 0 None []) [] [])).
Proof.
  intros Harchive Hfuel.
  unfold Unzip, UnzipWithFilterCallback, Open. rewrite Harchive.
  destruct fuel as [|fuel]; [congruence|]. split; reflexivity.
Qed.

End Unpacking.

(* ===================================================================== *)
(** ** The properties on the sample tree and the sample archives *)
(* ===================================================================== *)

Lemma child_of_sound (dir : FilePath) (e : DirectoryContentEntry) :
  child_of dir e = true ->
  exists n, is_file_name n = true /\ path e = dir ++ [n].
Proof.
  unfold child_of. intros H.
  destruct (skipn (List.length dir) (path e)) as [|n [|m rest]] eqn:E;
    try discriminate.
  apply andb_prop in H. destruct H as [Hn Hdir].
  apply FilePath_eqb_eq in Hdir.
  exists n. split; [assumption|].
  rewrite <- (firstn_skipn (List.length dir) (path e)).
  now rewrite Hdir, E.
Qed.

Lemma listing_ok_sound (dirs : Listing) (files : list (FilePath * File)) :
  listing_ok dirs = true ->
  lists_immediate_children (memory_accessor dirs files).
Proof.
  unfold lists_immediate_children, memory_accessor. cbn [ListDirectoryContent].
  induction dirs as [|[d es] dirs IH]; intros Hok dir e Hin; [easy|].
  cbn [listing_ok forallb fst snd] in Hok. apply andb_prop in Hok.
  destruct Hok as [Hd Hrest].
  cbn [children_in] in Hin.
  destruct (FilePath_eqb d dir) eqn:Heq.
  - apply FilePath_eqb_eq in Heq. subst dir.
    rewrite forallb_forall in Hd. now apply child_of_sound, Hd.
  - now apply IH.
Qed.

Lemma sample_accessor_lists_children :
  lists_immediate_children sample_accessor.
Proof. apply listing_ok_sound. reflexivity. Qed.

(** The sample tree is finite: [size_below] is a weight for it, so that
    packing it returns, whatever the writer, the callback and the
    hidden-file policy. *)
Lemma sample_tree_is_finite (dir : FilePath) :
  weight_of (size_below sample_dirs 4)
    (ListDirectoryContent sample_accessor dir)
  < size_below sample_dirs 4 dir.
Proof.
  destruct (list_eq_dec string_dec dir ["/"; "src"]) as [-> | H1];
    [vm_compute; lia|].
  destruct (list_eq_dec string_dec dir ["/"; "src"; "foo"]) as [-> | H2];
    [vm_compute; lia|].
  destruct (list_eq_dec string_dec dir ["/"; "src"; "foo"; "bar"])
    as [-> | H3]; [vm_compute; lia|].
  destruct (list_eq_dec string_dec dir ["/"; "src"; ".git"]) as [-> | H4];
    [vm_compute; lia|].
  assert (Hnone : children_in sample_dirs dir = []).
  { unfold sample_dirs. cbn [children_in].
    repeat match goal with
           | |- context [FilePath_eqb ?k dir] =>
               replace (FilePath_eqb k dir) with false
                 by (symmetry; apply FilePath_eqb_neq; congruence)
           end.
    reflexivity. }
  cbn [sample_accessor memory_accessor ListDirectoryContent].
  rewrite Hnone. cbn [size_below]. rewrite Hnone. cbn. lia.
Qed.

Example packing_the_sample_returns
        (minizip_ok : zipFile -> ZipOp -> bool) (cb : FilterCallback)
        (hidden : bool) :
  exists run,
    Zip minizip_ok open_any_fd open_any_path 10 (sample_params cb hidden)
    = Some run.
Proof.
  apply (Zip_returns minizip_ok open_any_fd open_any_path 10
           (sample_params cb hidden) (size_below sample_dirs 4)).
  - exact sample_tree_is_finite.
  - vm_compute. lia.
Qed.

(** The sample tree packed in full, hidden files excluded. *)
Example full_tree_run_of_sample :
  option_map files_to_add
    (Zip writer_ok open_any_fd open_any_path 20 (sample_params None false))
  = Some [ ["a.txt"]; ["foo"]; ["z.txt"]; ["foo"; "ok.txt"]; ["foo"; "bar"];
           ["foo"; "bar"; "deep.txt"] ].
Proof. vm_compute. reflexivity. Qed.

(** The explicit list written by a writer that never fails. *)
Example explicit_run_of_sample :
  option_map (fun run => (zip_result run, option_map entry_names (archive run)))
    (Zip writer_ok open_any_fd open_any_path 0 sample_explicit_params)
  = Some (true, Some ["a.txt"; ".git/config"; ".git/"; "foo/"]).
Proof. vm_compute. reflexivity. Qed.

(** C2 on the sample tree: the callback rejects the directory [foo];
    [foo/ok.txt] and [foo/bar/deep.txt], which the callback accepts, are
    not packed. *)
Lemma C2_witness :
  exists run,
    Zip writer_ok open_any_fd open_any_path 20
      (sample_params (Some not_foo) true) = Some run
    /\ not_foo ["/"; "src"; "foo"; "ok.txt"] = true
    /\ (~ In ["/"; "src"; "foo"] (listed (traversal run))
        /\ forall r, In r (files_to_add run) ->
             r <> relative_to sample_src ["/"; "src"; "foo"]
             /\ ~ strictly_below
                    (relative_to sample_src ["/"; "src"; "foo"]) r).
Proof.
  eexists. split; [vm_compute; reflexivity|]. split; [reflexivity|].
  apply (C2_rejected_directory_prunes_subtree writer_ok open_any_fd
           open_any_path 20 (sample_params (Some not_foo) true) _
           (mkEntry ["/"; "src"; "foo"] true)).
  - exact sample_accessor_lists_children.
  - discriminate.
  - vm_compute. reflexivity.
  - reflexivity.
  - discriminate.
  - cbn. right. left. reflexivity.
  - reflexivity.
Defined.

(** C4 on the sample tree: [.git] is hidden and [foo] is rejected by the
    callback. *)
Lemma C4_witness :
  exists run,
    Zip writer_ok open_any_fd open_any_path 20
      (sample_params (Some not_foo) false) = Some run
    /\ files_to_add run = [ ["a.txt"]; ["z.txt"] ]
    /\ files_to_add run
       = map (fun e => relative_to sample_src (path e))
           (filter (fun e => negb (IsHiddenFile (path e))
                             && callback_accepts
                                  (sample_params (Some not_foo) false) (path e))
              (tl (entries (traversal run)))).
Proof.
  eexists. split; [vm_compute; reflexivity|]. split; [reflexivity|].
  apply (proj2 (C4_hidden_rule_and_filter_conjunction writer_ok open_any_fd
                  open_any_path) 20 (sample_params (Some not_foo) false)).
  - vm_compute. reflexivity.
  - reflexivity.
  - discriminate.
  - reflexivity.
Defined.

(** C6 as the specification states it fails on the sample tree.  The
    callback written against relative paths accepts [a.txt], yet it
    is run on [/src/a.txt] and the other enumerated paths, none of which
    is the source-relative path of a queued entry; nothing is packed. *)
Lemma C6_counterexample :
  exists run,
    Zip writer_ok open_any_fd open_any_path 20
      (sample_params (Some only_relative_a_txt) true) = Some run
    /\ only_relative_a_txt (relative_to sample_src ["/"; "src"; "a.txt"])
       = true
    /\ In ["/"; "src"; "a.txt"] (callback_runs (traversal run))
    /\ files_to_add run = []
    /\ ~ callback_sees_relative_paths
           (sample_params (Some only_relative_a_txt) true) (traversal run).
Proof.
  eexists. split; [vm_compute; reflexivity|]. split; [reflexivity|].
  split; [cbn; now left|]. split; [reflexivity|].
  intros H. destruct (H ["/"; "src"; "a.txt"]) as [e [He Heq]];
    [cbn; now left|].
  cbn in He.
  repeat (destruct He as [<- | He]; [vm_compute in Heq; discriminate|]).
  exact He.
Qed.

(** C6, as the code has it, on the sample tree. *)
Lemma C6_witness :
  exists run,
    Zip writer_ok open_any_fd open_any_path 20
      (sample_params (Some not_foo) false) = Some run
    /\ callback_runs (traversal run)
       = [ ["/"; "src"; "a.txt"]; ["/"; "src"; "foo"]; ["/"; "src"; "z.txt"] ]
    /\ callback_runs (traversal run)
       = match filter_callback (sample_params (Some not_foo) false) with
         | Some _ =>
             map path
               (filter (fun e => negb (hidden_rule_rejects
                                         (sample_params (Some not_foo) false)
                                         (path e)))
                  (tl (entries (traversal run))))
         | None => []
         end
    /\ files_to_add run
       = map (fun e => relative_to sample_src (path e))
           (filter (fun e => negb (hidden_rule_rejects
                                     (sample_params (Some not_foo) false)
                                     (path e))
                             && callback_accepts
                                  (sample_params (Some not_foo) false) (path e))
              (tl (entries (traversal run))))
    /\ (lists_immediate_children sample_accessor ->
        sample_src <> [] ->
        forall e, In e (tl (entries (traversal run))) ->
          strictly_below sample_src (path e)
          /\ path e <> relative_to sample_src (path e)
          /\ IsHiddenFile (path e)
             = IsHiddenFile (relative_to sample_src (path e))).
Proof.
  eexists. split; [vm_compute; reflexivity|]. split; [reflexivity|].
  apply (C6_filter_runs_on_enumerated_paths writer_ok open_any_fd
           open_any_path 20 (sample_params (Some not_foo) false)).
  - vm_compute. reflexivity.
  - reflexivity.
  - discriminate.
Defined.

(** C8 on the sample tree. *)
Lemma C8_witness :
  exists run,
    Zip writer_ok open_any_fd open_any_path 20 (sample_params None true)
    = Some run
    /\ files_to_add run
       = [ ["a.txt"]; ["foo"]; [".git"]; ["z.txt"]; ["foo"; "ok.txt"];
           ["foo"; "bar"]; [".git"; "config"]; ["foo"; "bar"; "deep.txt"] ]
    /\ entries (traversal run)
       = seed (sample_params None true)
           :: (ListDirectoryContent sample_accessor sample_src
                 ++ flat_map (expansion (sample_params None true))
                      (tl (entries (traversal run))))
    /\ files_to_add run
       = map (fun e => relative_to sample_src (path e))
           (filter (accepted (sample_params None true))
              (tl (entries (traversal run))))
    /\ (lists_immediate_children sample_accessor ->
        sample_src <> [] ->
        StronglySorted level_le (files_to_add run)).
Proof.
  eexists. split; [vm_compute; reflexivity|]. split; [reflexivity|].
  apply (C8_breadth_first_order writer_ok open_any_fd open_any_path 20
           (sample_params None true)).
  - vm_compute. reflexivity.
  - reflexivity.
  - discriminate.
Defined.

(** C1 as the specification states it fails on [evil.zip].  The
    archive holds the unsafe entry [../../etc/passwd]
    behind the safe entry [a.txt]: unpacking it fails, but only after
    [a.txt] has been extracted. *)
Lemma C1_counterexample :
  (exists e, In e evil_zip /\ unsafe_path (stored_path e) = true)
  /\ (exists u,
         UnzipWithFilterCallback disk 5 ["/"; "evil.zip"] sample_dest
           ExcludeNoFilesFilter true = Some (false, Some u)
         /\ extracted (reader u) = [(sample_dest, ["a.txt"])])
  /\ ~ fails_without_extracting
         (UnzipWithFilterCallback disk 5 ["/"; "evil.zip"] sample_dest
            ExcludeNoFilesFilter true).
Proof.
  split; [|split].
  - exists (good_entry [".."; ".."; "etc"; "passwd"]).
    split; [cbn; auto|reflexivity].
  - eexists. split; [vm_compute; reflexivity|reflexivity].
  - intros [u [Hrun Hnone]]. vm_compute in Hrun.
    injection Hrun as <-. discriminate.
Qed.

(** C1, as the code has it, on [evil.zip]. *)
Lemma C1_witness :
  exists u good first_bad post k,
    UnzipWithFilterCallback disk 5 ["/"; "evil.zip"] sample_dest
      ExcludeNoFilesFilter true = Some (false, Some u)
    /\ evil_zip = good ++ first_bad :: post
    /\ forallb (fun e => negb (unsafe_path (stored_path e))) good = true
    /\ unsafe_path (stored_path first_bad) = true
    /\ k <= List.length good
    /\ extracted (reader u)
       = extractions_of sample_dest
           (filter ExcludeNoFilesFilter (map stored_path (firstn k good)))
    /\ (forall c, In c (extracted (reader u)) -> unsafe_path (snd c) = false)
    /\ (good = [] -> extracted (reader u) = []).
Proof.
  apply (C1_unsafe_entry_fails_unpacking disk 5 ["/"; "evil.zip"] sample_dest
           ExcludeNoFilesFilter true evil_zip
           (good_entry [".."; ".."; "etc"; "passwd"])).
  - reflexivity.
  - cbn. auto.
  - reflexivity.
  - cbn. lia.
Defined.

(** C7 as the specification states it fails on [nested.zip].  The
    archive holds the directory entry [a], the file
    [a/b.txt] and the file [c.txt]; the filter keeps [.txt] files only.
    Unpacking succeeds, [a] is rejected, and [a] exists in the
    destination afterwards. *)
Lemma C7_counterexample :
  forallb extractable nested_zip = true
  /\ only_txt ["a"] = false
  /\ exists u,
      UnzipWithFilterCallback disk 5 ["/"; "nested.zip"] sample_dest
        only_txt true = Some (true, Some u)
      /\ extracted (reader u)
         = [(sample_dest, ["a"; "b.txt"]); (sample_dest, ["c.txt"])]
      /\ In ["a"] (materialized sample_dest (extracted (reader u)))
      /\ ~ rejected_entries_absent sample_dest only_txt nested_zip u.
Proof.
  split; [reflexivity|]. split; [reflexivity|].
  eexists. split; [vm_compute; reflexivity|]. split; [reflexivity|].
  split; [vm_compute; auto|].
  intros H. apply (H (good_entry ["a"])).
  - cbn. auto.
  - reflexivity.
  - vm_compute. auto.
Qed.

(** C7, as the code has it, on [nested.zip]. *)
Lemma C7_witness :
  exists u,
    UnzipWithFilterCallback disk 5 ["/"; "nested.zip"] sample_dest only_txt
      true = Some (true, Some u)
    /\ filter_cb_runs u = map stored_path nested_zip
    /\ extracted (reader u)
       = extractions_of sample_dest
           (filter only_txt (map stored_path nested_zip))
    /\ (forall e, In e nested_zip -> only_txt (stored_path e) = true ->
          In (sample_dest, stored_path e) (extracted (reader u))
          /\ (stored_path e <> [] ->
              In (stored_path e)
                (materialized sample_dest (extracted (reader u)))))
    /\ (forall e, In e nested_zip -> only_txt (stored_path e) = false ->
          ~ In (sample_dest, stored_path e) (extracted (reader u))
          /\ (In (stored_path e)
                (materialized sample_dest (extracted (reader u)))
              <-> exists q, In q (map stored_path nested_zip)
                            /\ only_txt q = true
                            /\ proper_ancestor (stored_path e) q)).
Proof.
  apply (C7_filter_rejection_is_not_an_error disk 5 ["/"; "nested.zip"]
           sample_dest only_txt true nested_zip).
  - reflexivity.
  - reflexivity.
  - cbn. lia.
Defined.

(** C10 on the empty archive. *)
Lemma C10_witness :
  UnzipWithFilterCallback disk 1 ["/"; "empty.zip"] sample_dest only_txt false
  = Some (true, Some (mkUnzipping (mkZipReader [] 0 None []) [] []))
  /\ Unzip disk 1 ["/"; "empty.zip"] sample_dest
     = Some (true, Some (mkUnzipping (mkZipReader [] 0 None []) [] [])).
Proof.
  apply (C10_empty_archive_unzips_trivially disk 1 ["/"; "empty.zip"]
           sample_dest only_txt false).
  - reflexivity.
  - discriminate.
Defined.

(* ===================================================================== *)
(** ** The calls on the archive *)
(* ===================================================================== *)

Section WriterCalls.

Variable minizip_ok : zipFile -> ZipOp -> bool.

Lemma forallb_snd_written (chunks : list (Z * string)) :
  forallb snd (map written chunks) = true.
Proof. induction chunks as [|c chunks IH]; [reflexivity|exact IH]. Qed.

Lemma forallb_is_write_written (chunks : list (Z * string)) :
  forallb is_write (map written chunks) = true.
Proof. induction chunks as [|c chunks IH]; [reflexivity|exact IH]. Qed.

(** The copy loop writes the chunks in order and stops at the first write
    that minizip refuses. *)
Lemma write_chunks_calls (pending : list (Z * string)) (h : zipFile) :
  write_chunks minizip_ok h pending
  = (true, h ++ map written (chunks_read pending))
  \/ exists k c,
      nth_error (chunks_read pending) k = Some c
      /\ minizip_ok (h ++ map written (firstn k (chunks_read pending)))
           (write_of c) = false
      /\ write_chunks minizip_ok h pending
         = (false,
            h ++ map written (firstn k (chunks_read pending))
              ++ [(write_of c, false)]).
Proof.
  revert h. induction pending as [|[n buf] rest IH]; intros h.
  - left. cbn. now rewrite app_nil_r.
  - cbn [write_chunks chunks_read].
    destruct (0 <? n)%Z.
    2:{ left. cbn. now rewrite app_nil_r. }
    unfold zipWriteInFileInZip, zip_call.
    destruct (minizip_ok h (OpWriteInFileInZip buf n)) eqn:Hw.
    + destruct (IH (h ++ [(OpWriteInFileInZip buf n, true)]))
        as [Hall | [k [c [Hk [Hbad Hrun]]]]].
      * left. rewrite Hall. cbn [map]. now rewrite <- app_assoc.
      * right. exists (S k), c. cbn [nth_error firstn map].
        split; [exact Hk|].
        rewrite <- app_assoc in Hbad, Hrun. cbn [app] in Hbad, Hrun.
        split; [exact Hbad|]. rewrite Hrun. reflexivity.
    + right. exists 0, (n, buf). cbn [nth_error firstn map app].
      rewrite app_nil_r. repeat split. exact Hw.
Qed.

(** The calls [AddEntryToZip] makes on the archive. *)
Lemma AddEntryToZip_calls (h : zipFile) (abs_path root_path : FilePath)
      (accessor : FileAccessor) :
  exists opened writes closed,
    AddEntryToZip minizip_ok h abs_path root_path accessor
    = (opened && source_readable accessor abs_path
         && forallb snd writes && closed,
       h ++ (OpOpenNewFileInZip (entry_name accessor root_path abs_path)
               (GetLastModifiedTime accessor abs_path), opened)
            :: (if opened
                then writes ++ [(OpCloseFileInZip, closed)]
                else []))
    /\ forallb is_write writes = true
    /\ (DirectoryExists accessor abs_path = true
        \/ IsValid (OpenFileForReading accessor abs_path) = false ->
        writes = [])
    /\ (opened = true ->
        DirectoryExists accessor abs_path = false ->
        IsValid (OpenFileForReading accessor abs_path) = true ->
        exists k,
          writes = map written (chunks_of accessor abs_path)
          \/ exists c,
              nth_error (chunks_of accessor abs_path) k = Some c
              /\ writes = map written (firstn k (chunks_of accessor abs_path))
                            ++ [(write_of c, false)]).
Proof.
  unfold AddEntryToZip, entry_name, source_readable, AsUTF8Unsafe.
  destruct (AppendRelativePath root_path abs_path []) as [result rel].
  cbn [snd].
  set (name := if DirectoryExists accessor abs_path
               then (value rel ++ "/")%string else value rel).
  unfold ZipOpenNewFileInZip, zip_call.
  set (op := OpOpenNewFileInZip name (GetLastModifiedTime accessor abs_path)).
  destruct (minizip_ok h op) eqn:Hopen.
  2:{ exists false, [], false. cbn [andb].
      split; [reflexivity|]. split; [reflexivity|].
      split; [intros _; reflexivity|]. discriminate. }
  destruct (DirectoryExists accessor abs_path) eqn:Hdir; cbn [negb].
  - unfold zipCloseFileInZip, zip_call.
    set (h1 := h ++ [(op, true)]).
    exists true, [], (minizip_ok h1 OpCloseFileInZip).
    split.
    { subst h1. rewrite <- app_assoc. cbn.
      destruct (minizip_ok (h ++ [(op, true)]) OpCloseFileInZip); reflexivity. }
    split; [reflexivity|]. split; [intros _; reflexivity|]. intros _; discriminate.
  - unfold AddFileToZip.
    destruct (IsValid (OpenFileForReading accessor abs_path)) eqn:Hvalid;
      cbn [negb orb].
    + unfold zipCloseFileInZip, zip_call.
      destruct (write_chunks_calls
                  (reads (OpenFileForReading accessor abs_path))
                  (h ++ [(op, true)]))
        as [Hall | [k [c [Hk [Hbad Hrun]]]]].
      * rewrite Hall.
        set (h2 := (h ++ [(op, true)]) ++ _).
        exists true,
          (map written
             (chunks_read (reads (OpenFileForReading accessor abs_path)))),
          (minizip_ok h2 OpCloseFileInZip).
        split.
        { subst h2. rewrite forallb_snd_written. cbn [andb].
          rewrite <- !app_assoc. cbn [app].
          destruct (minizip_ok _ OpCloseFileInZip); reflexivity. }
        split; [apply forallb_is_write_written|].
        split; [intros [?|?]; discriminate|].
        intros _ _ _. exists 0. now left.
      * rewrite Hrun.
        set (h2 := (h ++ [(op, true)]) ++ _).
        exists true,
          (map written
             (firstn k
                (chunks_read (reads (OpenFileForReading accessor abs_path))))
             ++ [(write_of c, false)]),
          (minizip_ok h2 OpCloseFileInZip).
        split.
        { subst h2. rewrite forallb_app, forallb_snd_written. cbn.
          rewrite <- !app_assoc. cbn [app].
          destruct (minizip_ok _ OpCloseFileInZip); reflexivity. }
        split.
        { rewrite forallb_app, forallb_is_write_written. reflexivity. }
        split; [intros [?|?]; discriminate|].
        intros _ _ _. exists k. right. exists c. split; [exact Hk|reflexivity].
    + unfold zipCloseFileInZip, zip_call.
      set (h1 := h ++ [(op, true)]).
      exists true, [], (minizip_ok h1 OpCloseFileInZip).
      split.
      { subst h1. rewrite <- app_assoc. cbn.
        destruct (minizip_ok (h ++ [(op, true)]) OpCloseFileInZip);
          reflexivity. }
      split; [reflexivity|]. split; [intros _; reflexivity|]. intros _; discriminate.
Qed.

End WriterCalls.

(* ===================================================================== *)
(** ** Further properties of the entry-writing phase *)
(* ===================================================================== *)

Lemma protocol_from_app (s : option WriterState) (a b : zipFile) :
  protocol_from s (a ++ b) = protocol_from (protocol_from s a) b.
Proof. unfold protocol_from. apply fold_left_app. Qed.

Lemma protocol_from_writes (writes : zipFile) :
  forallb is_write writes = true ->
  protocol_from (Some InEntry) writes = Some InEntry.
Proof.
  induction writes as [|[op ok] writes IH]; [reflexivity|].
  cbn [forallb]. intros H. apply andb_prop in H. destruct H as [Hop Hrest].
  destruct op; try discriminate. cbn. now apply IH.
Qed.

Section WritingCalls.

Variable minizip_ok : zipFile -> ZipOp -> bool.
Variable fd_opens : Z -> bool.
Variable path_opens : string -> bool.

(** Each entry leaves the writer with no entry open, whatever failed. *)
Lemma AddEntryToZip_protocol (h h' : zipFile) (b : bool)
      (abs_path root_path : FilePath) (accessor : FileAccessor) :
  AddEntryToZip minizip_ok h abs_path root_path accessor = (b, h') ->
  protocol_from (Some Idle) h = Some Idle ->
  protocol_from (Some Idle) h' = Some Idle.
Proof.
  intros Hrun Hh.
  destruct (AddEntryToZip_calls minizip_ok h abs_path root_path accessor)
    as [opened [writes [closed [Heq [Hw _]]]]].
  rewrite Heq in Hrun. injection Hrun as _ <-.
  rewrite protocol_from_app, Hh.
  destruct opened; [|reflexivity].
  change (protocol_from (Some Idle) (?c :: ?l))
    with (protocol_from (protocol_step (Some Idle) c) l).
  cbn [protocol_step]. rewrite protocol_from_app, protocol_from_writes by exact Hw.
  reflexivity.
Qed.

Lemma add_entries_protocol (params : ZipParams) (files : list FilePath) :
  forall (h h' : zipFile) (b : bool),
    add_entries minizip_ok h params files = (b, h') ->
    protocol_from (Some Idle) h = Some Idle ->
    protocol_from (Some Idle) h' = Some Idle.
Proof.
  induction files as [|f files IH]; intros h h' b Hrun Hh.
  - injection Hrun as _ <-. exact Hh.
  - cbn [add_entries] in Hrun.
    destruct (AddEntryToZip minizip_ok h (Append (src_dir params) f)
                (src_dir params) (file_accessor params)) as [[|] h1] eqn:E.
    + apply (IH h1 h' b Hrun).
      exact (AddEntryToZip_protocol _ _ _ _ _ _ E Hh).
    + injection Hrun as _ <-.
      exact (AddEntryToZip_protocol _ _ _ _ _ _ E Hh).
Qed.

(** The loop of lines 218-226 succeeds exactly when no call failed and
    every source could be read. *)
Lemma add_entries_result (params : ZipParams) (files : list FilePath) :
  forall (h h' : zipFile) (b : bool),
    add_entries minizip_ok h params files = (b, h') ->
    exists w,
      h' = h ++ w
      /\ (b = true <->
          forallb snd w = true
          /\ forallb (fun f => source_readable (file_accessor params)
                                 (Append (src_dir params) f)) files = true).
Proof.
  induction files as [|f files IH]; intros h h' b Hrun.
  - injection Hrun as <- <-. exists []. rewrite app_nil_r.
    split; [reflexivity|]. cbn. tauto.
  - cbn [add_entries] in Hrun.
    destruct (AddEntryToZip_outcome minizip_ok h (Append (src_dir params) f)
                (src_dir params) (file_accessor params))
      as [w1 [Heq _]].
    rewrite Heq in Hrun. cbn [forallb].
    destruct (forallb snd w1 && source_readable (file_accessor params)
                                  (Append (src_dir params) f)) eqn:Hok.
    + apply andb_prop in Hok. destruct Hok as [Hw1 Hr1].
      destruct (IH _ _ _ Hrun) as [w [-> Hiff]].
      exists (w1 ++ w). rewrite app_assoc. split; [reflexivity|].
      rewrite forallb_app, Hw1, Hr1. cbn [andb]. exact Hiff.
    + injection Hrun as <- <-. exists w1. split; [reflexivity|].
      split; [discriminate|]. intros [Hw Hr].
      apply andb_prop in Hr. destruct Hr as [Hr _].
      rewrite Hw, Hr in Hok. discriminate.
Qed.

(** X1.  [AddFileToZip] (lines 32-55).  A file that cannot be opened is
    an error and nothing is written.  Otherwise the chunks read before
    the first read that returns no byte or fails are written in order,
    one call each: when minizip takes them all the result is [true], also
    when the copy ended on a read error, and what the file holds behind
    that read is not written; when minizip refuses a chunk the result is
    [false] and no call follows the refused one. *)
Theorem AddFileToZip_copies_up_to_first_empty_or_failed_read
        (h : zipFile) (src_path : FilePath) (accessor : FileAccessor) :
  (IsValid (OpenFileForReading accessor src_path) = false
   /\ AddFileToZip minizip_ok h src_path accessor = (false, h))
  \/ (IsValid (OpenFileForReading accessor src_path) = true
      /\ (AddFileToZip minizip_ok h src_path accessor
          = (true, h ++ map written (chunks_of accessor src_path))
          \/ exists k c,
              nth_error (chunks_of accessor src_path) k = Some c
              /\ minizip_ok
                   (h ++ map written (firstn k (chunks_of accessor src_path)))
                   (write_of c) = false
              /\ AddFileToZip minizip_ok h src_path accessor
                 = (false,
                    h ++ map written (firstn k (chunks_of accessor src_path))
                      ++ [(write_of c, false)]))).
Proof.
  unfold AddFileToZip, chunks_of.
  destruct (IsValid (OpenFileForReading accessor src_path)); cbn [negb].
  - right. split; [reflexivity|]. apply write_chunks_calls.
  - left. split; reflexivity.
Qed.

(** X2.  [AddEntryToZip] (lines 57-88) makes one attempt to open the
    entry, under the name computed from the relative path.  When that
    fails nothing else is called.  When it succeeds the entry is closed,
    exactly once and as the last call, also when the source file could
    not be opened or a write failed; between the two there are only
    writes, none for a directory and none for a file that does not open.
    The result is [true] exactly when the three kinds of calls succeeded
    and the source was a directory or a file that opens. *)
Theorem AddEntryToZip_closes_the_entry_it_opened
        (h : zipFile) (abs_path root_path : FilePath)
        (accessor : FileAccessor) :
  exists opened writes closed,
    AddEntryToZip minizip_ok h abs_path root_path accessor
    = (opened && source_readable accessor abs_path
         && forallb snd writes && closed,
       h ++ (OpOpenNewFileInZip (entry_name accessor root_path abs_path)
               (GetLastModifiedTime accessor abs_path), opened)
            :: (if opened
                then writes ++ [(OpCloseFileInZip, closed)]
                else []))
    /\ forallb is_write writes = true
    /\ (DirectoryExists accessor abs_path = true
        \/ IsValid (OpenFileForReading accessor abs_path) = false ->
        writes = [])
    /\ (opened = true ->
        source_readable accessor abs_path = true ->
        forallb snd writes = true ->
        DirectoryExists accessor abs_path = false ->
        writes = map written (chunks_of accessor abs_path)).
Proof.
  destruct (AddEntryToZip_calls minizip_ok h abs_path root_path accessor)
    as [opened [writes [closed [Heq [Hw [Hnone Hcopy]]]]]].
  exists opened, writes, closed.
  split; [exact Heq|]. split; [exact Hw|]. split; [exact Hnone|].
  intros Hopened Hreadable Hall Hdir.
  unfold source_readable in Hreadable. rewrite Hdir in Hreadable.
  destruct (Hcopy Hopened Hdir Hreadable) as [k [Hfull | [c [_ Hcut]]]];
    [exact Hfull|].
  rewrite Hcut, forallb_app in Hall. cbn in Hall.
  rewrite andb_false_r in Hall. discriminate.
Qed.

(** X4.  [Zip] (lines 153-234) returns [true] exactly when every call
    made on the archive succeeded, the final [zipClose] included, and
    every path of [files_to_add] was a directory or a file that could be
    opened for reading. *)
Theorem Zip_succeeds_iff_nothing_failed
        (fuel : nat) (params : ZipParams) (run : ZipRun) (zf : zipFile) :
  Zip minizip_ok fd_opens path_opens fuel params = Some run ->
  archive run = Some zf ->
  (zip_result run = true <->
   forallb snd zf = true
   /\ forallb (fun f => source_readable (file_accessor params)
                          (Append (src_dir params) f))
        (files_to_add run) = true).
Proof.
  intros Hrun Hzf.
  destruct (Zip_outcome minizip_ok fd_opens path_opens fuel params run zf
              Hrun Hzf) as [b [w [_ [Hadd [-> Hres]]]]].
  destruct (add_entries_result params (files_to_add run) [] w b Hadd)
    as [w' [Hw Hiff]].
  cbn [app] in Hw. subst w'.
  rewrite Hres, forallb_app. cbn [forallb snd]. rewrite andb_true_r.
  rewrite andb_true_iff, Hiff, andb_true_iff. tauto.
Qed.

(** X5.  The calls [Zip] makes on an archive it opened follow the
    writer's call discipline on every path through the function: an entry
    is opened only while none is open, data is written only into an open
    entry, every entry that was opened is closed again, and [zipClose] is
    called exactly once, as the last call, also after an entry failed. *)
Theorem Zip_keeps_the_writer_call_discipline
        (fuel : nat) (params : ZipParams) (run : ZipRun) (zf : zipFile) :
  Zip minizip_ok fd_opens path_opens fuel params = Some run ->
  archive run = Some zf ->
  protocol_from (Some Idle) zf = Some Finished
  /\ exists w closed,
      zf = w ++ [(OpClose, closed)]
      /\ protocol_from (Some Idle) w = Some Idle.
Proof.
  intros Hrun Hzf.
  destruct (Zip_outcome minizip_ok fd_opens path_opens fuel params run zf
              Hrun Hzf) as [b [w [_ [Hadd [-> _]]]]].
  assert (Hw : protocol_from (Some Idle) w = Some Idle).
  { apply (add_entries_protocol params (files_to_add run) [] w b Hadd).
    reflexivity. }
  split.
  - rewrite protocol_from_app, Hw. reflexivity.
  - exists w, (minizip_ok w OpClose). split; [reflexivity|exact Hw].
Qed.

(** X6.  When the archive cannot be created, [Zip] (lines 156-177)
    returns [false] at once, for every source tree and without any
    traversal: no directory is listed, the callback is not run and no
    file is collected.  A valid descriptor decides alone: when it cannot
    be opened the destination path is not tried, and when it is invalid
    the destination path decides. *)
Theorem Zip_fails_early_when_the_archive_does_not_open
        (fuel : nat) (params : ZipParams) :
  (dest_fd params <> kInvalidPlatformFile
   /\ fd_opens (dest_fd params) = false)
  \/ (dest_fd params = kInvalidPlatformFile
      /\ path_opens (AsUTF8Unsafe (dest_file params)) = false) ->
  Zip minizip_ok fd_opens path_opens fuel params
  = Some (mkZipRun false None [] no_traversal).
Proof.
  intros H. unfold Zip, open_archive, OpenFdForZipping, OpenForZipping.
  destruct H as [[Hfd Hopen] | [Hfd Hopen]].
  - apply Z.eqb_neq in Hfd. rewrite Hfd. cbn [negb]. now rewrite Hopen.
  - rewrite Hfd, Z.eqb_refl. cbn [negb]. now rewrite Hopen.
Qed.

(** X7.  [Zip] returns on every finite tree.  Given a measure on paths
    that the listing of every directory stays strictly below (the number
    of paths at or below a directory is one), the traversal ends within
    [weight (src_dir)] iterations and one more, and more iterations do
    not change what [Zip] returns. *)
Theorem Zip_terminates_on_finite_trees
        (fuel : nat) (params : ZipParams) (weight : FilePath -> nat) :
  (forall dir,
      weight_of weight (ListDirectoryContent (file_accessor params) dir)
      < weight dir) ->
  weight (src_dir params) < fuel ->
  exists run,
    forall fuel', fuel <= fuel' ->
      Zip minizip_ok fd_opens path_opens fuel' params = Some run.
Proof.
  intros Hweight Hfuel.
  unfold Zip, collect_files.
  destruct (open_archive fd_opens path_opens params) as [zip_file|];
    [|eexists; intros; reflexivity].
  destruct (files_to_zip params) as [|f files].
  - destruct (traverse_terminates params weight Hweight fuel 0
                (mkTraversal [mkEntry (src_dir params) true] [] [] []))
      as [t Ht].
    { cbn. lia. }
    destruct (add_entries minizip_ok zip_file params (all_files t))
      as [success zip_file1] eqn:Hadd.
    exists (if fst (zipClose minizip_ok zip_file1)
            then mkZipRun success (Some (snd (zipClose minizip_ok zip_file1)))
                   (all_files t) t
            else mkZipRun false (Some (snd (zipClose minizip_ok zip_file1)))
                   (all_files t) t).
    intros fuel' Hle.
    rewrite (traverse_fuel_mono params fuel fuel' 0 _ t Ht Hle), Hadd.
    destruct (zipClose minizip_ok zip_file1) as [[|] zip_file2]; reflexivity.
  - destruct (add_entries minizip_ok zip_file params (f :: files))
      as [success zip_file1].
    exists (if fst (zipClose minizip_ok zip_file1)
            then mkZipRun success (Some (snd (zipClose minizip_ok zip_file1)))
                   (f :: files) no_traversal
            else mkZipRun false (Some (snd (zipClose minizip_ok zip_file1)))
                   (f :: files) no_traversal).
    intros fuel' _.
    destruct (zipClose minizip_ok zip_file1) as [[|] zip_file2]; reflexivity.
Qed.

End WritingCalls.

(* ===================================================================== *)
(** ** Further properties of the traversal *)
(* ===================================================================== *)

Lemma reachable_visit (params : ZipParams) (iter : nat) (t : Traversal)
      (e : DirectoryContentEntry) :
  (exists rest, entries t = seed params :: rest
                /\ Forall (reachable params) rest) ->
  nth_error (entries t) iter = Some e ->
  exists rest, entries (visit params (iter =? 0) e t) = seed params :: rest
               /\ Forall (reachable params) rest.
Proof.
  intros [rest [Hq Hall]] He. rewrite Hq in He.
  destruct iter as [|k]; cbn [Nat.eqb visit entries].
  - injection He as <-. cbn [seed is_directory path].
    exists (rest ++ ListDirectoryContent (file_accessor params)
                      (src_dir params)).
    split; [now rewrite Hq|].
    apply Forall_app. split; [exact Hall|].
    apply Forall_forall. intros c Hc. now apply reachable_top.
  - cbn [nth_error] in He. apply nth_error_In in He.
    exists (rest ++ expansion params e). split; [now rewrite Hq|].
    apply Forall_app. split; [exact Hall|].
    apply Forall_forall. intros c Hc. unfold expansion in Hc.
    destruct (accepted params e && is_directory e) eqn:Hexp; [|easy].
    apply andb_prop in Hexp. destruct Hexp as [Hacc Hdir].
    rewrite Forall_forall in Hall.
    exact (reachable_below params e c (Hall e He) Hacc Hdir Hc).
Qed.

Lemma traverse_reachable (params : ZipParams) (fuel : nat) (t : Traversal) :
  traverse fuel params 0 (seeded params) = Some t ->
  forall e, In e (tl (entries t)) <-> reachable params e.
Proof.
  intros Hrun.
  assert (Hsound : Forall (reachable params) (tl (entries t))).
  { destruct (traverse_invariant params
                (fun _ t => exists rest, entries t = seed params :: rest
                                         /\ Forall (reachable params) rest)
                (fun iter t e => reachable_visit params iter t e)
                fuel 0 (seeded params) t)
      as [n [[rest [Hq Hall]] _]].
    - exists []. split; [reflexivity|constructor].
    - exact Hrun.
    - rewrite Hq. exact Hall. }
  destruct (traverse_characterised params fuel t Hrun) as [Hq _].
  intros e. split.
  - rewrite Forall_forall in Hsound. apply Hsound.
  - assert (Hq' : tl (entries t)
                  = ListDirectoryContent (file_accessor params)
                      (src_dir params)
                      ++ flat_map (expansion params) (tl (entries t))).
    { rewrite Hq at 1. reflexivity. }
    remember (tl (entries t)) as q eqn:Eq. clear Eq Hq Hsound.
    intros Hreach.
    induction Hreach as [e He | d e Hd IH Hacc Hdir He]; rewrite Hq'.
    + apply in_or_app. now left.
    + apply in_or_app. right. apply in_flat_map. exists d.
      split; [exact IH|].
      unfold expansion. now rewrite Hacc, Hdir.
Qed.

(** With the hidden rule or a callback rejecting every hidden path, no
    component of a collected path starts with a dot. *)
Lemma no_dot_component (params : ZipParams) (fuel : nat) (t : Traversal) :
  (forall p, IsHiddenFile p = true -> rejected params p = true) ->
  lists_immediate_children (file_accessor params) ->
  src_dir params <> [] ->
  traverse fuel params 0 (seeded params) = Some t ->
  forall r n, In r (all_files t) -> In n r -> ~ starts_with_dot n.
Proof.
  intros Hhidden Hwf Hsrc Hrun r n Hr Hn Hdot.
  destruct (traverse_characterised params fuel t Hrun) as [_ [Hfiles _]].
  pose proof (traverse_well_placed params fuel t Hwf Hrun) as Hplaced.
  rewrite Hfiles in Hr. apply in_map_iff in Hr.
  destruct Hr as [e [<- He]]. apply filter_In in He.
  destruct He as [He Hacc].
  rewrite Forall_forall in Hplaced.
  destruct (Hplaced e He) as [s [Hs [Hnames [Hpath Hprefix]]]].
  assert (Hrel : relative_to (src_dir params) (path e) = s).
  { rewrite Hpath. apply relative_to_below; try assumption.
    destruct s as [|c s]; [congruence|]. cbn [hd].
    apply Forall_inv in Hnames. now apply is_file_name_inv in Hnames. }
  rewrite Hrel in Hn. apply in_split in Hn. destruct Hn as [a [b Hsplit]].
  assert (Hkept : rejected params (src_dir params ++ a ++ [n]) = false).
  { destruct b as [|c b].
    - rewrite <- Hsplit, <- Hpath. unfold accepted in Hacc.
      now apply negb_true_iff in Hacc.
    - apply (Hprefix (a ++ [n]) (c :: b)).
      + rewrite Hsplit, <- app_assoc. reflexivity.
      + intros E. now apply app_eq_nil in E.
      + discriminate. }
  assert (Hhid : IsHiddenFile (src_dir params ++ a ++ [n]) = true).
  { rewrite IsHiddenFile_below by (intros E; now apply app_eq_nil in E).
    apply IsHiddenFile_spec. exists n. split; [|exact Hdot].
    unfold final_component. destruct (a ++ [n]) eqn:E.
    - now apply app_eq_nil in E.
    - rewrite <- E. now rewrite last_last. }
  apply Hhidden in Hhid. congruence.
Qed.

Lemma firstn_filter_In {A : Type} (f : A -> bool) (k : nat) (l : list A)
      (x : A) :
  In x (firstn k (filter f l)) -> In x l /\ f x = true.
Proof. intros H. apply In_firstn in H. now apply filter_In in H. Qed.

Section TraversalFacts.

Variable minizip_ok : zipFile -> ZipOp -> bool.
Variable fd_opens : Z -> bool.
Variable path_opens : string -> bool.


(** X10.  The calls of [ListDirectoryContent] that [Zip] makes (line
    212): the source directory first, then each queued entry that passed
    the filters and is flagged as a directory, in queue order and one
    call per queue position.  An entry flagged as a file is never listed,
    and neither is a rejected one. *)
Theorem Zip_lists_the_accepted_directories_in_queue_order
        (fuel : nat) (params : ZipParams) (run : ZipRun) :
  Zip minizip_ok fd_opens path_opens fuel params = Some run ->
  files_to_zip params = [] ->
  archive run <> None ->
  listed (traversal run)
  = src_dir params
      :: map path (filter (fun e => accepted params e && is_directory e)
                     (tl (entries (traversal run))))
  /\ (forall p, In p (tl (listed (traversal run))) ->
        exists e, reachable params e
                  /\ path e = p
                  /\ accepted params e = true
                  /\ is_directory e = true).
Proof.
  intros Hrun Hfull Harchive.
  destruct (Zip_full_tree minizip_ok fd_opens path_opens fuel params run
              Hrun Hfull Harchive) as [Htrav _].
  pose proof (traverse_reachable params fuel _ Htrav) as Hreach.
  destruct (traverse_characterised params fuel _ Htrav)
    as [_ [_ [_ Hlisted]]].
  split; [exact Hlisted|].
  intros p Hp. rewrite Hlisted in Hp. cbn [tl] in Hp.
  apply in_map_iff in Hp. destruct Hp as [e [<- He]].
  apply filter_In in He. destruct He as [He Hok].
  apply andb_prop in Hok. destruct Hok as [Hacc Hdir].
  exists e. split; [now apply Hreach|]. now repeat split.
Qed.

(** X11.  With [include_hidden_files] off, [Zip] packs no path that has a
    hidden component anywhere: not only the final component of a packed
    path is free of a leading dot (lines 195-196), every component is,
    because a hidden directory is not entered.  (Accessor contract: the
    entries listed for a directory are its immediate children.) *)
Theorem Zip_without_hidden_files_packs_no_dotted_component
        (fuel : nat) (params : ZipParams) (run : ZipRun) :
  lists_immediate_children (file_accessor params) ->
  src_dir params <> [] ->
  include_hidden_files params = false ->
  Zip minizip_ok fd_opens path_opens fuel params = Some run ->
  files_to_zip params = [] ->
  archive run <> None ->
  forall r n, In r (files_to_add run) -> In n r -> ~ starts_with_dot n.
Proof.
  intros Hwf Hsrc Hflag Hrun Hfull Harchive.
  destruct (Zip_full_tree minizip_ok fd_opens path_opens fuel params run
              Hrun Hfull Harchive) as [Htrav ->].
  apply (no_dot_component params fuel _); try assumption.
  intros p Hp. unfold rejected, hidden_rule_rejects.
  now rewrite Hflag, Hp.
Qed.

(** X13.  The overload [Zip(src_dir, dest_file, include_hidden_files)]
    (lines 288-297).  Called with [false] it packs no path with a hidden
    component, whatever the initial value of the flag in [ZipParams] is:
    the callback it installs rejects hidden paths.  Called with [true]
    its callback accepts everything, so that the flag of [ZipParams]
    alone decides: the entries packed are the queued entries that are
    not hidden, or all of them when the flag starts out [true]. *)
Theorem Zip_overload_hidden_files
        (fuel : nat) (direct_file_accessor : FileAccessor)
        (include_hidden_files_default : bool) (src dest : FilePath)
        (include_hidden : bool) (run : ZipRun) :
  ZipDirectory minizip_ok fd_opens path_opens fuel direct_file_accessor
    include_hidden_files_default src dest include_hidden = Some run ->
  archive run <> None ->
  (include_hidden = false ->
   lists_immediate_children direct_file_accessor ->
   src <> [] ->
   forall r n, In r (files_to_add run) -> In n r -> ~ starts_with_dot n)
  /\ (include_hidden = true ->
      files_to_add run
      = map (fun e => relative_to src (path e))
          (filter (fun e => include_hidden_files_default
                            || negb (IsHiddenFile (path e)))
             (tl (entries (traversal run))))).
Proof.
  intros Hrun Harchive.
  unfold ZipDirectory, ZipWithFilterCallback in Hrun.
  split.
  - intros -> Hwf Hsrc.
    destruct (Zip_full_tree minizip_ok fd_opens path_opens fuel _ run
                Hrun eq_refl Harchive) as [Htrav ->].
    apply (no_dot_component
             (mkZipParams src dest kInvalidPlatformFile direct_file_accessor
                [] (Some ExcludeHiddenFilesFilter)
                include_hidden_files_default) fuel (traversal run));
      try assumption.
    intros p Hp. unfold rejected, callback_accepts, ExcludeHiddenFilesFilter.
    cbn [filter_callback]. rewrite Hp. apply orb_true_r.
  - intros ->.
    destruct (Zip_full_tree minizip_ok fd_opens path_opens fuel _ run
                Hrun eq_refl Harchive) as [Htrav ->].
    destruct (traverse_characterised _ fuel _ Htrav) as [_ [Hall _]].
    rewrite Hall. cbn [src_dir]. f_equal. apply filter_ext. intros e.
    unfold accepted, rejected, hidden_rule_rejects, callback_accepts,
      ExcludeNoFilesFilter.
    cbn [include_hidden_files filter_callback negb].
    rewrite orb_false_r, negb_andb, negb_involutive. reflexivity.
Qed.

(** X14.  [ZipFiles] (lines 300-308) called with an empty list of
    relative paths does not write an empty archive: [Zip] takes an empty
    list for "no list" (line 183) and packs the tree below the source
    directory, hidden files by the initial flag of [ZipParams] and with
    no callback. *)
Theorem ZipFiles_with_no_path_packs_the_tree
        (fuel : nat) (direct_file_accessor : FileAccessor)
        (include_hidden_files_default : bool) (src : FilePath) (fd : Z)
        (run : ZipRun) :
  ZipFiles minizip_ok fd_opens path_opens fuel direct_file_accessor
    include_hidden_files_default src [] fd = Some run ->
  archive run <> None ->
  hd_error (listed (traversal run)) = Some src
  /\ callback_runs (traversal run) = []
  /\ (forall e, In e (ListDirectoryContent direct_file_accessor src) ->
        In e (tl (entries (traversal run))))
  /\ files_to_add run
     = map (fun e => relative_to src (path e))
         (filter (fun e => include_hidden_files_default
                           || negb (IsHiddenFile (path e)))
            (tl (entries (traversal run)))).
Proof.
  intros Hrun Harchive. unfold ZipFiles in Hrun.
  destruct (Zip_full_tree minizip_ok fd_opens path_opens fuel _ run
              Hrun eq_refl Harchive) as [Htrav ->].
  destruct (traverse_characterised _ fuel _ Htrav)
    as [Hq [Hall [Hruns Hlisted]]].
  cbn [src_dir file_accessor] in *.
  split; [now rewrite Hlisted|].
  split; [now rewrite Hruns|].
  split.
  { intros e He. rewrite Hq at 1. cbn [tl]. apply in_or_app. now left. }
  rewrite Hall. f_equal. apply filter_ext. intros e.
  unfold accepted, rejected, hidden_rule_rejects, callback_accepts.
  cbn [include_hidden_files filter_callback negb].
  rewrite orb_false_r, negb_andb, negb_involutive. reflexivity.
Qed.

(** X12.  The archive that full-tree packing writes.  When the flags of
    the listed entries agree with [DirectoryExists] (as they do for
    [DirectFileAccessor]), the entries are attempted in queue order
    under the names of the accepted queued entries: the source-relative
    path, with a trailing separator exactly for the entries the traversal
    entered as directories; on success every accepted queued entry has
    its archive entry.  (Accessor contract: listed entries are immediate
    children; the source directory is neither empty nor the current
    directory.) *)
Theorem Zip_names_the_entries_after_the_queue
        (fuel : nat) (params : ZipParams) (run : ZipRun) (zf : zipFile) :
  lists_immediate_children (file_accessor params) ->
  flags_agree (file_accessor params) ->
  src_dir params <> [] ->
  src_dir params <> [kCurrentDirectory] ->
  Zip minizip_ok fd_opens path_opens fuel params = Some run ->
  files_to_zip params = [] ->
  archive run = Some zf ->
  (exists k,
      open_attempts zf
      = map (archive_name params)
          (firstn k (filter (accepted params)
                       (tl (entries (traversal run))))))
  /\ (zip_result run = true ->
      entry_names zf
      = map (archive_name params)
          (filter (accepted params) (tl (entries (traversal run))))).
Proof.
  intros Hwf Hflags Hsrc Hcur Hrun Hfull Hzf.
  assert (Harchive : archive run <> None) by (rewrite Hzf; discriminate).
  destruct (Zip_full_tree minizip_ok fd_opens path_opens fuel params run
              Hrun Hfull Harchive) as [Htrav Hfiles].
  destruct (traverse_characterised params fuel _ Htrav) as [_ [Hall _]].
  pose proof (traverse_well_placed params fuel _ Hwf Htrav) as Hplaced.
  pose proof (traverse_reachable params fuel _ Htrav) as Hreach.
  rewrite Forall_forall in Hplaced.
  assert (Hname : forall e, In e (tl (entries (traversal run))) ->
            str_path_of params (relative_to (src_dir params) (path e))
            = archive_name params e).
  { intros e He.
    assert (Hdir : DirectoryExists (file_accessor params) (path e)
                   = is_directory e).
    { apply Hreach in He. destruct He as [e He | d e _ _ _ He];
        exact (Hflags _ e He). }
    destruct (Hplaced e He) as [s [Hs [Hnames [Hpath _]]]].
    assert (Hhd : hd "" s <> kCurrentDirectory).
    { destruct s as [|c s]; [congruence|]. cbn [hd].
      apply Forall_inv in Hnames. now apply is_file_name_inv in Hnames. }
    unfold archive_name.
    rewrite Hpath, relative_to_below by assumption.
    rewrite str_path_of_listed by (try assumption; now split).
    unfold listed_entry_name. now rewrite <- Hpath, Hdir. }
  destruct (Zip_attempts minizip_ok fd_opens path_opens fuel params run zf
              Hrun Hzf) as [[k Hk] Hok].
  rewrite Hfiles, Hall in Hk, Hok.
  split.
  - exists k. rewrite Hk, firstn_map, map_map.
    apply map_ext_in. intros e He.
    apply firstn_filter_In in He. now apply Hname.
  - intros Hres. rewrite (Hok Hres), map_map.
    apply map_ext_in. intros e He. apply filter_In in He.
    now apply Hname.
Qed.

End TraversalFacts.

(** X15.  [DirectFileAccessor::ListDirectoryContent] (lines 114-125)
    returns the paths the enumerator yields before the first empty one,
    in that order: no entry with an empty path is returned, and what the
    enumerator yields behind an empty path is dropped.  Each entry is
    flagged with the answer of [base::DirectoryExists] for its path, the
    answer [DirectFileAccessor::DirectoryExists] gives for it: the flags
    agree. *)
Theorem DirectFileAccessor_lists_up_to_the_first_empty_path
        (fs : FileSystem) (dir : FilePath) :
  (exists k,
      map path (ListDirectoryContent (DirectFileAccessor fs) dir)
      = firstn k (FileEnumerator_Next fs dir)
      /\ (forall p, nth_error (FileEnumerator_Next fs dir) k = Some p ->
            value p = ""))
  /\ (forall e, In e (ListDirectoryContent (DirectFileAccessor fs) dir) ->
        value (path e) <> ""
        /\ is_directory e = DirectoryExists (DirectFileAccessor fs) (path e))
  /\ flags_agree (DirectFileAccessor fs).
Proof.
  assert (Hloop : forall next,
             (exists k,
                 map path (push_enumerated fs next) = firstn k next
                 /\ (forall p, nth_error next k = Some p -> value p = ""))
             /\ (forall e, In e (push_enumerated fs next) ->
                   value (path e) <> ""
                   /\ is_directory e = base_DirectoryExists fs (path e))).
  { induction next as [|p next [[k [Hk Hend]] Hall]].
    - split; [|easy]. exists 0. split; [reflexivity|]. discriminate.
    - cbn [push_enumerated].
      destruct (String.eqb (value p) "") eqn:E.
      + split; [|easy]. exists 0. split; [reflexivity|].
        intros q Hq. injection Hq as <-. now apply String.eqb_eq.
      + split.
        * exists (S k). cbn [map path firstn nth_error]. now rewrite Hk.
        * intros e [<- | He]; [|now apply Hall].
          cbn [path is_directory]. split; [|reflexivity].
          now apply String.eqb_neq. }
  split; [|split].
  - apply (Hloop (FileEnumerator_Next fs dir)).
  - apply (Hloop (FileEnumerator_Next fs dir)).
  - intros d e He. symmetry.
    now apply (Hloop (FileEnumerator_Next fs d)).
Qed.

(* ===================================================================== *)
(** ** Further properties of the extraction loop *)
(* ===================================================================== *)

(** The loop on any archive: it returns whether every entry passes, and
    stops at the first entry that does not. *)
Lemma unzip_loop_outcome (dest_dir : FilePath)
      (filter_cb : FilePath -> bool) (log_skipped_files : bool) :
  forall rest pre ci x runs skipped fuel,
    List.length rest < fuel ->
    exists u,
      unzip_loop fuel dest_dir filter_cb log_skipped_files
        (mkUnzipping
           (mkZipReader (pre ++ rest) (List.length pre) ci x) runs skipped)
      = Some (forallb (passes filter_cb) rest, u)
      /\ position (reader u)
         = List.length pre + List.length (passing_prefix filter_cb rest)
      /\ extracted (reader u)
         = x ++ extractions_of dest_dir
                  (filter filter_cb
                     (map stored_path (passing_prefix filter_cb rest)))
             ++ extracted_at_stop dest_dir filter_cb rest
      /\ (forallb (passes filter_cb) rest = true ->
          filter_cb_runs u = runs ++ map stored_path rest).
Proof.
  induction rest as [|e rest IH]; intros pre ci x runs skipped fuel Hfuel;
    (destruct fuel as [|fuel]; [lia|]).
  - eexists. rewrite unzip_loop_step. cbn [reader].
    rewrite app_nil_r, HasMore_end. cbn [negb].
    split; [reflexivity|].
    cbn [reader position extracted filter_cb_runs passing_prefix map filter
           extractions_of List.length forallb].
    unfold extracted_at_stop. cbn [passing_prefix List.length nth_error].
    rewrite !app_nil_r. repeat split; auto; lia.
  - specialize (IH (pre ++ [e]) None).
    rewrite <- app_assoc in IH. cbn [app] in IH.
    replace (List.length (pre ++ [e])) with (S (List.length pre)) in IH
      by (rewrite length_app; cbn; lia).
    rewrite unzip_loop_step. cbn [reader filter_cb_runs skipped_log].
    rewrite HasMore_middle. cbn [negb].
    unfold OpenCurrentEntryInZip, ExtractCurrentEntryIntoDirectory,
      AdvanceToNextEntry.
    cbn [zip_entries position current_entry_info extracted].
    rewrite nth_error_middle.
    unfold extracted_at_stop at 1. cbn [forallb passing_prefix].
    assert (Hp : passes filter_cb e
                 = opens e && negb (unsafe_path (stored_path e))
                   && (negb (filter_cb (stored_path e)) || extracts e)
                   && advances e) by reflexivity.
    rewrite Hp. clear Hp.
    destruct (opens e) eqn:Hopens; cbn [andb].
    2:{ eexists. split; [reflexivity|].
        cbn [reader position extracted List.length map filter
               extractions_of nth_error]. rewrite Hopens. cbn [andb].
        rewrite !app_nil_r. repeat split; auto; try lia; try discriminate. }
    cbn [current_entry_info zip_entries position extracted is_unsafe
           entry_info_of file_path].
    destruct (unsafe_path (stored_path e)) eqn:Hsafe; cbn [negb andb].
    { eexists. split; [reflexivity|].
      cbn [reader position extracted List.length map filter extractions_of
             nth_error]. rewrite Hopens, Hsafe. cbn [andb negb].
      rewrite !app_nil_r. repeat split; auto; try lia; try discriminate. }
    destruct (filter_cb (stored_path e)) eqn:Hcb; cbn [negb orb].
    + rewrite nth_error_middle.
      destruct (extracts e) eqn:Hextracts; cbn [andb].
      2:{ eexists. split; [reflexivity|].
          cbn [reader position extracted List.length map filter
                 extractions_of nth_error].
          rewrite Hopens, Hsafe, Hcb, Hextracts. cbn [andb negb].
          rewrite !app_nil_r. repeat split; auto; try lia; try discriminate. }
      cbn [zip_entries position extracted current_entry_info].
      rewrite nth_error_middle.
      destruct (advances e); cbn [andb].
      2:{ eexists. split; [reflexivity|].
          cbn [reader position extracted List.length map filter
                 extractions_of app nth_error].
          rewrite Hopens, Hsafe, Hcb, Hextracts. cbn [andb negb].
          split; [lia|]. split; [reflexivity|]. discriminate. }
      destruct (IH (x ++ [(dest_dir, stored_path e)])
                  (runs ++ [stored_path e]) skipped fuel)
        as [u [Hrun [Hpos [Hx Hall]]]]; [cbn in Hfuel; lia|].
      exists u. split; [exact Hrun|].
      split; [rewrite Hpos; cbn [List.length]; lia|].
      split.
      { rewrite Hx. cbn [map filter List.length nth_error]. rewrite Hcb.
        unfold extractions_of, extracted_at_stop. cbn [map].
        rewrite <- !app_assoc. reflexivity. }
      intros Hok. rewrite (Hall Hok). cbn [map]. now rewrite <- app_assoc.
    + rewrite nth_error_middle.
      destruct (advances e); cbn [andb].
      2:{ eexists. split; [reflexivity|].
          cbn [reader position extracted List.length map filter
                 extractions_of nth_error].
          rewrite Hopens, Hsafe, Hcb. cbn [andb negb].
          rewrite !app_nil_r. repeat split; auto; try lia; try discriminate. }
      destruct (IH x (runs ++ [stored_path e])
                  (if log_skipped_files
                   then skipped ++ [stored_path e] else skipped) fuel)
        as [u [Hrun [Hpos [Hx Hall]]]]; [cbn in Hfuel; lia|].
      exists u. split; [exact Hrun|].
      split; [rewrite Hpos; cbn [List.length]; lia|].
      split.
      { rewrite Hx. cbn [map filter List.length nth_error]. now rewrite Hcb. }
      intros Hok. rewrite (Hall Hok). cbn [map]. now rewrite <- app_assoc.
Qed.

(** The loop stops on an entry it does not get past, and on none when
    every entry passes. *)
Lemma passing_prefix_stop (filter_cb : FilePath -> bool)
      (es : list ArchiveEntry) :
  (forall e,
      nth_error es (List.length (passing_prefix filter_cb es)) = Some e ->
      passes filter_cb e = false)
  /\ (forallb (passes filter_cb) es = true ->
      nth_error es (List.length (passing_prefix filter_cb es)) = None).
Proof.
  induction es as [|a es [IH1 IH2]]; [split; [discriminate|reflexivity]|].
  cbn [passing_prefix forallb].
  destruct (passes filter_cb a) eqn:Ha; cbn [List.length nth_error andb].
  - split; [exact IH1|exact IH2].
  - split; [|discriminate]. intros e He. injection He as <-. exact Ha.
Qed.

(** What the loop logs: with logging on, the rejected arguments of the
    filter, in order; with logging off, nothing. *)
Lemma unzip_loop_log (dest_dir : FilePath) (filter_cb : FilePath -> bool)
      (log_skipped_files : bool) :
  forall fuel u b u',
    unzip_loop fuel dest_dir filter_cb log_skipped_files u = Some (b, u') ->
    skipped_log u
    = (if log_skipped_files then rejected_runs filter_cb u else []) ->
    skipped_log u'
    = (if log_skipped_files then rejected_runs filter_cb u' else []).
Proof.
  induction fuel as [|fuel IH]; intros u b u' Hrun Hlog; [discriminate|].
  rewrite unzip_loop_step in Hrun.
  destruct (negb (HasMore (reader u))).
  { injection Hrun as <- <-. exact Hlog. }
  destruct (OpenCurrentEntryInZip (reader u)) as [[|] r1].
  2:{ injection Hrun as <- <-. exact Hlog. }
  destruct (current_entry_info r1) as [info|]; [|discriminate].
  destruct (is_unsafe info).
  { injection Hrun as <- <-. exact Hlog. }
  assert (Hkeep : filter_cb (file_path info) = true ->
            skipped_log u
            = (if log_skipped_files
               then filter (fun p => negb (filter_cb p))
                      (filter_cb_runs u ++ [file_path info])
               else [])).
  { intros Hcb. rewrite Hlog. unfold rejected_runs.
    rewrite filter_app. cbn [filter]. rewrite Hcb. cbn [negb].
    now rewrite app_nil_r. }
  assert (Hskip : filter_cb (file_path info) = false ->
            (if log_skipped_files
             then skipped_log u ++ [file_path info] else skipped_log u)
            = (if log_skipped_files
               then filter (fun p => negb (filter_cb p))
                      (filter_cb_runs u ++ [file_path info])
               else [])).
  { intros Hcb. rewrite Hlog. unfold rejected_runs.
    rewrite filter_app. cbn [filter]. rewrite Hcb. cbn [negb].
    now destruct log_skipped_files. }
  destruct (filter_cb (file_path info)) eqn:Hcb.
  - specialize (Hkeep eq_refl).
    destruct (ExtractCurrentEntryIntoDirectory r1 dest_dir) as [[|] r2].
    2:{ injection Hrun as <- <-. exact Hkeep. }
    destruct (AdvanceToNextEntry r2) as [[|] r3].
    2:{ injection Hrun as <- <-. exact Hkeep. }
    exact (IH _ _ _ Hrun Hkeep).
  - specialize (Hskip eq_refl). cbv zeta in Hrun.
    destruct (AdvanceToNextEntry r1) as [[|] r3].
    2:{ injection Hrun as <- <-. exact Hskip. }
    exact (IH _ _ _ Hrun Hskip).
Qed.

(** The logging flag changes the log and nothing else. *)
Lemma unzip_loop_without_log (dest_dir : FilePath)
      (filter_cb : FilePath -> bool) :
  forall fuel u,
    unzip_loop fuel dest_dir filter_cb false (without_log u)
    = option_map (fun r => (fst r, without_log (snd r)))
        (unzip_loop fuel dest_dir filter_cb true u).
Proof.
  induction fuel as [|fuel IH]; intros u; [reflexivity|].
  rewrite !unzip_loop_step.
  cbn [without_log reader filter_cb_runs skipped_log].
  destruct (negb (HasMore (reader u))); [reflexivity|].
  destruct (OpenCurrentEntryInZip (reader u)) as [[|] r1]; [|reflexivity].
  destruct (current_entry_info r1) as [info|]; [|reflexivity].
  destruct (is_unsafe info); [reflexivity|].
  destruct (filter_cb (file_path info)).
  - destruct (ExtractCurrentEntryIntoDirectory r1 dest_dir) as [[|] r2];
      [|reflexivity].
    destruct (AdvanceToNextEntry r2) as [[|] r3]; [|reflexivity].
    exact (IH (mkUnzipping r3 (filter_cb_runs u ++ [file_path info])
                 (skipped_log u))).
  - cbv zeta.
    destruct (AdvanceToNextEntry r1) as [[|] r3]; [|reflexivity].
    exact (IH (mkUnzipping r3 (filter_cb_runs u ++ [file_path info])
                 (skipped_log u ++ [file_path info]))).
Qed.

Lemma passes_ExcludeNoFilesFilter (e : ArchiveEntry) :
  passes ExcludeNoFilesFilter e = extractable e.
Proof.
  unfold passes, extractable, ExcludeNoFilesFilter.
  destruct (opens e), (unsafe_path (stored_path e)), (extracts e),
    (advances e); reflexivity.
Qed.

Section UnpackingFacts.

Variable archive_at : FilePath -> option (list ArchiveEntry).

(** X16.  [UnzipWithFilterCallback] (lines 241-277) on any archive that
    opens.  It returns [true] exactly when every entry opens, is safe, is
    extracted if the filter accepts it, and can be advanced past.
    Otherwise it stops at the first entry that falls short: the reader
    stays on that entry, and what was extracted are the accepted entries
    before it, in archive order, followed by that entry itself exactly
    when it opened, is safe, was accepted and was extracted, that is,
    when advancing past it is the only step that failed.  The loop needs
    one iteration per entry and one more. *)
Theorem UnzipWithFilterCallback_succeeds_iff_every_entry_passes
        (fuel : nat) (src_file dest_dir : FilePath)
        (filter_cb : FilePath -> bool) (log_skipped_files : bool)
        (es : list ArchiveEntry) :
  archive_at src_file = Some es ->
  List.length es < fuel ->
  exists u,
    UnzipWithFilterCallback archive_at fuel src_file dest_dir filter_cb
      log_skipped_files
    = Some (forallb (passes filter_cb) es, Some u)
    /\ position (reader u) = List.length (passing_prefix filter_cb es)
    /\ extracted (reader u)
       = extractions_of dest_dir
           (filter filter_cb
              (map stored_path (passing_prefix filter_cb es)))
           ++ match nth_error es
                      (List.length (passing_prefix filter_cb es)) with
              | Some e =>
                  if opens e && negb (unsafe_path (stored_path e))
                     && filter_cb (stored_path e) && extracts e
                  then [(dest_dir, stored_path e)]
                  else []
              | None => []
              end
    /\ (forall e,
          nth_error es (List.length (passing_prefix filter_cb es)) = Some e ->
          passes filter_cb e = false
          /\ (opens e && negb (unsafe_path (stored_path e))
              && filter_cb (stored_path e) && extracts e = true ->
              advances e = false))
    /\ (forallb (passes filter_cb) es = true ->
        nth_error es (List.length (passing_prefix filter_cb es)) = None).
Proof.
  intros Harchive Hfuel.
  destruct (unzip_loop_outcome dest_dir filter_cb log_skipped_files
              es [] None [] [] [] fuel Hfuel)
    as [u [Hrun [Hpos [Hx _]]]].
  cbn [app List.length] in Hrun, Hpos, Hx.
  destruct (passing_prefix_stop filter_cb es) as [Hstop Hnone].
  exists u. split.
  { unfold UnzipWithFilterCallback, Open. now rewrite Harchive, Hrun. }
  split; [exact Hpos|]. split; [exact Hx|]. split; [|exact Hnone].
  intros e He. pose proof (Hstop e He) as Hfails.
  split; [exact Hfails|]. intros Hdone.
  unfold passes in Hfails.
  repeat (apply andb_prop in Hdone; destruct Hdone as [Hdone ?]).
  rewrite Hdone in Hfails.
  match goal with H : negb _ = true |- _ => rewrite H in Hfails end.
  match goal with H : extracts e = true |- _ => rewrite H in Hfails end.
  rewrite orb_true_r in Hfails. exact Hfails.
Qed.

(** X18.  [Unzip] (lines 236-239) has no filter to speak of: it returns
    [true] exactly when every entry of the archive is safe and no reader
    operation fails on it, and then every entry has been extracted, in
    archive order.  Although it asks for skipped files to be logged, it
    never logs one. *)
Theorem Unzip_extracts_every_entry_or_fails
        (fuel : nat) (src_file dest_dir : FilePath)
        (es : list ArchiveEntry) :
  archive_at src_file = Some es ->
  List.length es < fuel ->
  exists u,
    Unzip archive_at fuel src_file dest_dir
    = Some (forallb extractable es, Some u)
    /\ skipped_log u = []
    /\ (forallb extractable es = true ->
        extracted (reader u)
        = extractions_of dest_dir (map stored_path es)
        /\ filter_cb_runs u = map stored_path es).
Proof.
  intros Harchive Hfuel.
  destruct (unzip_loop_outcome dest_dir ExcludeNoFilesFilter true
              es [] None [] [] [] fuel Hfuel)
    as [u [Hrun [_ [Hx Hall]]]].
  cbn [app List.length] in Hrun, Hx, Hall.
  assert (Hsame : forallb (passes ExcludeNoFilesFilter) es
                  = forallb extractable es).
  { clear. induction es as [|e es IH]; [reflexivity|].
    cbn [forallb]. now rewrite passes_ExcludeNoFilesFilter, IH. }
  rewrite Hsame in Hrun, Hall.
  exists u. split.
  { unfold Unzip, UnzipWithFilterCallback, Open.
    now rewrite Harchive, Hrun. }
  split.
  - rewrite (unzip_loop_log dest_dir ExcludeNoFilesFilter true fuel _ _ u
               Hrun eq_refl).
    unfold rejected_runs, ExcludeNoFilesFilter.
    generalize (filter_cb_runs u). clear.
    induction l as [|p ps IH]; [reflexivity|exact IH].
  - intros Hok. pose proof (Hall Hok) as Hruns.
    split; [|exact Hruns].
    assert (Hstop : extracted_at_stop dest_dir ExcludeNoFilesFilter es = []).
    { unfold extracted_at_stop.
      rewrite <- Hsame in Hok.
      now rewrite (proj2 (passing_prefix_stop ExcludeNoFilesFilter es) Hok). }
    rewrite Hx, Hstop, app_nil_r. f_equal.
    assert (Hpre : passing_prefix ExcludeNoFilesFilter es = es).
    { clear - Hok. induction es as [|e es IH]; [reflexivity|].
      cbn [forallb] in Hok. apply andb_prop in Hok.
      destruct Hok as [He Hrest].
      cbn [passing_prefix].
      now rewrite passes_ExcludeNoFilesFilter, He, IH. }
    rewrite Hpre. unfold ExcludeNoFilesFilter.
    generalize (map stored_path es). clear.
    induction l as [|p ps IH]; [reflexivity|].
    cbn [filter]. now rewrite IH.
Qed.

(** X19.  The flag [log_skipped_files] of [UnzipWithFilterCallback]
    (lines 266-269) changes what is logged and nothing else: the value
    returned, the state of the reader, what was extracted and the
    arguments the filter was run on are the same with the flag on and
    off.  With the flag on the paths logged are the arguments the filter
    rejected, in order; with the flag off nothing is logged. *)
Theorem UnzipWithFilterCallback_logging_changes_the_log_only
        (fuel : nat) (src_file dest_dir : FilePath)
        (filter_cb : FilePath -> bool) :
  UnzipWithFilterCallback archive_at fuel src_file dest_dir filter_cb false
  = option_map (fun r => (fst r, option_map without_log (snd r)))
      (UnzipWithFilterCallback archive_at fuel src_file dest_dir filter_cb
         true)
  /\ forall (log_skipped_files b : bool) (u : Unzipping),
      UnzipWithFilterCallback archive_at fuel src_file dest_dir filter_cb
        log_skipped_files = Some (b, Some u) ->
      skipped_log u
      = if log_skipped_files then rejected_runs filter_cb u else [].
Proof.
  unfold UnzipWithFilterCallback.
  destruct (Open archive_at src_file) as [r|]; [|split; [reflexivity|]].
  2:{ intros log b u H. discriminate. }
  split.
  - change (mkUnzipping r [] []) with (without_log (mkUnzipping r [] [])) at 1.
    rewrite unzip_loop_without_log.
    destruct (unzip_loop fuel dest_dir filter_cb true (mkUnzipping r [] []))
      as [[b u]|]; reflexivity.
  - intros log b u H.
    destruct (unzip_loop fuel dest_dir filter_cb log (mkUnzipping r [] []))
      as [[b' u']|] eqn:Hrun; [|discriminate].
    injection H as <- <-.
    apply (unzip_loop_log dest_dir filter_cb log fuel _ _ _ Hrun).
    now destruct log.
Qed.

End UnpackingFacts.

(* ===================================================================== *)
(** ** Edge cases of packing and unpacking *)
(* ===================================================================== *)

Lemma AppendRelativePath_failure (parent child acc : FilePath) :
  fst (AppendRelativePath parent child acc) = false ->
  snd (AppendRelativePath parent child acc) = acc.
Proof.
  unfold AppendRelativePath.
  destruct (empty (GetComponents parent)
            || (List.length (GetComponents child)
                <=? List.length (GetComponents parent))); [reflexivity|].
  destruct (FilePath_eqb (GetComponents parent)
              (firstn (List.length (GetComponents parent))
                 (GetComponents child))); [discriminate|reflexivity].
Qed.

Lemma Append_empty (p : FilePath) : Append p [] = p.
Proof.
  unfold Append. cbn [empty negb]. rewrite andb_false_r. apply app_nil_r.
Qed.

Lemma passing_prefix_passes (filter_cb : FilePath -> bool)
      (es : list ArchiveEntry) (e : ArchiveEntry) :
  In e (passing_prefix filter_cb es) ->
  In e es /\ passes filter_cb e = true.
Proof.
  induction es as [|a es IH]; [easy|].
  cbn [passing_prefix]. destruct (passes filter_cb a) eqn:Ha; [|easy].
  intros [<- | Hin].
  - split; [now left|exact Ha].
  - destruct (IH Hin) as [H1 H2]. split; [now right|exact H2].
Qed.

Lemma children_in_In (dirs : Listing) (dir : FilePath)
      (e : DirectoryContentEntry) :
  In e (children_in dirs dir) -> exists d, In d dirs /\ In e (snd d).
Proof.
  induction dirs as [|[d es] dirs IH]; [easy|].
  cbn [children_in]. destruct (FilePath_eqb d dir).
  - intros He. exists (d, es). split; [now left|exact He].
  - intros He. destruct (IH He) as [d' [Hd' He']].
    exists d'. split; [now right|exact He'].
Qed.

Lemma flags_ok_sound (dirs : Listing) (files : list (FilePath * File)) :
  flags_ok dirs = true -> flags_agree (memory_accessor dirs files).
Proof.
  unfold flags_ok, flags_agree, memory_accessor.
  cbn [ListDirectoryContent DirectoryExists].
  intros Hok dir e He.
  destruct (children_in_In dirs dir e He) as [d [Hd Hin]].
  rewrite forallb_forall in Hok. specialize (Hok d Hd).
  rewrite forallb_forall in Hok. specialize (Hok e Hin).
  now apply Bool.eqb_prop in Hok.
Qed.

Lemma sample_accessor_flags_agree : flags_agree sample_accessor.
Proof. apply flags_ok_sound. reflexivity. Qed.

Section MoreWriting.

Variable minizip_ok : zipFile -> ZipOp -> bool.
Variable fd_opens : Z -> bool.
Variable path_opens : string -> bool.

(** X3.  [AddEntryToZip] (lines 61-75) does not act on the result of
    [AppendRelativePath] (it is only asserted).  For a path that is not
    strictly below the root the relative path stays empty, and the entry
    is attempted all the same: under the name ["/"] for a directory and
    under the empty name for a file.  The empty relative path of an
    explicit list is such a path: it resolves to the source directory
    itself. *)
Theorem AddEntryToZip_names_a_path_outside_the_root_by_the_empty_path :
  (forall root_path,
      fst (AppendRelativePath root_path (Append root_path []) []) = false)
  /\ forall (h : zipFile) (abs_path root_path : FilePath)
            (accessor : FileAccessor),
      fst (AppendRelativePath root_path abs_path []) = false ->
      entry_name accessor root_path abs_path
      = (if DirectoryExists accessor abs_path then "/" else "")
      /\ open_attempts
           (snd (AddEntryToZip minizip_ok h abs_path root_path accessor))
         = open_attempts h
             ++ [if DirectoryExists accessor abs_path then "/" else ""].
Proof.
  split.
  - intros root_path. rewrite Append_empty.
    unfold AppendRelativePath, GetComponents.
    rewrite Nat.leb_refl, orb_true_r. reflexivity.
  - intros h abs_path root_path accessor Hfail.
    assert (Hname : entry_name accessor root_path abs_path
                    = (if DirectoryExists accessor abs_path
                       then "/" else "")).
    { unfold entry_name.
      rewrite (AppendRelativePath_failure _ _ _ Hfail).
      now destruct (DirectoryExists accessor abs_path). }
    split; [exact Hname|].
    destruct (AddEntryToZip_outcome minizip_ok h abs_path root_path accessor)
      as [w [Heq [Hattempt _]]].
    rewrite Heq. cbn [snd].
    now rewrite open_attempts_app, Hattempt, Hname.
Qed.

(** X8.  When the filters reject every entry listed in the source
    directory (in particular when the source directory is empty), [Zip]
    lists the source directory and nothing else, collects no file, and
    writes an archive without entries: the only call on the archive is
    [zipClose], whose outcome is the value returned. *)
Theorem Zip_of_a_tree_with_nothing_accepted_writes_no_entry
        (fuel : nat) (params : ZipParams) (run : ZipRun) (zf : zipFile) :
  Zip minizip_ok fd_opens path_opens fuel params = Some run ->
  files_to_zip params = [] ->
  archive run = Some zf ->
  (forall e,
      In e (ListDirectoryContent (file_accessor params) (src_dir params)) ->
      accepted params e = false) ->
  files_to_add run = []
  /\ zf = [(OpClose, zip_result run)]
  /\ listed (traversal run) = [src_dir params]
  /\ entries (traversal run)
     = seed params
         :: ListDirectoryContent (file_accessor params) (src_dir params).
Proof.
  intros Hrun Hfull Hzf Hnone.
  assert (Harchive : archive run <> None) by (rewrite Hzf; discriminate).
  destruct (Zip_full_tree minizip_ok fd_opens path_opens fuel params run
              Hrun Hfull Harchive) as [Htrav Hfiles].
  pose proof (traverse_reachable params fuel _ Htrav) as Hreach.
  destruct (traverse_characterised params fuel _ Htrav)
    as [Hq [Hall [_ Hlisted]]].
  assert (Htop : forall e, In e (tl (entries (traversal run))) ->
                           accepted params e = false).
  { intros e He. apply Hreach in He.
    assert (Hin : In e (ListDirectoryContent (file_accessor params)
                          (src_dir params))).
    { induction He as [e He | d e _ IH Hacc _ _]; [exact He|].
      rewrite (Hnone d IH) in Hacc. discriminate. }
    now apply Hnone. }
  assert (Hexp : flat_map (expansion params) (tl (entries (traversal run)))
                 = []).
  { revert Htop. generalize (tl (entries (traversal run))).
    induction l as [|e l IH]; intros Htop; [reflexivity|].
    cbn [flat_map]. unfold expansion at 1.
    rewrite (Htop e (or_introl eq_refl)). cbn [andb app].
    apply IH. intros e' He'. apply Htop. now right. }
  assert (Hfilter : forall f,
             filter (fun e => accepted params e && f e)
               (tl (entries (traversal run))) = []).
  { intros f. revert Htop. generalize (tl (entries (traversal run))).
    induction l as [|e l IH]; intros Htop; [reflexivity|].
    cbn [filter]. rewrite (Htop e (or_introl eq_refl)). cbn [andb].
    apply IH. intros e' He'. apply Htop. now right. }
  assert (Hadd : files_to_add run = []).
  { rewrite Hfiles, Hall.
    rewrite (filter_ext (accepted params)
               (fun e => accepted params e && true))
      by (intros e; now rewrite andb_true_r).
    now rewrite Hfilter. }
  destruct (Zip_outcome minizip_ok fd_opens path_opens fuel params run zf
              Hrun Hzf) as [b [w [_ [Hw [-> Hres]]]]].
  rewrite Hadd in Hw. cbn [add_entries] in Hw. injection Hw as <- <-.
  split; [exact Hadd|]. split; [now rewrite Hres|].
  split; [now rewrite Hlisted, Hfilter|].
  rewrite Hq at 1. now rewrite Hexp, app_nil_r.
Qed.

End MoreWriting.

Section MoreUnpacking.

Variable archive_at : FilePath -> option (list ArchiveEntry).

(** X17.  What [UnzipWithFilterCallback] extracts, on any archive and
    whatever it returns: every extraction goes into [dest_dir], and it is
    the extraction of an entry of the archive that opened, that is safe,
    and that the filter accepted.  An unsafe entry and an entry the
    filter rejects are never extracted, also when the call fails half
    way. *)
Theorem UnzipWithFilterCallback_extracts_safe_accepted_entries_only
        (fuel : nat) (src_file dest_dir : FilePath)
        (filter_cb : FilePath -> bool) (log_skipped_files b : bool)
        (u : Unzipping) :
  UnzipWithFilterCallback archive_at fuel src_file dest_dir filter_cb
    log_skipped_files = Some (b, Some u) ->
  forall c, In c (extracted (reader u)) ->
    fst c = dest_dir
    /\ filter_cb (snd c) = true
    /\ unsafe_path (snd c) = false
    /\ exists es e,
        archive_at src_file = Some es
        /\ In e es
        /\ stored_path e = snd c
        /\ opens e = true
        /\ extracts e = true.
Proof.
  unfold UnzipWithFilterCallback, Open. intros Hrun c Hc.
  destruct (archive_at src_file) as [es|]; [|discriminate].
  destruct (unzip_loop fuel dest_dir filter_cb log_skipped_files
              (mkUnzipping (mkZipReader es 0 None []) [] []))
    as [[b' u']|] eqn:Hloop; [|discriminate].
  injection Hrun as -> ->.
  apply (unzip_loop_fuel_mono dest_dir filter_cb log_skipped_files fuel
           (fuel + S (List.length es))) in Hloop; [|lia].
  destruct (unzip_loop_outcome dest_dir filter_cb log_skipped_files
              es [] None [] [] [] (fuel + S (List.length es)))
    as [u' [Hrun [_ [Hx _]]]]; [lia|].
  cbn [app List.length] in Hrun, Hx.
  rewrite Hloop in Hrun. injection Hrun as _ <-.
  rewrite Hx in Hc. apply in_app_or in Hc. destruct Hc as [Hc | Hc].
  - unfold extractions_of in Hc. apply in_map_iff in Hc.
    destruct Hc as [p [<- Hp]]. apply filter_In in Hp.
    destruct Hp as [Hp Hcb]. apply in_map_iff in Hp.
    destruct Hp as [e [<- He]].
    apply passing_prefix_passes in He. destruct He as [He Hpass].
    unfold passes in Hpass. cbn [fst snd].
    rewrite Hcb in Hpass. cbn [negb orb] in Hpass.
    repeat (apply andb_prop in Hpass; destruct Hpass as [Hpass ?]).
    split; [reflexivity|]. split; [exact Hcb|].
    split; [now apply negb_true_iff|].
    exists es, e. repeat split; assumption.
  - unfold extracted_at_stop in Hc.
    destruct (nth_error es (List.length (passing_prefix filter_cb es)))
      as [e|] eqn:He; [|easy].
    apply nth_error_In in He.
    destruct (opens e && negb (unsafe_path (stored_path e))
              && filter_cb (stored_path e) && extracts e) eqn:Hdone;
      [|easy].
    repeat (apply andb_prop in Hdone; destruct Hdone as [Hdone ?]).
    destruct Hc as [<- | []]. cbn [fst snd].
    split; [reflexivity|]. split; [assumption|].
    split; [now apply negb_true_iff|].
    exists es, e. repeat split; assumption.
Qed.

End MoreUnpacking.

(* ===================================================================== *)
(** ** The further properties on the sample tree and the sample archives *)
(* ===================================================================== *)

(** A file whose second read fails: the first chunk is written, the
    copy ends there and reports success. *)
Example copying_a_file_whose_second_read_fails :
  AddFileToZip writer_ok [] ["/"; "src"; "a.txt"] broken_accessor
  = (true, [(OpWriteInFileInZip "alpha" 5%Z, true)]).
Proof. reflexivity. Qed.

(** The listing of [/d] by the direct accessor stops at the empty path
    the enumerator returns third. *)
Example listing_stops_at_the_empty_path :
  ListDirectoryContent (DirectFileAccessor sample_fs) ["/"; "d"]
  = [ mkEntry ["/"; "d"; "f"] false; mkEntry ["/"; "d"; "sub"] true ].
Proof. reflexivity. Qed.

(** X4: success of [Zip] on the sample list with a writer that cannot open
    [.git/config]: the call fails, and a call on the archive failed. *)
Lemma Zip_succeeds_iff_nothing_failed_witness :
  exists run zf,
    Zip (writer_refusing ".git/config") open_any_fd open_any_path 0
      sample_explicit_params = Some run
    /\ archive run = Some zf
    /\ zip_result run = false
    /\ forallb snd zf = false
    /\ (zip_result run = true <->
        forallb snd zf = true
        /\ forallb (fun f => source_readable sample_accessor
                               (Append sample_src f))
             (files_to_add run) = true).
Proof.
  eexists. eexists. split; [vm_compute; reflexivity|].
  split; [reflexivity|]. split; [reflexivity|]. split; [reflexivity|].
  apply (Zip_succeeds_iff_nothing_failed (writer_refusing ".git/config")
           open_any_fd open_any_path 0 sample_explicit_params).
  - vm_compute. reflexivity.
  - reflexivity.
Defined.

(** X5: the call discipline on the same failing run. *)
Lemma Zip_keeps_the_writer_call_discipline_witness :
  exists run zf,
    Zip (writer_refusing ".git/config") open_any_fd open_any_path 0
      sample_explicit_params = Some run
    /\ archive run = Some zf
    /\ zip_result run = false
    /\ (protocol_from (Some Idle) zf = Some Finished
        /\ exists w closed,
            zf = w ++ [(OpClose, closed)]
            /\ protocol_from (Some Idle) w = Some Idle).
Proof.
  eexists. eexists. split; [vm_compute; reflexivity|].
  split; [reflexivity|]. split; [reflexivity|].
  eapply (Zip_keeps_the_writer_call_discipline (writer_refusing ".git/config")
           open_any_fd open_any_path 0 sample_explicit_params).
  - vm_compute. reflexivity.
  - reflexivity.
Defined.

(** X6: a descriptor that cannot be opened: the destination path, which
    could be opened, is not tried. *)
Lemma Zip_fails_early_when_the_archive_does_not_open_witness :
  open_any_path (AsUTF8Unsafe (dest_file sample_explicit_params)) = true
  /\ Zip writer_ok open_no_fd open_any_path 0 sample_explicit_params
     = Some (mkZipRun false None [] no_traversal).
Proof.
  split; [reflexivity|].
  apply (Zip_fails_early_when_the_archive_does_not_open writer_ok open_no_fd
           open_any_path 0 sample_explicit_params).
  left. split; [discriminate|reflexivity].
Defined.

(** X7: packing the sample tree returns, with [size_below] for a measure. *)
Lemma Zip_terminates_on_finite_trees_witness :
  size_below sample_dirs 4 sample_src = 9
  /\ exists run,
      forall fuel', 10 <= fuel' ->
        Zip writer_ok open_any_fd open_any_path fuel'
          (sample_params (Some not_foo) false) = Some run.
Proof.
  split; [reflexivity|].
  apply (Zip_terminates_on_finite_trees writer_ok open_any_fd open_any_path
           10 (sample_params (Some not_foo) false)
           (size_below sample_dirs 4)).
  - exact sample_tree_is_finite.
  - vm_compute. lia.
Defined.

(** X8: the sample tree with a callback that rejects everything. *)
Lemma Zip_of_a_tree_with_nothing_accepted_writes_no_entry_witness :
  exists run zf,
    Zip writer_ok open_any_fd open_any_path 20
      (sample_params (Some reject_all) true) = Some run
    /\ archive run = Some zf
    /\ zip_result run = true
    /\ (files_to_add run = []
        /\ zf = [(OpClose, zip_result run)]
        /\ listed (traversal run) = [sample_src]
        /\ entries (traversal run)
           = seed (sample_params (Some reject_all) true)
               :: ListDirectoryContent sample_accessor sample_src).
Proof.
  eexists. eexists. split; [vm_compute; reflexivity|].
  split; [reflexivity|]. split; [reflexivity|].
  apply (Zip_of_a_tree_with_nothing_accepted_writes_no_entry writer_ok
           open_any_fd open_any_path 20
           (sample_params (Some reject_all) true)).
  - vm_compute. reflexivity.
  - reflexivity.
  - reflexivity.
  - intros e He. cbn in He.
    repeat (destruct He as [<- | He]; [reflexivity|]). destruct He.
Defined.


(** X10: the directories listed while packing the sample tree, [foo]
    rejected. *)
Lemma Zip_lists_the_accepted_directories_in_queue_order_witness :
  exists run,
    Zip writer_ok open_any_fd open_any_path 20
      (sample_params (Some not_foo) true) = Some run
    /\ listed (traversal run) = [ ["/"; "src"]; ["/"; "src"; ".git"] ]
    /\ (listed (traversal run)
        = sample_src
            :: map path
                 (filter (fun e => accepted (sample_params (Some not_foo) true)
                                     e && is_directory e)
                    (tl (entries (traversal run))))
        /\ (forall p, In p (tl (listed (traversal run))) ->
              exists e, reachable (sample_params (Some not_foo) true) e
                        /\ path e = p
                        /\ accepted (sample_params (Some not_foo) true) e
                           = true
                        /\ is_directory e = true)).
Proof.
  eexists. split; [vm_compute; reflexivity|]. split; [reflexivity|].
  apply (Zip_lists_the_accepted_directories_in_queue_order writer_ok
           open_any_fd open_any_path 20 (sample_params (Some not_foo) true)).
  - vm_compute. reflexivity.
  - reflexivity.
  - discriminate.
Defined.

(** X11: the sample tree without hidden files: [.git/config], whose final
    component is not hidden, is not packed either. *)
Lemma Zip_without_hidden_files_packs_no_dotted_component_witness :
  IsHiddenFile ["/"; "src"; ".git"; "config"] = false
  /\ exists run,
      Zip writer_ok open_any_fd open_any_path 20 (sample_params None false)
      = Some run
      /\ forall r n, In r (files_to_add run) -> In n r -> ~ starts_with_dot n.
Proof.
  split; [reflexivity|].
  eexists. split; [vm_compute; reflexivity|].
  apply (Zip_without_hidden_files_packs_no_dotted_component writer_ok
           open_any_fd open_any_path 20 (sample_params None false)).
  - exact sample_accessor_lists_children.
  - discriminate.
  - reflexivity.
  - vm_compute. reflexivity.
  - reflexivity.
  - discriminate.
Defined.

(** X12: the entry names of the sample tree packed in full. *)
Lemma Zip_names_the_entries_after_the_queue_witness :
  exists run zf,
    Zip writer_ok open_any_fd open_any_path 20 (sample_params None true)
    = Some run
    /\ archive run = Some zf
    /\ entry_names zf
       = [ "a.txt"; "foo/"; ".git/"; "z.txt"; "foo/ok.txt"; "foo/bar/";
           ".git/config"; "foo/bar/deep.txt" ]
    /\ ((exists k,
            open_attempts zf
            = map (archive_name (sample_params None true))
                (firstn k (filter (accepted (sample_params None true))
                             (tl (entries (traversal run))))))
        /\ (zip_result run = true ->
            entry_names zf
            = map (archive_name (sample_params None true))
                (filter (accepted (sample_params None true))
                   (tl (entries (traversal run)))))).
Proof.
  eexists. eexists. split; [vm_compute; reflexivity|].
  split; [reflexivity|]. split; [reflexivity|].
  apply (Zip_names_the_entries_after_the_queue writer_ok open_any_fd
           open_any_path 20 (sample_params None true)).
  - exact sample_accessor_lists_children.
  - exact sample_accessor_flags_agree.
  - discriminate.
  - discriminate.
  - vm_compute. reflexivity.
  - reflexivity.
  - reflexivity.
Defined.

(** X13: the overload on the sample tree, hidden files excluded, with the
    flag of [ZipParams] starting out [true]. *)
Lemma Zip_overload_hidden_files_witness :
  exists run,
    ZipDirectory writer_ok open_any_fd open_any_path 20 sample_accessor true
      sample_src ["/"; "out.zip"] false = Some run
    /\ files_to_add run
       = [ ["a.txt"]; ["foo"]; ["z.txt"]; ["foo"; "ok.txt"]; ["foo"; "bar"];
           ["foo"; "bar"; "deep.txt"] ]
    /\ ((false = false ->
         lists_immediate_children sample_accessor ->
         sample_src <> [] ->
         forall r n, In r (files_to_add run) -> In n r -> ~ starts_with_dot n)
        /\ (false = true ->
            files_to_add run
            = map (fun e => relative_to sample_src (path e))
                (filter (fun e => true || negb (IsHiddenFile (path e)))
                   (tl (entries (traversal run)))))).
Proof.
  eexists. split; [vm_compute; reflexivity|]. split; [reflexivity|].
  apply (Zip_overload_hidden_files writer_ok open_any_fd open_any_path 20
           sample_accessor true sample_src ["/"; "out.zip"] false).
  - vm_compute. reflexivity.
  - discriminate.
Defined.

(** X14: [ZipFiles] on the sample tree with an empty list. *)
Lemma ZipFiles_with_no_path_packs_the_tree_witness :
  exists run,
    ZipFiles writer_ok open_any_fd open_any_path 20 sample_accessor false
      sample_src [] 3%Z = Some run
    /\ files_to_add run
       = [ ["a.txt"]; ["foo"]; ["z.txt"]; ["foo"; "ok.txt"]; ["foo"; "bar"];
           ["foo"; "bar"; "deep.txt"] ]
    /\ (hd_error (listed (traversal run)) = Some sample_src
        /\ callback_runs (traversal run) = []
        /\ (forall e, In e (ListDirectoryContent sample_accessor sample_src) ->
              In e (tl (entries (traversal run))))
        /\ files_to_add run
           = map (fun e => relative_to sample_src (path e))
               (filter (fun e => false || negb (IsHiddenFile (path e)))
                  (tl (entries (traversal run))))).
Proof.
  eexists. split; [vm_compute; reflexivity|]. split; [reflexivity|].
  apply (ZipFiles_with_no_path_packs_the_tree writer_ok open_any_fd
           open_any_path 20 sample_accessor false sample_src 3%Z).
  - vm_compute. reflexivity.
  - discriminate.
Defined.

(** X16: [damaged.zip], whose second entry cannot be extracted, and
    [stuck.zip], on whose second entry the reader cannot advance: both
    calls fail on the second entry, the first having extracted [a.txt]
    only, the second [a.txt] and [b.txt]. *)
Lemma UnzipWithFilterCallback_succeeds_iff_every_entry_passes_witness :
  (exists u,
      UnzipWithFilterCallback damaged_disk 4 ["/"; "damaged.zip"] sample_dest
        ExcludeNoFilesFilter false = Some (false, Some u)
      /\ position (reader u) = 1
      /\ extracted (reader u) = [(sample_dest, ["a.txt"])])
  /\ (exists u,
         UnzipWithFilterCallback damaged_disk 4 ["/"; "stuck.zip"] sample_dest
           ExcludeNoFilesFilter false = Some (false, Some u)
         /\ position (reader u) = 1
         /\ extracted (reader u)
            = [(sample_dest, ["a.txt"]); (sample_dest, ["b.txt"])]).
Proof.
  split.
  - destruct (UnzipWithFilterCallback_succeeds_iff_every_entry_passes
                damaged_disk 4 ["/"; "damaged.zip"] sample_dest
                ExcludeNoFilesFilter false damaged_zip)
      as [u [Hrun [Hpos [Hx _]]]].
    + reflexivity.
    + cbn. lia.
    + exists u. split; [exact Hrun|]. split; [exact Hpos|exact Hx].
  - destruct (UnzipWithFilterCallback_succeeds_iff_every_entry_passes
                damaged_disk 4 ["/"; "stuck.zip"] sample_dest
                ExcludeNoFilesFilter false stuck_zip)
      as [u [Hrun [Hpos [Hx _]]]].
    + reflexivity.
    + cbn. lia.
    + exists u. split; [exact Hrun|]. split; [exact Hpos|exact Hx].
Defined.

(** X17: [evil.zip]: the call fails after [a.txt] has been extracted; the
    unsafe entry is not among the extractions. *)
Lemma UnzipWithFilterCallback_extracts_safe_accepted_entries_only_witness :
  exists u,
    UnzipWithFilterCallback disk 5 ["/"; "evil.zip"] sample_dest
      ExcludeNoFilesFilter true = Some (false, Some u)
    /\ extracted (reader u) = [(sample_dest, ["a.txt"])]
    /\ forall c, In c (extracted (reader u)) ->
         fst c = sample_dest
         /\ ExcludeNoFilesFilter (snd c) = true
         /\ unsafe_path (snd c) = false
         /\ exists es e,
             disk ["/"; "evil.zip"] = Some es
             /\ In e es
             /\ stored_path e = snd c
             /\ opens e = true
             /\ extracts e = true.
Proof.
  eexists. split; [vm_compute; reflexivity|]. split; [reflexivity|].
  apply (UnzipWithFilterCallback_extracts_safe_accepted_entries_only disk 5
           ["/"; "evil.zip"] sample_dest ExcludeNoFilesFilter true false).
  vm_compute. reflexivity.
Defined.

(** X18: [Unzip] on [nested.zip]. *)
Lemma Unzip_extracts_every_entry_or_fails_witness :
  forallb extractable nested_zip = true
  /\ exists u,
      Unzip disk 4 ["/"; "nested.zip"] sample_dest
      = Some (forallb extractable nested_zip, Some u)
      /\ skipped_log u = []
      /\ (forallb extractable nested_zip = true ->
          extracted (reader u)
          = extractions_of sample_dest (map stored_path nested_zip)
          /\ filter_cb_runs u = map stored_path nested_zip).
Proof.
  split; [reflexivity|].
  apply (Unzip_extracts_every_entry_or_fails disk 4 ["/"; "nested.zip"]
           sample_dest nested_zip).
  - reflexivity.
  - cbn. lia.
Defined.

(* ===================================================================== *)
(** ** A failed entry aborts packing *)
(* ===================================================================== *)

Section FailedEntries.

Variable minizip_ok : zipFile -> ZipOp -> bool.
Variable fd_opens : Z -> bool.
Variable path_opens : string -> bool.

(** C9 (a failed entry aborts packing).  Let the archive be opened, let
    the files to add be [pre ++ f :: post], explicit or collected by the
    traversal, let the entries for [pre] be added successfully, and let
    [AddEntryToZip] return [b2] for [f], whatever that is.  The calls
    made for [f] are one attempt to open the entry and, when the entry
    opened, writes followed by the call that closes the entry; [b2] is
    [true] exactly when the entry opened, the source was a directory or
    a file that could be opened, every write succeeded and the entry was
    closed.  So each of these makes adding [f] fail: a source file that
    cannot be opened, a chunk that cannot be written, an entry that
    cannot be closed (and an entry that cannot be opened).  When it
    fails, [Zip] returns [false]; the calls made for [pre] and for [f]
    stay in the archive history as they were made, with the entries of
    [pre] written; no entry of [post] is attempted; and the last call is
    the one that closes the archive. *)
Theorem C9_first_failure_aborts_packing
        (fuel : nat) (params : ZipParams) (h1 h2 : zipFile) (b2 : bool)
        (pre post : list FilePath) (f : FilePath) (t : Traversal) :
  open_archive fd_opens path_opens params <> None ->
  collect_files fuel params = Some (pre ++ f :: post, t) ->
  add_entries minizip_ok [] params pre = (true, h1) ->
  AddEntryToZip minizip_ok h1 (Append (src_dir params) f) (src_dir params)
    (file_accessor params) = (b2, h2) ->
  exists (opened : bool) (writes : zipFile) (closed : bool),
    h2 = h1 ++ (OpOpenNewFileInZip (str_path_of params f)
                  (GetLastModifiedTime (file_accessor params)
                     (Append (src_dir params) f)), opened)
               :: (if opened
                   then writes ++ [(OpCloseFileInZip, closed)]
                   else [])
    /\ forallb is_write writes = true
    /\ b2 = opened
            && source_readable (file_accessor params)
                 (Append (src_dir params) f)
            && forallb snd writes
            && closed
    /\ entry_names h1 = map (str_path_of params) pre
    /\ (source_readable (file_accessor params) (Append (src_dir params) f)
        = false
        \/ forallb snd writes = false
        \/ closed = false
        \/ opened = false ->
        Zip minizip_ok fd_opens path_opens fuel params
        = Some (mkZipRun false
                  (Some (h2 ++ [(OpClose, minizip_ok h2 OpClose)]))
                  (pre ++ f :: post) t)
        /\ open_attempts (h2 ++ [(OpClose, minizip_ok h2 OpClose)])
           = map (str_path_of params) (pre ++ [f])).
Proof.
  intros Hopen Hfiles Hpre Hf.
  destruct (open_archive fd_opens path_opens params) as [h0|] eqn:Eopen;
    [|congruence].
  pose proof (open_archive_fresh _ _ _ _ Eopen) as ->.
  destruct (add_entries_outcome minizip_ok params _ _ _ _ Hpre)
    as [k [w1 [Hh1 [_ [_ Hb]]]]].
  cbn [app] in Hh1. subst w1.
  destruct (Hb eq_refl) as [Hnames [Hatt _]].
  destruct (AddEntryToZip_calls minizip_ok h1 (Append (src_dir params) f)
              (src_dir params) (file_accessor params))
    as [opened [writes [closed [Heq [Hw _]]]]].
  rewrite Hf in Heq. injection Heq as Hb2 Hh2.
  exists opened, writes, closed.
  split; [exact Hh2|]. split; [exact Hw|]. split; [exact Hb2|].
  split; [exact Hnames|].
  intros Hcause.
  assert (Hfalse : b2 = false).
  { rewrite Hb2.
    destruct Hcause as [-> | [-> | [-> | ->]]];
      now rewrite ?andb_false_r, ?andb_false_l. }
  subst b2. rewrite Hfalse in Hf. split.
  - unfold Zip. rewrite Eopen, Hfiles.
    rewrite (add_entries_stops minizip_ok params pre post f [] h1 h2 Hpre Hf).
    unfold zipClose, zip_call.
    now destruct (minizip_ok h2 OpClose).
  - destruct (AddEntryToZip_outcome minizip_ok h1 (Append (src_dir params) f)
                (src_dir params) (file_accessor params))
      as [w2 [Hw2 [Ho2 _]]].
    rewrite Hf in Hw2. injection Hw2 as _ Hh2'.
    rewrite Hh2', !open_attempts_app, Hatt, Ho2, map_app. cbn.
    now rewrite app_nil_r.
Qed.

End FailedEntries.

(* ===================================================================== *)
(** ** The current directory as source directory *)
(* ===================================================================== *)

(** C3 at the current directory.  With [src_dir = "."] the relative path
    of every queued entry comes out empty, since [AppendRelativePath]
    fails on the paths the enumerator builds below ["."] and its result
    is only asserted (lines 204-206 and 62-63): [Zip] returns [true]
    having written one entry named ["/"], the root itself, for each
    queued entry.  With an accessor that lists the file as [./a.txt] the
    relative path is [a.txt], and the file is written under the empty
    name. *)
Lemma C3_root_is_an_entry_at_the_current_directory :
  (exists run zf,
      Zip writer_ok open_any_fd open_any_path 20 dot_params = Some run
      /\ archive run = Some zf
      /\ zip_result run = true
      /\ files_to_add run = [ []; []; [] ]
      /\ entry_names zf = [ "/"; "/"; "/" ])
  /\ (lists_immediate_children (file_accessor dot_slash_params)
      /\ exists run zf,
          Zip writer_ok open_any_fd open_any_path 20 dot_slash_params
          = Some run
          /\ archive run = Some zf
          /\ zip_result run = true
          /\ files_to_add run = [ ["a.txt"] ]
          /\ entry_names zf = [ "" ]).
Proof.
  split.
  - eexists. eexists. split; [vm_compute; reflexivity|].
    repeat split; reflexivity.
  - split; [apply listing_ok_sound; reflexivity|].
    eexists. eexists. split; [vm_compute; reflexivity|].
    repeat split; reflexivity.
Qed.

(** C5 at the current directory.  [ZipFiles] with [src_dir = "."] and the
    list [a.txt]: no traversal takes place and the listed file is added,
    but [AppendRelativePath] fails on the path [Append] built for it and
    its result is only asserted (lines 62-63), so that [Zip] returns
    [true] having written the file under the empty name, not under
    [a.txt]. *)
Lemma C5_listed_file_loses_its_name_at_the_current_directory :
  exists run zf,
    ZipFiles writer_ok open_any_fd open_any_path 0 dot_accessor true dot_src
      [ ["a.txt"] ] 3%Z = Some run
    /\ archive run = Some zf
    /\ zip_result run = true
    /\ files_to_add run = [ ["a.txt"] ]
    /\ traversal run = no_traversal
    /\ Append dot_src ["a.txt"] = ["a.txt"]
    /\ fst (AppendRelativePath dot_src ["a.txt"] []) = false
    /\ entry_names zf = [ "" ]
    /\ zf = [ (OpOpenNewFileInZip "" 0%Z, true);
              (OpWriteInFileInZip "alpha" 5%Z, true);
              (OpCloseFileInZip, true);
              (OpClose, true) ].
Proof.
  eexists. eexists. split; [vm_compute; reflexivity|].
  repeat split; reflexivity.
Qed.

(* ===================================================================== *)
(** ** The root, explicit lists and failed entries on the samples *)
(* ===================================================================== *)

(** X20 on a hidden source directory that the callback rejects as well:
    the source directory is listed and its file is packed. *)
Lemma Zip_keeps_the_root_out_of_the_archive_witness :
  rejected hidden_params (src_dir hidden_params) = true
  /\ exists run zf,
      Zip writer_ok open_any_fd open_any_path 20 hidden_params = Some run
      /\ archive run = Some zf
      /\ entry_names zf = [ "a.txt" ]
      /\ (hd_error (entries (traversal run)) = Some (seed hidden_params)
          /\ hd_error (listed (traversal run)) = Some hidden_src
          /\ (forall e,
                In e (ListDirectoryContent (file_accessor hidden_params)
                        hidden_src) ->
                In e (tl (entries (traversal run))))
          /\ callback_runs (traversal run)
             = runs_on hidden_params (tl (entries (traversal run)))
          /\ files_to_add run
             = map (fun e => relative_to hidden_src (path e))
                 (filter (accepted hidden_params)
                    (tl (entries (traversal run))))
          /\ (lists_immediate_children (file_accessor hidden_params) ->
              hidden_src <> [] ->
              ~ In hidden_src (callback_runs (traversal run))
              /\ (forall r, In r (files_to_add run) ->
                    r <> [] /\ value r <> "" /\ value r <> "."
                    /\ exists e, In e (tl (entries (traversal run)))
                                 /\ path e = hidden_src ++ r
                                 /\ strictly_below hidden_src (path e))
              /\ (hidden_src <> [kCurrentDirectory] ->
                  forall n, In n (open_attempts zf) -> n <> "" /\ n <> "."))).
Proof.
  split; [reflexivity|].
  eexists. eexists. split; [vm_compute; reflexivity|].
  split; [reflexivity|]. split; [reflexivity|].
  apply (Zip_keeps_the_root_out_of_the_archive writer_ok open_any_fd
           open_any_path 20 hidden_params).
  - vm_compute. reflexivity.
  - reflexivity.
  - reflexivity.
Defined.

(** X21 on the sample tree: a hidden directory is listed, the callback
    rejects everything and hidden files are excluded, and the listed
    entries are written all the same. *)
Lemma Zip_with_an_explicit_list_skips_the_traversal_witness :
  IsHiddenFile [".git"] = true
  /\ exists run zf,
      Zip writer_ok open_any_fd open_any_path 0 sample_explicit_params
      = Some run
      /\ archive run = Some zf
      /\ entry_names zf = [ "a.txt"; ".git/config"; ".git/"; "foo/" ]
      /\ files_to_add run = sample_explicit
      /\ traversal run = no_traversal.
Proof.
  split; [reflexivity|].
  destruct (Zip_with_an_explicit_list_skips_the_traversal writer_ok
              open_any_fd open_any_path 0 sample_explicit_params)
    as [run [zf [Hrun [Hzf [Hadd [Hnone [Hok [_ [_ Hnames]]]]]]]]].
  - discriminate.
  - discriminate.
  - exists run, zf. split; [exact Hrun|]. split; [exact Hzf|].
    split; [|split; [exact Hadd|exact Hnone]].
    assert (Htrue : zip_result run = true).
    { apply Hok; reflexivity. }
    destruct Hnames as [_ Hall].
    + discriminate.
    + discriminate.
    + repeat constructor; discriminate.
    + rewrite (Hall Htrue). reflexivity.
Defined.

(** C9 on the sample tree, once for each failure the entry of the second
    listed file can meet: its source file does not exist; the writer
    refuses its chunk; the writer refuses to close its entry.  Each time
    [Zip] returns [false], the archive keeps the entry [a.txt], the
    third listed path is not attempted and the archive is closed last. *)
Lemma C9_witness :
  (source_readable sample_accessor (Append sample_src ["missing.txt"]) = false
   /\ Zip writer_ok open_any_fd open_any_path 0
        (explicit_params missing_second)
      = Some (mkZipRun false
                (Some [ (OpOpenNewFileInZip "a.txt" 0%Z, true);
                        (OpWriteInFileInZip "alpha" 5%Z, true);
                        (OpCloseFileInZip, true);
                        (OpOpenNewFileInZip "missing.txt" 0%Z, true);
                        (OpCloseFileInZip, true);
                        (OpClose, true) ])
                missing_second no_traversal))
  /\ Zip (writer_refusing_chunk "omega") open_any_fd open_any_path 0
       (explicit_params three_files)
     = Some (mkZipRun false
               (Some [ (OpOpenNewFileInZip "a.txt" 0%Z, true);
                       (OpWriteInFileInZip "alpha" 5%Z, true);
                       (OpCloseFileInZip, true);
                       (OpOpenNewFileInZip "z.txt" 0%Z, true);
                       (OpWriteInFileInZip "omega" 5%Z, false);
                       (OpCloseFileInZip, true);
                       (OpClose, true) ])
               three_files no_traversal)
  /\ Zip (writer_refusing_close_of "z.txt") open_any_fd open_any_path 0
       (explicit_params three_files)
     = Some (mkZipRun false
               (Some [ (OpOpenNewFileInZip "a.txt" 0%Z, true);
                       (OpWriteInFileInZip "alpha" 5%Z, true);
                       (OpCloseFileInZip, true);
                       (OpOpenNewFileInZip "z.txt" 0%Z, true);
                       (OpWriteInFileInZip "omega" 5%Z, true);
                       (OpCloseFileInZip, false);
                       (OpClose, true) ])
               three_files no_traversal).
Proof.
  split; [split; [reflexivity|]|split].
  - destruct (C9_first_failure_aborts_packing writer_ok open_any_fd
                open_any_path 0 (explicit_params missing_second)
                [ (OpOpenNewFileInZip "a.txt" 0%Z, true);
                  (OpWriteInFileInZip "alpha" 5%Z, true);
                  (OpCloseFileInZip, true) ]
                [ (OpOpenNewFileInZip "a.txt" 0%Z, true);
                  (OpWriteInFileInZip "alpha" 5%Z, true);
                  (OpCloseFileInZip, true);
                  (OpOpenNewFileInZip "missing.txt" 0%Z, true);
                  (OpCloseFileInZip, true) ]
                false [ ["a.txt"] ] [ ["foo"] ] ["missing.txt"] no_traversal)
      as [opened [writes [closed [_ [_ [_ [_ Habort]]]]]]].
    + discriminate.
    + reflexivity.
    + reflexivity.
    + reflexivity.
    + destruct Habort as [Hzip _]; [left; reflexivity|]. exact Hzip.
  - destruct (C9_first_failure_aborts_packing (writer_refusing_chunk "omega")
                open_any_fd open_any_path 0 (explicit_params three_files)
                [ (OpOpenNewFileInZip "a.txt" 0%Z, true);
                  (OpWriteInFileInZip "alpha" 5%Z, true);
                  (OpCloseFileInZip, true) ]
                [ (OpOpenNewFileInZip "a.txt" 0%Z, true);
                  (OpWriteInFileInZip "alpha" 5%Z, true);
                  (OpCloseFileInZip, true);
                  (OpOpenNewFileInZip "z.txt" 0%Z, true);
                  (OpWriteInFileInZip "omega" 5%Z, false);
                  (OpCloseFileInZip, true) ]
                false [ ["a.txt"] ] [ ["foo"] ] ["z.txt"] no_traversal)
      as [opened [writes [closed [Hh2 [_ [_ [_ Habort]]]]]]].
    + discriminate.
    + reflexivity.
    + reflexivity.
    + reflexivity.
    + destruct Habort as [Hzip _]; [|exact Hzip].
      right. left.
      apply (f_equal (skipn 4)) in Hh2. cbn [skipn app] in Hh2.
      destruct opened; [|discriminate Hh2].
      change ([(OpWriteInFileInZip "omega" 5%Z, false)]
                ++ [(OpCloseFileInZip, true)]
              = writes ++ [(OpCloseFileInZip, closed)]) in Hh2.
      apply app_inj_tail in Hh2. destruct Hh2 as [<- _]. reflexivity.
  - destruct (C9_first_failure_aborts_packing
                (writer_refusing_close_of "z.txt")
                open_any_fd open_any_path 0 (explicit_params three_files)
                [ (OpOpenNewFileInZip "a.txt" 0%Z, true);
                  (OpWriteInFileInZip "alpha" 5%Z, true);
                  (OpCloseFileInZip, true) ]
                [ (OpOpenNewFileInZip "a.txt" 0%Z, true);
                  (OpWriteInFileInZip "alpha" 5%Z, true);
                  (OpCloseFileInZip, true);
                  (OpOpenNewFileInZip "z.txt" 0%Z, true);
                  (OpWriteInFileInZip "omega" 5%Z, true);
                  (OpCloseFileInZip, false) ]
                false [ ["a.txt"] ] [ ["foo"] ] ["z.txt"] no_traversal)
      as [opened [writes [closed [Hh2 [_ [_ [_ Habort]]]]]]].
    + discriminate.
    + reflexivity.
    + reflexivity.
    + reflexivity.
    + destruct Habort as [Hzip _]; [|exact Hzip].
      right. right. left.
      apply (f_equal (skipn 4)) in Hh2. cbn [skipn app] in Hh2.
      destruct opened; [|discriminate Hh2].
      change ([(OpWriteInFileInZip "omega" 5%Z, true)]
                ++ [(OpCloseFileInZip, false)]
              = writes ++ [(OpCloseFileInZip, closed)]) in Hh2.
      apply app_inj_tail in Hh2. destruct Hh2 as [_ Hclosed].
      now injection Hclosed as <-.
Defined.
